(** * SEO enhancer of the portfolio page: a shallow embedding and its properties

    The script [seo-enhancer.js] rewrites the page it is loaded in: it reads
    the DOM, sets attributes on elements it finds, and appends a few generated
    nodes.  This file embeds the script over an explicit model of the page.

    - The document is a tree of nodes.  Every element carries the identity of
      the JavaScript object that stands for it ([id]); the script's element
      references are these identities, and a mutation through a reference
      rewrites the one element of the tree that carries it.
    - A script function is a state transformer over the page that either
      returns or throws; what was mutated before a throw stays mutated.
    - What the browser supplies and the script only calls (URL parsing,
      attribute reflection, the HTML parser behind [innerHTML]) is the
      interface [Host].  Markup assigned through [innerHTML] is kept as the
      string the script built.
    - Strings are byte strings; letter case is ASCII letter case. *)

From Stdlib Require Import String Ascii List Arith Lia Bool DecimalString.
From stdpp Require Import base option list strings gmap.

Import ListNotations.
Open Scope string_scope.
Open Scope list_scope.

(** ** Strings *)

Module Str.

Definition dquote : string := String "034"%char EmptyString.

Definition is_upper (c : ascii) : bool :=
  let n := nat_of_ascii c in Nat.leb 65 n && Nat.leb n 90.

Definition is_lower (c : ascii) : bool :=
  let n := nat_of_ascii c in Nat.leb 97 n && Nat.leb n 122.

Definition lower (c : ascii) : ascii :=
  if is_upper c then ascii_of_nat (nat_of_ascii c + 32) else c.

Definition upper (c : ascii) : ascii :=
  if is_lower c then ascii_of_nat (nat_of_ascii c - 32) else c.

(** [String.prototype.toLowerCase] *)
Fixpoint toLowerCase (s : string) : string :=
  match s with
  | EmptyString => EmptyString
  | String c s' => String (lower c) (toLowerCase s')
  end.

(** [Array.prototype.join] on strings *)
Fixpoint join (sep : string) (l : list string) : string :=
  match l with
  | [] => EmptyString
  | [x] => x
  | x :: r => x ++ sep ++ join sep r
  end.

(** ASCII whitespace, as the DOM splits token lists on it. *)
Definition is_space (c : ascii) : bool :=
  let n := nat_of_ascii c in
  Nat.eqb n 32 || Nat.eqb n 9 || Nat.eqb n 10 || Nat.eqb n 12 || Nat.eqb n 13.

(** Pieces of [s] between whitespace characters, the piece being read
    first; empty pieces included. *)
Fixpoint pieces (s : string) : list string :=
  match s with
  | EmptyString => [EmptyString]
  | String c s' =>
      if is_space c then EmptyString :: pieces s'
      else match pieces s' with
           | t :: ts => String c t :: ts
           | [] => [String c EmptyString]
           end
  end.

Definition nonempty (s : string) : bool :=
  match s with EmptyString => false | _ => true end.

(** Split on ASCII whitespace. *)
Definition split_ws (s : string) : list string := List.filter nonempty (pieces s).

Definition mem (x : string) (l : list string) : bool :=
  existsb (String.eqb x) l.

(** Insertion into an ordered set: the order of first insertion is kept. *)
Definition set_add (acc : list string) (x : string) : list string :=
  if mem x acc then acc else acc ++ [x].

(** [new Set(l)], read back in insertion order. *)
Definition ordered_set (l : list string) : list string :=
  fold_left set_add l [].

End Str.

(** ** The document tree *)

Definition Attrs := list (string * string).

Module Attr.

Fixpoint get (k : string) (a : Attrs) : option string :=
  match a with
  | [] => None
  | (k', v) :: r => if String.eqb k k' then Some v else get k r
  end.

(** An attribute that exists keeps its place; a new one goes last. *)
Fixpoint set (k v : string) (a : Attrs) : Attrs :=
  match a with
  | [] => [(k, v)]
  | (k', v') :: r =>
      if String.eqb k k' then (k, v) :: r else (k', v') :: set k v r
  end.

Definition remove (k : string) (a : Attrs) : Attrs :=
  List.filter (fun kv => negb (String.eqb k (fst kv))) a.

Definition has (k : string) (a : Attrs) : bool :=
  match get k a with Some _ => true | None => false end.

(** A reflected string attribute: the empty string when absent. *)
Definition reflect (k : string) (a : Attrs) : string :=
  match get k a with Some v => v | None => EmptyString end.

(** The class list of an element. *)
Definition classes (a : Attrs) : list string :=
  Str.ordered_set (Str.split_ws (reflect "class" a)).

(** [classList.add(c)]: the attribute is rewritten from the token set. *)
Definition class_add (c : string) (a : Attrs) : Attrs :=
  set "class" (Str.join " " (Str.set_add (classes a) c)) a.

End Attr.

(** An element reference: the identity of the element object. *)
Definition Ref := nat.

#[warnings="-register-all"]
Inductive Node : Type :=
| Elem (id : Ref) (tag : string) (attrs : Attrs) (kids : list Node)
| Text (data : string)
| Markup (html : string).

Definition node_attrs (n : Node) : Attrs :=
  match n with Elem _ _ a _ => a | _ => [] end.

Definition node_kids (n : Node) : list Node :=
  match n with Elem _ _ _ ks => ks | _ => [] end.

Definition has_id (i : Ref) (n : Node) : bool :=
  match n with Elem j _ _ _ => Nat.eqb i j | _ => false end.

Definition has_tag (t : string) (n : Node) : bool :=
  match n with Elem _ t' _ _ => String.eqb t t' | _ => false end.

(** The first answer of [f] along a list. *)
Definition first_some {A B : Type} (f : A -> option B) : list A -> option B :=
  fix go (l : list A) : option B :=
    match l with
    | [] => None
    | x :: r => match f x with Some y => Some y | None => go r end
    end.

(** The identities of the elements of a subtree, in tree order. *)
Fixpoint ids (n : Node) : list Ref :=
  match n with
  | Elem i _ _ ks => i :: flat_map ids ks
  | _ => []
  end.

(** The element a reference stands for. *)
Fixpoint find_elem (i : Ref) (n : Node) : option Node :=
  match n with
  | Elem j _ _ ks => if Nat.eqb i j then Some n else first_some (find_elem i) ks
  | _ => None
  end.

(** The child list that holds element [i], which is its parent's. *)
Fixpoint siblings_of (i : Ref) (n : Node) : option (list Node) :=
  match n with
  | Elem _ _ _ ks =>
      if existsb (has_id i) ks then Some ks else first_some (siblings_of i) ks
  | _ => None
  end.

(** The node just before, and just after, element [i] in a child list. *)
Fixpoint before_in (i : Ref) (prev : option Node) (ks : list Node) : option Node :=
  match ks with
  | [] => None
  | x :: r => if has_id i x then prev else before_in i (Some x) r
  end.


(** [i.previousSibling] and [i.nextSibling]; [None] is null. *)
Definition previousSibling (i : Ref) (root : Node) : option Node :=
  match siblings_of i root with
  | Some ks => before_in i None ks
  | None => None
  end.


(** Rewrite the attributes of element [i]. *)
Fixpoint update_attrs (i : Ref) (f : Attrs -> Attrs) (n : Node) : Node :=
  match n with
  | Elem j t a ks =>
      Elem j t (if Nat.eqb i j then f a else a) (map (update_attrs i f) ks)
  | _ => n
  end.

(** Rewrite the child list of element [i]. *)
Fixpoint update_kids (i : Ref) (f : list Node -> list Node) (n : Node) : Node :=
  match n with
  | Elem j t a ks =>
      let ks' := map (update_kids i f) ks in
      Elem j t a (if Nat.eqb i j then f ks' else ks')
  | _ => n
  end.

(** A child list with [new] put before each child that [here] holds of,
    the children themselves rewritten by [g]. *)
Definition put_before (here : Node -> bool) (new : Node) (g : Node -> Node)
  : list Node -> list Node :=
  flat_map (fun k => if here k then [new; g k] else [g k]).

(** [parent.insertBefore(new, i)] where [parent] is the parent of [i]. *)
Fixpoint insert_before (i : Ref) (new : Node) (n : Node) : Node :=
  match n with
  | Elem j t a ks =>
      Elem j t a (put_before (has_id i) new (insert_before i new) ks)
  | _ => n
  end.

(** [i.appendChild(new)] *)
Definition append_child (i : Ref) (new : Node) (n : Node) : Node :=
  update_kids i (fun ks => ks ++ [new]) n.

(** ** Selectors *)

Inductive Selector : Type :=
| ByTag (t : string)                  (* main, nav, img, h3 *)
| ByClass (c : string)                (* .portfolio-item *)
| ById (i : string)                   (* #about *)
| ByTagWithAttr (t : string) (a : string).   (* a[href] *)

Definition matches (s : Selector) (n : Node) : bool :=
  match n with
  | Elem _ t a _ =>
      match s with
      | ByTag t' => String.eqb t' t
      | ByClass c => Str.mem c (Attr.classes a)
      | ById i => match Attr.get "id" a with
                  | Some v => String.eqb i v
                  | None => false
                  end
      | ByTagWithAttr t' k => String.eqb t' t && Attr.has k a
      end
  | _ => false
  end.

(** The elements of a subtree that match, in tree order, its root first. *)
Fixpoint query (s : Selector) (n : Node) : list Ref :=
  match n with
  | Elem i _ _ ks =>
      (if matches s n then [i] else []) ++ flat_map (query s) ks
  | _ => []
  end.

(** ** The host *)

(** What the browser computes for the script.
    - [resolve_url v]: the value a URL attribute holding [v] reflects as
      ([a.href], [img.src]): the serialized URL when [v] parses against the
      document base, [v] itself otherwise.
    - [url_pathname s]: [new URL(s).pathname]; [None] when the constructor
      throws a TypeError, which it does on a string that is no absolute URL.
    - [loading_idl v]: what [img.loading] reads for the content attribute [v];
      the empty string stands for every falsy value.
    - [html_text m]: the text content of the nodes parsed from markup [m].
    - [sendBeacon_available]: [navigator.sendBeacon] is defined.
    - [location_origin]: [window.location.origin]. *)
Class Host : Type := {
  resolve_url : string -> string;
  url_pathname : string -> option string;
  loading_idl : option string -> string;
  html_text : string -> string;
  sendBeacon_available : bool;
  location_origin : string
}.

(** ** The page and the script's effects *)

(** The functions of the script, as entries of the call log. *)
Inductive Call : Type :=
| CallEnhanceSemanticStructure
| CallAddBotOnlyContent
| CallOptimizeMediaLoading
| CallGenerateDynamicSitemap
| CallSendIndexingSignals
| CallContentPrioritizer
| CallAddPriorityTags
| CallAnalyzeKeywordDensity
| CallGeneratePersonSchema
| CallGenerateBreadcrumbSchema
| CallGenerateFAQSchema.

(** The one listener the script registers. *)
Inductive Listener : Type := ReadyCallback.

Record Page : Type := mkPage {
  root : Node;                              (* document.documentElement *)
  title : string;                           (* document.title *)
  next_id : Ref;                            (* identity of the next object *)
  listeners : list (string * Listener);     (* registered event listeners *)
  beacons : list string;                    (* URLs handed to sendBeacon *)
  console : list (string * gmap string nat);  (* console.log output *)
  calls : list Call                         (* script functions entered *)
}.

Definition with_root (f : Node -> Node) (p : Page) : Page :=
  mkPage (f (root p)) (title p) (next_id p) (listeners p) (beacons p)
         (console p) (calls p).

Inductive Exn : Type := TypeError.

Inductive Outcome (A : Type) : Type :=
| Ret (a : A)
| Throw (e : Exn).
Arguments Ret {A} a.
Arguments Throw {A} e.

Definition JS (A : Type) : Type := Page -> Page * Outcome A.

Definition ret {A : Type} (a : A) : JS A := fun p => (p, Ret a).

Definition throw {A : Type} (e : Exn) : JS A := fun p => (p, Throw e).

Definition bind {A B : Type} (m : JS A) (k : A -> JS B) : JS B :=
  fun p =>
    match m p with
    | (p', Ret a) => k a p'
    | (p', Throw e) => (p', Throw e)
    end.

Notation "'let*' x := m 'in' k" := (bind m (fun x => k))
  (at level 10, x name, m at level 100, k at level 200, only parsing).
Notation "m ;; k" := (bind m (fun _ => k))
  (at level 100, k at level 200, right associativity, only parsing).

(** The page a computation leaves, and whether it returned. *)
Definition page_after {A : Type} (m : JS A) (p : Page) : Page := fst (m p).

Definition returns {A : Type} (m : JS A) (p : Page) : bool :=
  match snd (m p) with Ret _ => true | Throw _ => false end.

Definition throws {A : Type} (m : JS A) (p : Page) : bool :=
  negb (returns m p).

Definition read {A : Type} (f : Page -> A) : JS A := fun p => (p, Ret (f p)).

Definition modify (f : Page -> Page) : JS unit := fun p => (f p, Ret tt).

(** [Array.prototype.forEach]: a throw ends the loop. *)
Fixpoint forEach {A : Type} (l : list A) (f : A -> JS unit) : JS unit :=
  match l with
  | [] => ret tt
  | x :: r => f x ;; forEach r f
  end.

(** [Array.prototype.map] with a callback that may throw. *)
Fixpoint mapM {A B : Type} (f : A -> JS B) (l : list A) : JS (list B) :=
  match l with
  | [] => ret []
  | x :: r => let* y := f x in let* ys := mapM f r in ret (y :: ys)
  end.

(** Reading a member of a value that may be null. *)
Definition deref {A : Type} (o : option A) : JS A :=
  match o with
  | Some a => ret a
  | None => throw TypeError
  end.

Definition enter (c : Call) : JS unit :=
  modify (fun p => mkPage (root p) (title p) (next_id p) (listeners p)
                          (beacons p) (console p) (calls p ++ [c])).

(** *** The DOM interface, as the script uses it *)

Definition querySelector (s : Selector) : JS (option Ref) :=
  read (fun p => List.head (query s (root p))).

Definition querySelectorAll (s : Selector) : JS (list Ref) :=
  read (fun p => query s (root p)).

(** [e.querySelector(s)]: the descendants of [e], not [e] itself. *)
Definition querySelectorIn (e : Ref) (s : Selector) : JS (option Ref) :=
  read (fun p => match find_elem e (root p) with
                 | Some n => List.head (flat_map (query s) (node_kids n))
                 | None => None
                 end).

(** The attributes of element [e] as the page has them now. *)
Definition attrs_at (e : Ref) (p : Page) : Attrs :=
  match find_elem e (root p) with
  | Some n => node_attrs n
  | None => []
  end.

Definition attributes (e : Ref) : JS Attrs := read (attrs_at e).

Definition setAttribute (e : Ref) (k v : string) : JS unit :=
  modify (with_root (update_attrs e (Attr.set k v))).

Definition removeAttribute (e : Ref) (k : string) : JS unit :=
  modify (with_root (update_attrs e (Attr.remove k))).

Definition classList_add (e : Ref) (c : string) : JS unit :=
  modify (with_root (update_attrs e (Attr.class_add c))).

(** [document.createElement(t)]: a new element, not yet in the tree. *)
Definition createElement (t : string) : JS Node :=
  fun p => (mkPage (root p) (title p) (S (next_id p)) (listeners p)
                   (beacons p) (console p) (calls p),
            Ret (Elem (next_id p) t [] [])).

(** Assignments to members of an element that is not yet in the tree. *)
Definition set_attr (k v : string) (n : Node) : Node :=
  match n with Elem i t a ks => Elem i t (Attr.set k v a) ks | _ => n end.

Definition set_kids (ks : list Node) (n : Node) : Node :=
  match n with Elem i t a _ => Elem i t a ks | _ => n end.

Definition set_className (v : string) : Node -> Node := set_attr "class" v.
Definition set_cssText (v : string) : Node -> Node := set_attr "style" v.
Definition set_innerHTML (m : string) : Node -> Node := set_kids [Markup m].
Definition set_text (s : string) : Node -> Node := set_kids [Text s].
Definition add_child (c : Node) (n : Node) : Node :=
  set_kids (node_kids n ++ [c]) n.

Definition document_documentElement : JS (option Ref) :=
  read (fun p => match root p with Elem i _ _ _ => Some i | _ => None end).

Definition child_with_tag (t : string) (n : Node) : option Ref :=
  first_some (fun k => match k with
                       | Elem i t' _ _ => if String.eqb t t' then Some i else None
                       | _ => None
                       end) (node_kids n).

Definition document_head : JS (option Ref) :=
  read (fun p => child_with_tag "head" (root p)).

Definition document_body : JS (option Ref) :=
  read (fun p => child_with_tag "body" (root p)).

Definition document_title : JS string := read title.

Definition appendChild (parent : Ref) (c : Node) : JS unit :=
  modify (with_root (append_child parent c)).

Definition insertBefore_sibling (c : Node) (e : Ref) : JS unit :=
  modify (with_root (insert_before e c)).

(** ** Library functions of the language *)

(** [encodeURIComponent]: every byte but the unreserved ones is written as
    a percent sign and two upper-case hexadecimal digits. *)
Module URI.

Definition is_digit (c : ascii) : bool :=
  let n := nat_of_ascii c in Nat.leb 48 n && Nat.leb n 57.

Definition is_mark (c : ascii) : bool :=
  existsb (Ascii.eqb c)
          ["-"; "_"; "."; "!"; "~"; "*"; "'"; "("; ")"]%char.

Definition unreserved (c : ascii) : bool :=
  Str.is_upper c || Str.is_lower c || is_digit c || is_mark c.

Definition hex_digit (n : nat) : ascii :=
  nth n ["0"; "1"; "2"; "3"; "4"; "5"; "6"; "7"; "8"; "9";
         "A"; "B"; "C"; "D"; "E"; "F"]%char "0"%char.

Definition lower_hex (n : nat) : ascii :=
  nth n ["0"; "1"; "2"; "3"; "4"; "5"; "6"; "7"; "8"; "9";
         "a"; "b"; "c"; "d"; "e"; "f"]%char "0"%char.

Definition escape (c : ascii) : string :=
  let n := nat_of_ascii c in
  String "%" (String (hex_digit (n / 16))
                     (String (hex_digit (n mod 16)) EmptyString)).

Fixpoint encodeURIComponent (s : string) : string :=
  match s with
  | EmptyString => EmptyString
  | String c s' =>
      ((if unreserved c then String c EmptyString else escape c)
         ++ encodeURIComponent s')%string
  end.

Definition hex_value (c : ascii) : option nat :=
  let n := nat_of_ascii c in
  if Nat.leb 48 n && Nat.leb n 57 then Some (n - 48)
  else if Nat.leb 65 n && Nat.leb n 70 then Some (n - 55)
  else if Nat.leb 97 n && Nat.leb n 102 then Some (n - 87)
  else None.

(** [decodeURIComponent], byte by byte: the reader of what
    [encodeURIComponent] writes; [None] where it throws. *)
Fixpoint decodeURIComponent (s : string) : option string :=
  match s with
  | EmptyString => Some EmptyString
  | String c r =>
      if Nat.eqb (nat_of_ascii c) 37 then
        match r with
        | String h1 (String h2 r') =>
            match hex_value h1, hex_value h2 with
            | Some a, Some b =>
                option_map (String (ascii_of_nat (16 * a + b)))
                           (decodeURIComponent r')
            | _, _ => None
            end
        | _ => None
        end
      else option_map (String c) (decodeURIComponent r)
  end.

End URI.

(** A regular expression whose source holds letters and spaces only, built
    with the flags [gi]: the pattern is the sequence of its characters, and
    a character matches when both canonicalize to the same one. *)
Module RegExp.

Definition canonicalize (c : ascii) : ascii := Str.upper c.

(** The match of [pat] that starts at the first character of [s]. *)
Fixpoint match_here (pat s : string) : option string :=
  match pat with
  | EmptyString => Some EmptyString
  | String pc pat' =>
      match s with
      | EmptyString => None
      | String c s' =>
          if Ascii.eqb (canonicalize pc) (canonicalize c)
          then option_map (String c) (match_here pat' s')
          else None
      end
  end.

(** The matches from the current position on, which is [skip] characters
    into [s]: after a match the search resumes where the match ended (one
    character further after an empty match). *)
Fixpoint scan (pat : string) (skip : nat) (s : string) : list string :=
  match s with
  | EmptyString =>
      match skip, match_here pat EmptyString with
      | 0, Some m => [m]
      | _, _ => []
      end
  | String _ s' =>
      match skip with
      | S k => scan pat k s'
      | 0 =>
          match match_here pat s with
          | Some m => m :: scan pat (String.length m - 1) s'
          | None => scan pat 0 s'
          end
      end
  end.

(** [s.match(new RegExp(pat, 'gi'))]: every match, or null when none. *)
Definition match_global (pat s : string) : option (list string) :=
  match scan pat 0 s with
  | [] => None
  | l => Some l
  end.

End RegExp.

(** The values [JSON.stringify] is applied to. *)
Module JSON.

#[warnings="-register-all"]
Inductive value : Type :=
| Str (s : string)
| Num (n : nat)
| Arr (items : list value)
| Obj (fields : list (string * value)).

Definition escape_char (c : ascii) : string :=
  let n := nat_of_ascii c in
  if Nat.eqb n 34 then String "\" Str.dquote
  else if Nat.eqb n 92 then "\\"
  else if Nat.eqb n 8 then "\b"
  else if Nat.eqb n 9 then "\t"
  else if Nat.eqb n 10 then "\n"
  else if Nat.eqb n 12 then "\f"
  else if Nat.eqb n 13 then "\r"
  else if Nat.ltb n 32 then
    "\u00" ++ String (URI.lower_hex (n / 16))
                     (String (URI.lower_hex (n mod 16)) EmptyString)
  else String c EmptyString.

Fixpoint escape (s : string) : string :=
  match s with
  | EmptyString => EmptyString
  | String c s' => escape_char c ++ escape s'
  end.

Definition quote (s : string) : string :=
  Str.dquote ++ escape s ++ Str.dquote.

Definition digits (n : nat) : string :=
  DecimalString.NilZero.string_of_uint (Nat.to_uint n).

Fixpoint stringify (v : value) : string :=
  match v with
  | Str s => quote s
  | Num n => digits n
  | Arr items => "[" ++ Str.join "," (map stringify items) ++ "]"
  | Obj fields =>
      "{" ++ Str.join ","
               (map (fun kv =>
                       (quote (fst kv) ++ ":" ++ stringify (snd kv))%string)
                    fields)
          ++ "}"
  end.

(** [v[k]] on an object. *)
Definition field (k : string) (v : value) : option value :=
  match v with
  | Obj fields =>
      first_some (fun kv => if String.eqb k (fst kv) then Some (snd kv)
                            else None) fields
  | _ => None
  end.

End JSON.

Section Script.

Context {host : Host}.

(** [n.textContent] *)
Fixpoint text_content (n : Node) : string :=
  match n with
  | Elem _ _ _ ks => String.concat EmptyString (map text_content ks)
  | Text s => s
  | Markup m => html_text m
  end.

Definition textContent (e : Ref) : JS string :=
  read (fun p => match find_elem e (root p) with
                 | Some n => text_content n
                 | None => EmptyString
                 end).

(** A string in a condition: only the empty string is falsy. *)
Definition truthy (s : string) : bool := Str.nonempty s.

(** The reflected members of an element the script reads. *)
Definition href_of (a : Attrs) : string :=
  match Attr.get "href" a with
  | Some v => resolve_url v
  | None => EmptyString
  end.

Definition src_of (a : Attrs) : string :=
  match Attr.get "src" a with
  | Some v => resolve_url v
  | None => EmptyString
  end.

Definition alt_of (a : Attrs) : string := Attr.reflect "alt" a.

Definition loading_of (a : Attrs) : string :=
  loading_idl (Attr.get "loading" a).

(** [navigator.sendBeacon(url)] *)
Definition sendBeacon (url : string) : JS unit :=
  modify (fun p => mkPage (root p) (title p) (next_id p) (listeners p)
                          (beacons p ++ [url]) (console p) (calls p)).

Definition console_log (label : string) (v : gmap string nat) : JS unit :=
  modify (fun p => mkPage (root p) (title p) (next_id p) (listeners p)
                          (beacons p) (console p ++ [(label, v)]) (calls p)).

Definition addEventListener (ev : string) (l : Listener) : JS unit :=
  modify (fun p => mkPage (root p) (title p) (next_id p)
                          (listeners p ++ [(ev, l)])
                          (beacons p) (console p) (calls p)).

(** *** Core functions *)

(** The callback of the loop of [enhanceSemanticStructure]. *)
Definition annotate_item (item : Ref) : JS unit :=
  setAttribute item "itemscope" EmptyString ;;
  setAttribute item "itemtype" "https://schema.org/CreativeWork" ;;
  let* h3 := querySelectorIn item (ByTag "h3") in
  let* h3 := deref h3 in
  let* text := textContent h3 in
  setAttribute item "aria-label" ("Portfolio project: " ++ text).

Definition enhanceSemanticStructure : JS unit :=
  enter CallEnhanceSemanticStructure ;;
  let* main := querySelector (ByTag "main") in
  let* main := deref main in
  setAttribute main "role" "main" ;;
  let* nav := querySelector (ByTag "nav") in
  let* nav := deref nav in
  setAttribute nav "itemscope" EmptyString ;;
  let* nav := querySelector (ByTag "nav") in
  let* nav := deref nav in
  setAttribute nav "itemtype" "https://schema.org/SiteNavigationElement" ;;
  let* items := querySelectorAll (ByClass "portfolio-item") in
  forEach items annotate_item.

Definition botContent_style : string :=
  "position:absolute;left:-9999px;top:-9999px;height:1px;width:1px;overflow:hidden;".

Definition botContent_markup (page_title : string) : string :=
  "
        <h2>Mansoor Ahmad SEO Services</h2>
        <p>Professional SEO services including:</p>
        <ul>
            <li>Keyword research for " ++ Str.dquote ++ page_title ++ Str.dquote ++ "</li>
            <li>On-page optimization techniques</li>
            <li>Technical SEO audits</li>
            <li>Off-page link building strategies</li>
            <li>Local SEO for Pakistani businesses</li>
        </ul>
        <p>Contact Mansoor Ahmad for top-ranking SEO solutions in Pakistan.</p>
    ".

Definition addBotOnlyContent : JS unit :=
  enter CallAddBotOnlyContent ;;
  let* botContent := createElement "div" in
  let botContent := set_className "bot-only-content" botContent in
  let botContent := set_cssText botContent_style botContent in
  let* page_title := document_title in
  let botContent := set_innerHTML (botContent_markup page_title) botContent in
  let* body := document_body in
  let* body := deref body in
  appendChild body botContent.

(** The callback of the loop of [optimizeMediaLoading]. *)
Definition optimize_image (img : Ref) : JS unit :=
  let* a := attributes img in
  if negb (truthy (loading_of a)) then
    let originalSrc := src_of a in
    setAttribute img "data-src" originalSrc ;;
    removeAttribute img "src" ;;
    classList_add img "lazyload" ;;
    let* noscript := createElement "noscript" in
    let* fallbackImg := createElement "img" in
    let fallbackImg := set_attr "src" originalSrc fallbackImg in
    let* a := attributes img in
    let alt := alt_of a in
    let fallbackImg :=
      set_attr "alt" (if truthy alt then alt else "Portfolio image")
               fallbackImg in
    let noscript := add_child fallbackImg noscript in
    insertBefore_sibling noscript img
  else ret tt.

Definition optimizeMediaLoading : JS unit :=
  enter CallOptimizeMediaLoading ;;
  let* imgs := querySelectorAll (ByTag "img") in
  forEach imgs optimize_image.

Definition sitemap_style : string :=
  "position:absolute;left:-9999px;width:1px;height:1px;overflow:hidden;".

(** [new URL(link).pathname] *)
Definition new_URL_pathname (link : string) : JS string :=
  deref (url_pathname link).

Definition sitemap_entry (link path : string) : string :=
  "<li><a href=" ++ Str.dquote ++ link ++ Str.dquote ++ ">" ++ path
    ++ "</a></li>".

Definition sitemap_markup (entries : list string) : string :=
  "
        <h2>Website Structure</h2>
        <ul>
            " ++ Str.join EmptyString entries ++ "
        </ul>
    ".

(** The [href] of every anchor that has the attribute, in tree order. *)
Definition anchor_hrefs (p : Page) : list string :=
  map (fun a => href_of (attrs_at a p))
      (query (ByTagWithAttr "a" "href") (root p)).

Definition generateDynamicSitemap : JS unit :=
  enter CallGenerateDynamicSitemap ;;
  let* anchors := querySelectorAll (ByTagWithAttr "a" "href") in
  let* links := mapM (fun a => let* at_ := attributes a in ret (href_of at_))
                     anchors in
  let uniqueLinks := Str.ordered_set links in
  let* sitemap := createElement "div" in
  let sitemap := set_className "hidden-sitemap" sitemap in
  let sitemap := set_cssText sitemap_style sitemap in
  let* entries := mapM (fun link =>
                          let* path := new_URL_pathname link in
                          ret (sitemap_entry link path))
                       uniqueLinks in
  let sitemap := set_innerHTML (sitemap_markup entries) sitemap in
  let* body := document_body in
  let* body := deref body in
  appendChild body sitemap.

Definition sendIndexingSignals : JS unit :=
  enter CallSendIndexingSignals ;;
  (if sendBeacon_available then
     let pingUrl :=
       ("https://www.google.com/ping?sitemap="
          ++ URI.encodeURIComponent (location_origin ++ "/sitemap.xml"))%string in
     sendBeacon pingUrl
   else ret tt) ;;
  let* html := document_documentElement in
  let* html := deref html in
  setAttribute html "data-seo-enhanced" "true".

(** *** Advanced features *)

Record ContentPrioritizer : Type := { importantSections : list Selector }.

(** The callback of the loop of [addPriorityTags]. *)
Definition tag_section (selector : Selector) : JS unit :=
  let* section := querySelector selector in
  match section with
  | Some section =>
      setAttribute section "data-seo-priority" "high" ;;
      setAttribute section "aria-live" "polite"
  | None => ret tt
  end.

Definition addPriorityTags (this : ContentPrioritizer) : JS unit :=
  enter CallAddPriorityTags ;;
  forEach (importantSections this) tag_section.

(** [new ContentPrioritizer()] *)
Definition new_ContentPrioritizer : JS ContentPrioritizer :=
  enter CallContentPrioritizer ;;
  let this := {| importantSections :=
                   [ById "about"; ById "portfolio"; ById "services";
                    ById "testimonials"] |} in
  addPriorityTags this ;;
  ret this.

Definition keywords : list string :=
  ["mansoor ahmad"; "seo specialist"; "portfolio"; "keyword research";
   "technical seo"; "pakistan seo expert"].

(** The report for a text that is already in lower case. *)
Definition density_of (content : string) : gmap string nat :=
  fold_left
    (fun densityReport keyword =>
       let matches := RegExp.match_global keyword content in
       <[keyword := match matches with
                    | Some l => List.length l
                    | None => 0
                    end]> densityReport)
    keywords ∅.

Definition analyzeKeywordDensity : JS (gmap string nat) :=
  enter CallAnalyzeKeywordDensity ;;
  let* body := document_body in
  let* body := deref body in
  let* text := textContent body in
  let content := Str.toLowerCase text in
  ret (density_of content).

(** *** Structured data *)

Definition person_schema : JSON.value :=
  JSON.Obj
    [("@context", JSON.Str "https://schema.org");
     ("@type", JSON.Str "Person");
     ("name", JSON.Str "Mansoor Ahmad");
     ("image", JSON.Str "https://yourportfolio.com/images/photo.jpg");
     ("jobTitle", JSON.Str "SEO Specialist");
     ("description",
      JSON.Str "I help businesses rank higher on Google with proven SEO strategies.");
     ("url", JSON.Str "https://yourportfolio.com");
     ("sameAs",
      JSON.Arr [JSON.Str "https://linkedin.com/in/yourprofile";
                JSON.Str "https://github.com/yourusername"]);
     ("address",
      JSON.Obj [("@type", JSON.Str "PostalAddress");
                ("addressLocality", JSON.Str "Lahore");
                ("addressRegion", JSON.Str "Punjab");
                ("addressCountry", JSON.Str "Pakistan")])].

(** [l.map((item, index) => f item index)] *)
Fixpoint map_indexed {A B : Type} (f : A -> nat -> B) (index : nat)
         (l : list A) : list B :=
  match l with
  | [] => []
  | x :: r => f x index :: map_indexed f (S index) r
  end.

Definition breadcrumbs : list (string * string) :=
  [("Home", "https://yourportfolio.com/");
   ("Portfolio", "https://yourportfolio.com/portfolio");
   ("SEO Services", "https://yourportfolio.com/seo")].

Definition breadcrumb_schema : JSON.value :=
  JSON.Obj
    [("@context", JSON.Str "https://schema.org");
     ("@type", JSON.Str "BreadcrumbList");
     ("itemListElement",
      JSON.Arr
        (map_indexed
           (fun item index =>
              JSON.Obj [("@type", JSON.Str "ListItem");
                        ("position", JSON.Num (index + 1));
                        ("name", JSON.Str (fst item));
                        ("item", JSON.Str (snd item))])
           0 breadcrumbs))].

Definition faqs : list (string * string) :=
  [("What SEO services do you offer?",
    "I provide keyword research, on-page SEO, technical SEO, and link building.");
   ("How long does SEO take to show results?",
    "Typically 3-6 months for noticeable improvements.")].

Definition faq_schema : JSON.value :=
  JSON.Obj
    [("@context", JSON.Str "https://schema.org");
     ("@type", JSON.Str "FAQPage");
     ("mainEntity",
      JSON.Arr
        (map (fun faq =>
                JSON.Obj [("@type", JSON.Str "Question");
                          ("name", JSON.Str (fst faq));
                          ("acceptedAnswer",
                           JSON.Obj [("@type", JSON.Str "Answer");
                                     ("text", JSON.Str (snd faq))])])
             faqs))].

(** The tail the three generators share: a script element of type
    [application/ld+json] holding the serialized record goes last in the
    head. *)
Definition emit_schema (schema : JSON.value) : JS unit :=
  let* script := createElement "script" in
  let script := set_attr "type" "application/ld+json" script in
  let script := set_text (JSON.stringify schema) script in
  let* head := document_head in
  let* head := deref head in
  appendChild head script.

Definition generatePersonSchema : JS unit :=
  enter CallGeneratePersonSchema ;; emit_schema person_schema.

Definition generateBreadcrumbSchema : JS unit :=
  enter CallGenerateBreadcrumbSchema ;; emit_schema breadcrumb_schema.

Definition generateFAQSchema : JS unit :=
  enter CallGenerateFAQSchema ;; emit_schema faq_schema.

(** *** The script as the page runs it *)

(** The function registered for [DOMContentLoaded]. *)
Definition ready_callback : JS unit :=
  enhanceSemanticStructure ;;
  addBotOnlyContent ;;
  optimizeMediaLoading ;;
  generateDynamicSitemap ;;
  sendIndexingSignals.

Definition listener_body (l : Listener) : JS unit :=
  match l with ReadyCallback => ready_callback end.

(** The statements of the file, top to bottom. *)
Definition script : JS unit :=
  addEventListener "DOMContentLoaded" ReadyCallback ;;
  let* _ := new_ContentPrioritizer in
  let* keywordReport := analyzeKeywordDensity in
  console_log "Keyword Density Report:" keywordReport ;;
  generatePersonSchema ;;
  generateBreadcrumbSchema ;;
  generateFAQSchema.

(** The host fires an event: every listener registered for it runs; what
    a listener throws is reported by the host and ends that listener only. *)
Definition dispatch (ev : string) (p : Page) : Page :=
  fold_left (fun q l => if String.eqb ev (fst l)
                        then page_after (listener_body (snd l)) q
                        else q)
            (listeners p) p.

(** Loading the page: the script runs, then the ready signal fires. *)
Definition page_load (p : Page) : Page :=
  dispatch "DOMContentLoaded" (page_after script p).

End Script.

(** ** Pages and what the claims observe on them *)

Fixpoint distinct (l : list Ref) : bool :=
  match l with
  | [] => true
  | x :: r => negb (existsb (Nat.eqb x) r) && distinct r
  end.

Definition is_some {A : Type} (o : option A) : bool :=
  match o with Some _ => true | None => false end.

(** A page as the host hands it to the script: an [html] root with a head
    and a body, every element object a different one, and none of them the
    object that is created next. *)
Definition well_formed (p : Page) : bool :=
  has_tag "html" (root p)
  && is_some (child_with_tag "head" (root p))
  && is_some (child_with_tag "body" (root p))
  && distinct (ids (root p))
  && forallb (fun i => Nat.ltb i (next_id p)) (ids (root p)).

(** The attributes of element [i], when the page has it. *)
Definition element_attrs (i : Ref) (p : Page) : option Attrs :=
  option_map node_attrs (find_elem i (root p)).

(** The children of element [i]. *)
Definition element_kids (i : Ref) (p : Page) : list Node :=
  match find_elem i (root p) with
  | Some n => node_kids n
  | None => []
  end.


(** Which node a node is: an element is its object; text is its content. *)
Inductive Key : Type :=
| KElem (i : Ref)
| KText (s : string)
| KMarkup (m : string).

Definition node_key (n : Node) : Key :=
  match n with
  | Elem i _ _ _ => KElem i
  | Text s => KText s
  | Markup m => KMarkup m
  end.

(** ** Notions the statements are written with *)

Record WellFormed (p : Page) : Prop := {
  wf_html : has_tag "html" (root p) = true;
  wf_head : child_with_tag "head" (root p) <> None;
  wf_body : child_with_tag "body" (root p) <> None;
  wf_distinct : NoDup (ids (root p));
  wf_allocated : forall i, In i (ids (root p)) -> i < next_id p
}.

(** The elements of a subtree, in tree order. *)
Fixpoint elements (n : Node) : list Node :=
  match n with
  | Elem _ _ _ ks => n :: flat_map elements ks
  | _ => []
  end.



(** A list with every value kept where it first occurs and dropped where
    it occurs again. *)
Fixpoint first_occurrences (l : list string) : list string :=
  match l with
  | [] => []
  | x :: r => x :: List.filter (fun y => negb (String.eqb y x)) (first_occurrences r)
  end.

(** How many different values a list holds. *)
Definition distinct_count (l : list string) : nat :=
  List.length (nodup string_dec l).

(** The same letter in any case, or the same character. *)
Definition same_letter (a b : ascii) : bool :=
  Ascii.eqb (Str.upper a) (Str.upper b).

(** [kw] stands at the start of [s], in any letter case. *)
Fixpoint starts_with_ci (kw s : string) : bool :=
  match kw with
  | EmptyString => true
  | String k kw' =>
      match s with
      | EmptyString => false
      | String c s' => same_letter k c && starts_with_ci kw' s'
      end
  end.

(** The number of places of [s] at which [kw] stands, in any letter case. *)
Fixpoint occurrences (kw s : string) : nat :=
  (if starts_with_ci kw s then 1 else 0)
  + match s with
    | EmptyString => 0
    | String _ s' => occurrences kw s'
    end.



(** A computation that enters no function of the script. *)
Definition keeps_calls {A : Type} (m : JS A) : Prop :=
  forall p, calls (fst (m p)) = calls p.

(** A function of the script: its entry is logged, once. *)
Definition logs (c : Call) (m : JS unit) : Prop :=
  forall p, calls (fst (m p)) = calls p ++ [c].

(** The tree without its attributes: which nodes there are, and where. *)
Fixpoint shape (n : Node) : Node :=
  match n with
  | Elem i t _ ks => Elem i t [] (map shape ks)
  | _ => n
  end.

(** Whether selector [s] looks at the attribute named [k]. *)
Definition sel_reads (s : Selector) (k : string) : bool :=
  match s with
  | ByTag _ => false
  | ByClass _ => String.eqb "class" k
  | ById _ => String.eqb "id" k
  | ByTagWithAttr _ a => String.eqb a k
  end.

(** [item.querySelector('h3')] on the page as it is. *)
Definition heading_of (item : Ref) (p : Page) : option Ref :=
  match find_elem item (root p) with
  | Some n => List.head (flat_map (query (ByTag "h3")) (node_kids n))
  | None => None
  end.

(** The two attributes the loop of [enhanceSemanticStructure] sets on an
    entry before it looks for the heading. *)
Definition scoped_attrs (a : Attrs) : Attrs :=
  Attr.set "itemtype" "https://schema.org/CreativeWork"
    (Attr.set "itemscope" EmptyString a).

(** The three attributes it sets on an entry that has a heading. *)
Definition item_attrs (label : string) (a : Attrs) : Attrs :=
  Attr.set "aria-label" label (scoped_attrs a).

(** The two attributes it sets on the navigation. *)
Definition nav_attrs (a : Attrs) : Attrs :=
  Attr.set "itemtype" "https://schema.org/SiteNavigationElement"
    (Attr.set "itemscope" EmptyString a).

(** The attribute names [enhanceSemanticStructure] writes. *)
Definition annotation_names : list string :=
  ["role"; "itemscope"; "itemtype"; "aria-label"].

(** The selectors of [importantSections]. *)
Definition section_selectors : list Selector :=
  [ById "about"; ById "portfolio"; ById "services"; ById "testimonials"].

(** What [document.querySelector] answers for each of them, where it
    answers an element. *)
Definition first_matches (sels : list Selector) (r : Node) : list Ref :=
  flat_map (fun s => match List.head (query s r) with
                     | Some j => [j]
                     | None => []
                     end) sels.

(** A string that holds no start of a tag: as markup it is text. *)
Definition plain_text (s : string) : bool :=
  negb (existsb (Ascii.eqb "<"%char) (list_ascii_of_string s)).

(** A character that [encodeURIComponent] writes: an unreserved one, or the
    percent sign of an escape. *)
Definition written_char (c : ascii) : bool :=
  URI.unreserved c || Ascii.eqb c "%"%char.

(** The attributes after the assignments of [s], made in order. *)
Definition set_all (s : list (string * string)) (a : Attrs) : Attrs :=
  fold_left (fun a kv => Attr.set (fst kv) (snd kv) a) s a.

(** The value [s] leaves under the name [k], [o] being the value before. *)
Definition assigned (k : string) (s : list (string * string)) (o : option string)
  : option string :=
  fold_left (fun o kv => if String.eqb k (fst kv) then Some (snd kv) else o) s o.

(** The tree with the attributes of every element [x] rewritten by [g x]. *)
Fixpoint rewrite_attrs (g : Ref -> Attrs -> Attrs) (n : Node) : Node :=
  match n with
  | Elem i t a ks => Elem i t (g i a) (map (rewrite_attrs g) ks)
  | _ => n
  end.

(** A reader of JSON texts, for the values of [JSON.value]: strings with
    their escapes, natural numbers, arrays and objects, with no blanks
    between tokens.  It tells whether a text is well formed and which value
    it stands for. *)
Module JSONText.

Definition code (c : ascii) : nat := nat_of_ascii c.

Definition hex_value (c : ascii) : option nat :=
  let n := code c in
  if Nat.leb 48 n && Nat.leb n 57 then Some (n - 48)
  else if Nat.leb 97 n && Nat.leb n 102 then Some (n - 87)
  else if Nat.leb 65 n && Nat.leb n 70 then Some (n - 55)
  else None.

Definition unescape (c : ascii) : option ascii :=
  let n := code c in
  if Nat.eqb n 34 then Some c
  else if Nat.eqb n 92 then Some c
  else if Nat.eqb n 47 then Some c
  else if Nat.eqb n 98 then Some (ascii_of_nat 8)
  else if Nat.eqb n 102 then Some (ascii_of_nat 12)
  else if Nat.eqb n 110 then Some (ascii_of_nat 10)
  else if Nat.eqb n 114 then Some (ascii_of_nat 13)
  else if Nat.eqb n 116 then Some (ascii_of_nat 9)
  else None.

(** The characters of a string up to its closing quote. *)
Fixpoint read_string (s : list ascii) : option (string * list ascii) :=
  match s with
  | [] => None
  | c :: r =>
      if Nat.eqb (code c) 34 then Some (EmptyString, r)
      else if Nat.eqb (code c) 92 then
        match r with
        | e :: r' =>
            if Nat.eqb (code e) 117 then
              match r' with
              | h1 :: h2 :: h3 :: h4 :: r'' =>
                  match hex_value h1, hex_value h2, hex_value h3, hex_value h4 with
                  | Some 0, Some 0, Some a, Some b =>
                      match read_string r'' with
                      | Some (t, rest) =>
                          Some (String (ascii_of_nat (16 * a + b)) t, rest)
                      | None => None
                      end
                  | _, _, _, _ => None
                  end
              | _ => None
              end
            else
              match unescape e, read_string r' with
              | Some u, Some (t, rest) => Some (String u t, rest)
              | _, _ => None
              end
        | [] => None
        end
      else if Nat.ltb (code c) 32 then None
      else match read_string r with
           | Some (t, rest) => Some (String c t, rest)
           | None => None
           end
  end.

Definition is_digit (c : ascii) : bool := Nat.leb 48 (code c) && Nat.leb (code c) 57.

(** The digits of a number, its value so far in [acc]. *)
Fixpoint read_digits (acc : nat) (s : list ascii) : nat * list ascii :=
  match s with
  | c :: r => if is_digit c then read_digits (10 * acc + (code c - 48)) r
              else (acc, s)
  | [] => (acc, [])
  end.

Definition read_number (s : list ascii) : option (nat * list ascii) :=
  match s with
  | c :: r =>
      if Nat.eqb (code c) 48 then
        match r with
        | d :: _ => if is_digit d then None else Some (0, r)
        | [] => Some (0, r)
        end
      else if is_digit c then Some (read_digits 0 s)
      else None
  | [] => None
  end.

Definition starts_with (n : nat) (s : list ascii) : bool :=
  match s with c :: _ => Nat.eqb (code c) n | [] => false end.

(** A value, the items of an array after its bracket, the members of an
    object after its brace; [fuel] bounds the nesting and the number of
    items. *)
Fixpoint read_value (fuel : nat) (s : list ascii)
  : option (JSON.value * list ascii) :=
  match fuel with
  | 0 => None
  | S fuel' =>
      match s with
      | [] => None
      | c :: r =>
          if Nat.eqb (code c) 34 then
            match read_string r with
            | Some (t, rest) => Some (JSON.Str t, rest)
            | None => None
            end
          else if Nat.eqb (code c) 91 then
            if starts_with 93 r then Some (JSON.Arr [], List.tl r)
            else match read_items fuel' r with
                 | Some (vs, rest) => Some (JSON.Arr vs, rest)
                 | None => None
                 end
          else if Nat.eqb (code c) 123 then
            if starts_with 125 r then Some (JSON.Obj [], List.tl r)
            else match read_members fuel' r with
                 | Some (ms, rest) => Some (JSON.Obj ms, rest)
                 | None => None
                 end
          else match read_number s with
               | Some (n, rest) => Some (JSON.Num n, rest)
               | None => None
               end
      end
  end
with read_items (fuel : nat) (s : list ascii)
  : option (list JSON.value * list ascii) :=
  match fuel with
  | 0 => None
  | S fuel' =>
      match read_value fuel' s with
      | Some (v, c :: rest) =>
          if Nat.eqb (code c) 93 then Some ([v], rest)
          else if Nat.eqb (code c) 44 then
            match read_items fuel' rest with
            | Some (vs, rest') => Some (v :: vs, rest')
            | None => None
            end
          else None
      | _ => None
      end
  end
with read_members (fuel : nat) (s : list ascii)
  : option (list (string * JSON.value) * list ascii) :=
  match fuel with
  | 0 => None
  | S fuel' =>
      match s with
      | q :: r =>
          if Nat.eqb (code q) 34 then
            match read_string r with
            | Some (k, colon :: r') =>
                if Nat.eqb (code colon) 58 then
                  match read_value fuel' r' with
                  | Some (v, c :: rest) =>
                      if Nat.eqb (code c) 125 then Some ([(k, v)], rest)
                      else if Nat.eqb (code c) 44 then
                        match read_members fuel' rest with
                        | Some (ms, rest') => Some ((k, v) :: ms, rest')
                        | None => None
                        end
                      else None
                  | _ => None
                  end
                else None
            | _ => None
            end
          else None
      | [] => None
      end
  end.

(** The value a text stands for; [None] when it is not well formed. *)
Definition parse (s : string) : option JSON.value :=
  match read_value (S (String.length s)) (list_ascii_of_string s) with
  | Some (v, []) => Some v
  | _ => None
  end.

End JSONText.

Section Observations.

Context {host : Host}.

(** What the loop leaves of the attributes of an image it rewrites. *)
Definition lazy_attrs (originalSrc : string) (a : Attrs) : Attrs :=
  Attr.class_add "lazyload"
    (Attr.remove "src" (Attr.set "data-src" originalSrc a)).

Definition alt_or_default (a : Attrs) : string :=
  if truthy (alt_of a) then alt_of a else "Portfolio image".

(** The fallback it builds for an image with attributes [a]. *)
Definition fallback (n0 : Ref) (a : Attrs) : Node :=
  Elem n0 "noscript" []
       [Elem (S n0) "img" [("src", src_of a); ("alt", alt_or_default a)] []].

Definition optimize_step (p : Page) (img : Ref) : Page :=
  page_after (optimize_image img) p.



(** The block [addBotOnlyContent] builds, as object [n], for a page
    titled [t]. *)
Definition bot_block (n : Ref) (t : string) : Node :=
  Elem n "div" [("class", "bot-only-content"); ("style", botContent_style)]
       [Markup (botContent_markup t)].

(** The block [generateDynamicSitemap] builds around its entries. *)
Definition sitemap_block (n : Ref) (entries : list string) : Node :=
  Elem n "div" [("class", "hidden-sitemap"); ("style", sitemap_style)]
       [Markup (sitemap_markup entries)].

(** The entries of the sitemap for a list of links, when every link
    parses as a URL. *)
Fixpoint render_entries (links : list string) : option (list string) :=
  match links with
  | [] => Some []
  | link :: r =>
      match url_pathname link with
      | Some path => option_map (cons (sitemap_entry link path)) (render_entries r)
      | None => None
      end
  end.

(** The script element a generator builds, as object [n]. *)
Definition schema_block (n : Ref) (schema : JSON.value) : Node :=
  Elem n "script" [("type", "application/ld+json")]
       [Text (JSON.stringify schema)].

Definition set_priority (a : Attrs) : Attrs :=
  Attr.set "aria-live" "polite" (Attr.set "data-seo-priority" "high" a).

Definition tag_step (q : Page) (selector : Selector) : Page :=
  page_after (tag_section selector) q.

(** A page with more calls in its log. *)
Definition logged (p : Page) (cs : list Call) : Page :=
  mkPage (root p) (title p) (next_id p) (listeners p) (beacons p) (console p)
         (calls p ++ cs).

(** What the priority tagging leaves untouched. *)
Record Retagged (p q : Page) (h : Ref) : Prop := {
  rt_wf : WellFormed q;
  rt_title : title q = title p;
  rt_next : next_id q = next_id p;
  rt_listeners : listeners q = listeners p;
  rt_beacons : beacons q = beacons p;
  rt_console : console q = console p;
  rt_calls : calls q = calls p;
  rt_head : child_with_tag "head" (root q) = Some h;
  rt_kids : map node_key (element_kids h q) = map node_key (element_kids h p)
}.

(** The text of element [e] as the page has it now. *)
Definition text_at (e : Ref) (p : Page) : string :=
  match find_elem e (root p) with
  | Some n => text_content n
  | None => EmptyString
  end.

(** The functions the ready callback enters, in the order of its
    statements. *)
Definition ready_calls : list Call :=
  [CallEnhanceSemanticStructure; CallAddBotOnlyContent; CallOptimizeMediaLoading;
   CallGenerateDynamicSitemap; CallSendIndexingSignals].

(** The functions the statements of the file enter, in their order. *)
Definition top_level_calls : list Call :=
  [CallContentPrioritizer; CallAddPriorityTags; CallAnalyzeKeywordDensity;
   CallGeneratePersonSchema; CallGenerateBreadcrumbSchema; CallGenerateFAQSchema].


(** The URL the beacon is sent to. *)
Definition ping_url : string :=
  "https://www.google.com/ping?sitemap="
    ++ URI.encodeURIComponent (location_origin ++ "/sitemap.xml").

(** The head [h] holds a script element of type [application/ld+json]
    whose text is [json]. *)
Definition schema_in_head (json : string) (h : Ref) (q : Page) : Prop :=
  exists n a,
    In (Elem n "script" a [Text json]) (element_kids h q)
    /\ Attr.get "type" a = Some "application/ld+json".

(** What holds of the page from the end of the script on. *)
Record Emitted (h : Ref) (jsons : list string) (q : Page) : Prop := {
  em_wf : WellFormed q;
  em_head : child_with_tag "head" (root q) = Some h;
  em_blocks : Forall (fun json => schema_in_head json h q) jsons
}.

Definition preserves {A : Type} (I : Page -> Prop) (m : JS A) : Prop :=
  forall p, I p -> I (fst (m p)).

(** The label of an entry: the text of its first heading after the
    fixed prefix. *)
Definition item_label (item : Ref) (p : Page) : string :=
  "Portfolio project: "
    ++ match heading_of item p with
       | Some h => text_at h p
       | None => EmptyString
       end.

(** The page has what [enhanceSemanticStructure] dereferences: a [main],
    a [nav], and a heading in every portfolio entry. *)
Definition annotatable (p : Page) : bool :=
  is_some (List.head (query (ByTag "main") (root p)))
  && is_some (List.head (query (ByTag "nav") (root p)))
  && forallb (fun item => is_some (heading_of item p))
             (query (ByClass "portfolio-item") (root p)).

(** One turn of the loop that completes. *)
Definition annotate_step (p : Page) (q : Page) (item : Ref) : Page :=
  with_root (update_attrs item (item_attrs (item_label item p))) q.

(** The page before the loop. *)
Definition annotated_landmarks (p : Page) (m n : Ref) : Page :=
  with_root (update_attrs n nav_attrs)
    (with_root (update_attrs m (Attr.set "role" "main"))
       (logged p [CallEnhanceSemanticStructure])).

(** The page [q] has the nodes of [p] where [p] has them, and the
    attributes of [p] under every name but the four of the annotation. *)
Definition annotation_frame (p q : Page) : Prop :=
  shape (root q) = shape (root p)
  /\ forall x k, Str.mem k annotation_names = false ->
                 Attr.get k (attrs_at x q) = Attr.get k (attrs_at x p).

(** The sections [addPriorityTags] tags. *)
Definition priority_targets (p : Page) : list Ref :=
  first_matches section_selectors (root p).

(** The tree with the two attributes set on each element of [l]. *)
Definition retag (l : list Ref) (r : Node) : Node :=
  fold_left (fun r j => update_attrs j set_priority r) l r.

(** Selectors that do not look at the two attributes of the tagging. *)
Definition plain_sections (sels : list Selector) : Prop :=
  forall s, In s sels ->
            sel_reads s "data-seo-priority" = false /\ sel_reads s "aria-live" = false.

(** The page the statements of the file leave, for a page with head [h]
    and body [b]. *)
Definition after_script (p : Page) (h b : Ref) : Page :=
  mkPage (append_child h (schema_block (S (S (next_id p))) faq_schema)
            (append_child h (schema_block (S (next_id p)) breadcrumb_schema)
               (append_child h (schema_block (next_id p) person_schema)
                  (retag (priority_targets p) (root p)))))
         (title p) (S (S (S (next_id p))))
         (listeners p ++ [("DOMContentLoaded", ReadyCallback)])
         (beacons p)
         (console p ++ [("Keyword Density Report:",
                         density_of (Str.toLowerCase (text_at b p)))])
         (calls p ++ top_level_calls).

(** The [href] of every anchor of a subtree that has the attribute, in
    tree order. *)
Fixpoint node_hrefs (n : Node) : list string :=
  match n with
  | Elem _ _ a ks =>
      (if matches (ByTagWithAttr "a" "href") n then [href_of a] else [])
        ++ flat_map node_hrefs ks
  | _ => []
  end.

(** The link [l] is on the page. *)
Definition has_link (l : string) (q : Page) : Prop := In l (node_hrefs (root q)).

(** The pings are [bs] and the completion flag of the root is [flag]. *)
Definition unsignalled (bs : list string) (flag : option string) (q : Page) : Prop :=
  beacons q = bs
  /\ Attr.get "data-seo-enhanced" (node_attrs (root q)) = flag.

(** The page has the links [ls], in tree order. *)
Definition links_are (ls : list string) (q : Page) : Prop :=
  node_hrefs (root q) = ls.

(** The assignments [enhanceSemanticStructure] makes on element [x] of
    page [p], in the order it makes them: as the first [main], as the first
    [nav], as a portfolio entry. *)
Definition annotations (p : Page) (m n : Ref) (x : Ref) : list (string * string) :=
  (if Nat.eqb m x then [("role", "main")] else [])
    ++ (if Nat.eqb n x
        then [("itemscope", EmptyString);
              ("itemtype", "https://schema.org/SiteNavigationElement")]
        else [])
    ++ flat_map (fun item =>
                   if Nat.eqb item x
                   then [("itemscope", EmptyString);
                         ("itemtype", "https://schema.org/CreativeWork");
                         ("aria-label", item_label item p)]
                   else [])
                (query (ByClass "portfolio-item") (root p)).

End Observations.

Module Demo.

Definition origin : string := "https://example.com".

(** [s] without the prefix [pre]. *)
Fixpoint strip_prefix (pre s : string) : option string :=
  match pre with
  | EmptyString => Some s
  | String a pre' =>
      match s with
      | String b s' => if Ascii.eqb a b then strip_prefix pre' s' else None
      | EmptyString => None
      end
  end.

(** A host that serves one site: a path is resolved against the origin,
    the URLs of the site parse, nothing else does; [img.loading] reads
    the attribute; it has [sendBeacon]. *)
Definition host : Host := {|
  resolve_url v :=
    match v with
    | String "/" _ => (origin ++ v)%string
    | _ => v
    end;
  url_pathname s :=
    match strip_prefix origin s with
    | Some EmptyString => Some "/"
    | Some (String "/" r) => Some (String "/" r)
    | _ => None
    end;
  loading_idl v := match v with Some s => s | None => EmptyString end;
  html_text m := EmptyString;
  sendBeacon_available := true;
  location_origin := origin
|}.

(** The same host without [sendBeacon]. *)
Definition old_host : Host := {|
  resolve_url := @resolve_url host;
  url_pathname := @url_pathname host;
  loading_idl := @loading_idl host;
  html_text := @html_text host;
  sendBeacon_available := false;
  location_origin := origin
|}.

Definition page_of (body : list Node) (next : Ref) : Page :=
  mkPage (Elem 0 "html" []
            [Elem 1 "head" [] [Elem 2 "title" [] [Text "Mansoor Ahmad"]];
             Elem 3 "body" [] body])
         "Mansoor Ahmad" next [] [] [] [].

(** A page with everything the script looks for. *)
Definition portfolio : Page :=
  page_of
    [Elem 4 "nav" []
       [Elem 5 "a" [("href", "/")] [Text "Home"];
        Elem 6 "a" [("href", "/work")] [Text "Work"];
        Elem 7 "a" [("href", "/")] [Text "Top"]];
     Elem 8 "main" []
       [Elem 9 "section" [("id", "portfolio")]
          [Elem 10 "div" [("class", "card portfolio-item")]
             [Elem 11 "h3" [] [Text "Technical SEO Specialist "; Elem 12 "em" [] [Text "audit"]];
              Elem 13 "img" [("src", "/a.png"); ("alt", "Shop")] [];
              Elem 14 "img" [("src", "/b.png"); ("loading", "lazy")] [];
              Elem 15 "img" [("src", "/c.png")] []];
           Elem 16 "p" [] [Text "Portfolio of an seo specialist. SEO SPECIALIST."]]]]
    17.


(** No [main] element. *)
Definition without_main : Page :=
  page_of [Elem 4 "nav" [] []] 5.

(** A portfolio entry without a heading. *)
Definition without_heading : Page :=
  page_of
    [Elem 4 "nav" [] [];
     Elem 5 "main" [] [Elem 6 "div" [("class", "portfolio-item")] [Text "Shop audit"]]]
    7.

(** An anchor whose [href] is no URL, before one whose [href] is. *)
Definition broken_link : Page :=
  page_of
    [Elem 4 "a" [("href", "http://")] [Text "broken"];
     Elem 5 "a" [("href", "/work")] [Text "Work"]]
    6.

(** One anchor, whose [href] is no URL. *)
Definition only_broken_link : Page :=
  page_of [Elem 4 "a" [("href", "https://exa mple.com/")] [Text "broken"]] 5.

End Demo.

(** More pages to run the script on, with the host of [Demo]. *)
Module Cases.

(** Three portfolio entries, the second one without a heading. *)
Definition three_entries : Page :=
  Demo.page_of
    [Elem 4 "nav" [] [];
     Elem 5 "main" []
       [Elem 6 "div" [("class", "portfolio-item")] [Elem 7 "h3" [] [Text "Alpha"]];
        Elem 8 "div" [("class", "portfolio-item")] [Text "Beta"];
        Elem 9 "div" [("class", "portfolio-item"); ("aria-label", "third")]
          [Elem 10 "h3" [] [Text "Gamma"]]]]
    11.

(** The document while its head is being read: there is no body yet. *)
Definition head_only : Page :=
  mkPage (Elem 0 "html" []
            [Elem 1 "head" [] [Elem 2 "title" [] [Text "Mansoor Ahmad"]]])
         "Mansoor Ahmad" 3 [] [] [] [].

(** Everything the first three steps look for, and one anchor whose
    [href] is no URL. *)
Definition broken_nav : Page :=
  Demo.page_of
    [Elem 4 "nav" [] [Elem 5 "a" [("href", "http://")] [Text "broken"]];
     Elem 6 "main" []
       [Elem 7 "div" [("class", "portfolio-item")]
          [Elem 8 "h3" [] [Text "Audit"]; Elem 9 "img" [("src", "/a.png")] []]]]
    10.

End Cases.

(** * Proofs *)

(** ** Trees: induction and the effect of the rewrites *)

Lemma Node_ind' (P : Node -> Prop) :
  (forall i t a ks, Forall P ks -> P (Elem i t a ks)) ->
  (forall s, P (Text s)) ->
  (forall m, P (Markup m)) ->
  forall n, P n.
Proof.
  intros HE HT HM. fix IH 1. intros [i t a ks | s | m].
  - apply HE. induction ks as [|k ks IHks]; constructor.
    + apply IH.
    + exact IHks.
  - apply HT.
  - apply HM.
Qed.

Section FirstSome.
Context {A B : Type}.
Implicit Types (f g : A -> option B) (l : list A).

Lemma first_some_ext f g l :
  Forall (fun x => f x = g x) l -> first_some f l = first_some g l.
Proof.
  induction 1 as [|x l Hx _ IH]; simpl; [reflexivity|].
  rewrite Hx, IH. reflexivity.
Qed.

Lemma first_some_none f l :
  Forall (fun x => f x = None) l -> first_some f l = None.
Proof.
  induction 1 as [|x l Hx _ IH]; simpl; [reflexivity|].
  rewrite Hx. exact IH.
Qed.

Lemma first_some_map {C : Type} (h : C -> A) f (l : list C) :
  first_some f (map h l) = first_some (fun x => f (h x)) l.
Proof.
  induction l as [|x l IH]; simpl; [reflexivity|].
  rewrite IH. reflexivity.
Qed.

Lemma first_some_option_map {C : Type} (h : B -> C) f l :
  first_some (fun x => option_map h (f x)) l = option_map h (first_some f l).
Proof.
  induction l as [|x l IH]; simpl; [reflexivity|].
  destruct (f x); simpl; [reflexivity | exact IH].
Qed.

Lemma first_some_app f l1 l2 :
  first_some f (l1 ++ l2) =
  match first_some f l1 with Some y => Some y | None => first_some f l2 end.
Proof.
  induction l1 as [|x l1 IH]; simpl; [reflexivity|].
  destruct (f x); [reflexivity | exact IH].
Qed.
End FirstSome.

Lemma put_before_cons here new g k ks :
  put_before here new g (k :: ks)
  = (if here k then [new; g k] else [g k]) ++ put_before here new g ks.
Proof. reflexivity. Qed.

Lemma has_id_true i n : has_id i n = true -> exists t a ks, n = Elem i t a ks.
Proof.
  destruct n as [j t a ks| |]; simpl; try discriminate.
  intros H. apply Nat.eqb_eq in H. subst. eauto.
Qed.

Lemma ids_update_attrs j f n : ids (update_attrs j f n) = ids n.
Proof.
  induction n as [i t a ks IH| |] using Node_ind'; simpl; try reflexivity.
  f_equal. induction IH as [|k ks Hk _ IHks]; simpl; [reflexivity|].
  rewrite Hk, IHks. reflexivity.
Qed.

Lemma update_attrs_absent j f n : ~ In j (ids n) -> update_attrs j f n = n.
Proof.
  induction n as [i t a ks IH| |] using Node_ind'; simpl; try reflexivity.
  intros Hj. destruct (Nat.eqb_spec j i) as [->|Hne]; [tauto|].
  f_equal.
  assert (Hks : ~ In j (flat_map ids ks)) by tauto. clear Hj.
  induction IH as [|k ks Hk _ IHks]; simpl in *; [reflexivity|].
  rewrite in_app_iff in Hks. rewrite Hk, IHks by tauto. reflexivity.
Qed.

Lemma insert_before_absent j new n : ~ In j (ids n) -> insert_before j new n = n.
Proof.
  induction n as [i t a ks IH| |] using Node_ind'; simpl; try reflexivity.
  intros Hj. f_equal.
  assert (Hks : ~ In j (flat_map ids ks)) by tauto. clear Hj.
  induction IH as [|k ks Hk _ IHks]; [reflexivity|].
  simpl in Hks. rewrite in_app_iff in Hks. rewrite put_before_cons.
  assert (has_id j k = false) as ->.
  { destruct k as [i' ? ? ?| |]; simpl in *; try reflexivity.
    apply Nat.eqb_neq. intros ->. tauto. }
  simpl. rewrite Hk, IHks by tauto. reflexivity.
Qed.

Lemma find_elem_absent i n : ~ In i (ids n) -> find_elem i n = None.
Proof.
  induction n as [j t a ks IH| |] using Node_ind'; simpl; try reflexivity.
  intros Hi. destruct (Nat.eqb_spec i j) as [->|Hne]; [tauto|].
  apply first_some_none.
  assert (Hks : ~ In i (flat_map ids ks)) by tauto. clear Hi.
  induction IH as [|k ks Hk _ IHks]; simpl in *; constructor;
    rewrite in_app_iff in Hks; tauto.
Qed.

Lemma find_elem_has_id i n e : find_elem i n = Some e -> has_id i e = true.
Proof.
  revert e. induction n as [j t a ks IH| |] using Node_ind'; simpl; try discriminate.
  intros e. destruct (Nat.eqb_spec i j) as [->|Hne].
  - intros [= <-]. simpl. apply Nat.eqb_refl.
  - induction IH as [|k ks Hk _ IHks]; simpl; [discriminate|].
    destruct (find_elem i k) eqn:Ek; [intros [= <-]; eauto | exact IHks].
Qed.

Lemma find_elem_update_attrs i j f n :
  find_elem i (update_attrs j f n) = option_map (update_attrs j f) (find_elem i n).
Proof.
  induction n as [k t a ks IH| |] using Node_ind'; simpl; try reflexivity.
  destruct (Nat.eqb i k); [reflexivity|].
  rewrite first_some_map, <- first_some_option_map.
  apply first_some_ext. exact IH.
Qed.

Lemma first_some_put_before {B : Type} (f : Node -> option B) here new g ks :
  f new = None ->
  first_some f (put_before here new g ks) = first_some (fun k => f (g k)) ks.
Proof.
  intros Hnew. induction ks as [|k ks IH]; [reflexivity|].
  rewrite put_before_cons. destruct (here k); simpl; rewrite ?Hnew, IH; reflexivity.
Qed.

Lemma find_elem_insert_before i j new n :
  ~ In i (ids new) ->
  find_elem i (insert_before j new n) = option_map (insert_before j new) (find_elem i n).
Proof.
  intros Hnew.
  induction n as [k t a ks IH| |] using Node_ind'; simpl; try reflexivity.
  destruct (Nat.eqb i k); [reflexivity|].
  rewrite first_some_put_before by (apply find_elem_absent; exact Hnew).
  rewrite <- first_some_option_map. apply first_some_ext. exact IH.
Qed.

Lemma node_attrs_update_attrs j f n :
  node_attrs (update_attrs j f n) = if has_id j n then f (node_attrs n) else node_attrs n.
Proof. destruct n; reflexivity. Qed.

Lemma node_attrs_insert_before j new n :
  node_attrs (insert_before j new n) = node_attrs n.
Proof. destruct n; reflexivity. Qed.

Lemma has_id_update_attrs i j f n : has_id i (update_attrs j f n) = has_id i n.
Proof. destruct n; reflexivity. Qed.

Lemma has_id_insert_before i j new n : has_id i (insert_before j new n) = has_id i n.
Proof. destruct n; reflexivity. Qed.

Lemma existsb_has_id_map i (g : Node -> Node) ks :
  (forall k, has_id i (g k) = has_id i k) ->
  existsb (has_id i) (map g ks) = existsb (has_id i) ks.
Proof.
  intros Hg. induction ks as [|k ks IH]; simpl; [reflexivity|].
  rewrite Hg, IH. reflexivity.
Qed.

Lemma existsb_has_id_put_before i j new ks :
  has_id i new = false ->
  existsb (has_id i) (put_before (has_id j) new (insert_before j new) ks)
  = existsb (has_id i) ks.
Proof.
  intros Hnew. induction ks as [|k ks IH]; [reflexivity|].
  rewrite put_before_cons.
  destruct (has_id j k); simpl; rewrite ?Hnew, has_id_insert_before, IH; reflexivity.
Qed.

Lemma siblings_of_update_attrs i j f n :
  siblings_of i (update_attrs j f n)
  = option_map (map (update_attrs j f)) (siblings_of i n).
Proof.
  induction n as [k t a ks IH| |] using Node_ind'; simpl; try reflexivity.
  rewrite existsb_has_id_map by (intros; apply has_id_update_attrs).
  destruct (existsb (has_id i) ks); [reflexivity|].
  rewrite first_some_map, <- first_some_option_map.
  apply first_some_ext. exact IH.
Qed.

Lemma siblings_of_absent i n : ~ In i (ids n) -> siblings_of i n = None.
Proof.
  induction n as [j t a ks IH| |] using Node_ind'; simpl; try reflexivity.
  intros Hi. assert (Hks : ~ In i (flat_map ids ks)) by tauto. clear Hi.
  assert (existsb (has_id i) ks = false) as ->.
  { apply not_true_is_false. intros H. apply existsb_exists in H.
    destruct H as (k & Hk & Hid). apply has_id_true in Hid.
    destruct Hid as (t' & a' & ks' & ->). apply Hks, in_flat_map.
    exists (Elem i t' a' ks'). split; [exact Hk | simpl; tauto]. }
  apply first_some_none.
  induction IH as [|k ks Hk _ IHks]; simpl in *; constructor;
    rewrite in_app_iff in Hks; tauto.
Qed.

Lemma siblings_of_insert_before i j new n :
  ~ In i (ids new) ->
  siblings_of i (insert_before j new n)
  = option_map (put_before (has_id j) new (insert_before j new))
               (siblings_of i n).
Proof.
  intros Hnew.
  assert (Hid : has_id i new = false).
  { destruct new as [k ? ? ?| |]; simpl in *; try reflexivity.
    apply Nat.eqb_neq. intros ->. tauto. }
  induction n as [k t a ks IH| |] using Node_ind'; simpl; try reflexivity.
  rewrite existsb_has_id_put_before by exact Hid.
  destruct (existsb (has_id i) ks); [reflexivity|].
  rewrite first_some_put_before by (apply siblings_of_absent; exact Hnew).
  rewrite <- first_some_option_map. apply first_some_ext. exact IH.
Qed.

Lemma siblings_of_holds i n ks :
  siblings_of i n = Some ks -> existsb (has_id i) ks = true.
Proof.
  revert ks. induction n as [k t a ks0 IH| |] using Node_ind'; simpl; try discriminate.
  intros ks. destruct (existsb (has_id i) ks0) eqn:E.
  - intros [= <-]. exact E.
  - clear E. induction IH as [|k0 ks0 Hk _ IHks]; simpl; [discriminate|].
    destruct (siblings_of i k0) eqn:Ek; [intros [= <-]; eauto | exact IHks].
Qed.

Lemma before_in_map i (g : Node -> Node) prev ks :
  (forall k, has_id i (g k) = has_id i k) ->
  before_in i (option_map g prev) (map g ks) = option_map g (before_in i prev ks).
Proof.
  intros Hg. revert prev. induction ks as [|k ks IH]; intros prev; simpl; [reflexivity|].
  rewrite Hg. destruct (has_id i k); [reflexivity|]. apply (IH (Some k)).
Qed.

Lemma has_id_distinct i j k : i <> j -> has_id j k = true -> has_id i k = false.
Proof.
  destruct k as [m ? ? ?| |]; simpl; try discriminate.
  intros Hne H. apply Nat.eqb_eq in H. subst. apply Nat.eqb_neq. exact Hne.
Qed.

Lemma before_in_put_before_other i j new prev ks :
  i <> j -> has_id i new = false ->
  before_in i (option_map (insert_before j new) prev)
            (put_before (has_id j) new (insert_before j new) ks)
  = option_map (insert_before j new) (before_in i prev ks).
Proof.
  intros Hne Hnew. revert prev.
  induction ks as [|k ks IH]; intros prev; [reflexivity|].
  rewrite put_before_cons. destruct (has_id j k) eqn:Ej; simpl.
  - rewrite Hnew, has_id_insert_before, (has_id_distinct i j k Hne Ej).
    apply (IH (Some k)).
  - rewrite has_id_insert_before. destruct (has_id i k); [reflexivity|].
    apply (IH (Some k)).
Qed.

Lemma before_in_put_before_same i new prev ks :
  has_id i new = false -> existsb (has_id i) ks = true ->
  before_in i prev (put_before (has_id i) new (insert_before i new) ks) = Some new.
Proof.
  intros Hnew. revert prev.
  induction ks as [|k ks IH]; intros prev Hex; [discriminate|].
  rewrite put_before_cons. simpl in Hex. destruct (has_id i k) eqn:Ei; simpl.
  - rewrite Hnew, has_id_insert_before, Ei. reflexivity.
  - rewrite has_id_insert_before, Ei. apply IH. exact Hex.
Qed.



Lemma update_attrs_compose j f g n :
  update_attrs j f (update_attrs j g n) = update_attrs j (fun a => f (g a)) n.
Proof.
  induction n as [i t a ks IH| |] using Node_ind'; simpl; try reflexivity.
  f_equal.
  - destruct (Nat.eqb j i); reflexivity.
  - rewrite map_map. apply map_ext_Forall. exact IH.
Qed.

(** ** Attribute lists *)

Lemma attr_get_set k k' v a :
  Attr.get k (Attr.set k' v a) = if String.eqb k k' then Some v else Attr.get k a.
Proof.
  induction a as [|[k0 v0] a IH]; simpl.
  - destruct (String.eqb k k'); reflexivity.
  - destruct (String.eqb_spec k' k0) as [->|Hne]; simpl.
    + destruct (String.eqb k k0); reflexivity.
    + rewrite IH. destruct (String.eqb_spec k k0) as [->|Hne']; [|reflexivity].
      destruct (String.eqb_spec k0 k'); [congruence | reflexivity].
Qed.

Lemma attr_get_remove k k' a :
  Attr.get k (Attr.remove k' a) = if String.eqb k k' then None else Attr.get k a.
Proof.
  unfold Attr.remove.
  induction a as [|[k0 v0] a IH]; simpl.
  - destruct (String.eqb k k'); reflexivity.
  - destruct (String.eqb k' k0) eqn:E; simpl.
    + rewrite IH. apply String.eqb_eq in E. subst k0.
      destruct (String.eqb k k'); reflexivity.
    + destruct (String.eqb_spec k k0) as [->|Hne]; [|exact IH].
      rewrite String.eqb_sym, E. reflexivity.
Qed.

Lemma previousSibling_update_attrs i j f n :
  previousSibling i (update_attrs j f n)
  = option_map (update_attrs j f) (previousSibling i n).
Proof.
  unfold previousSibling. rewrite siblings_of_update_attrs.
  destruct (siblings_of i n) as [ks|]; simpl; [|reflexivity].
  apply (before_in_map i (update_attrs j f) None).
  intros k. apply has_id_update_attrs.
Qed.

Lemma not_in_ids_has_id i n : ~ In i (ids n) -> has_id i n = false.
Proof.
  destruct n as [k ? ? ?| |]; simpl; try reflexivity.
  intros H. apply Nat.eqb_neq. intros ->. tauto.
Qed.

Lemma previousSibling_insert_before_other i j new n :
  i <> j -> ~ In i (ids new) ->
  previousSibling i (insert_before j new n)
  = option_map (insert_before j new) (previousSibling i n).
Proof.
  intros Hne Hnew. unfold previousSibling.
  rewrite siblings_of_insert_before by exact Hnew.
  destruct (siblings_of i n) as [ks|]; simpl; [|reflexivity].
  apply (before_in_put_before_other i j new None ks Hne).
  apply not_in_ids_has_id. exact Hnew.
Qed.

Lemma previousSibling_insert_before_same i new n :
  ~ In i (ids new) -> siblings_of i n <> None ->
  previousSibling i (insert_before i new n) = Some new.
Proof.
  intros Hnew Hsib. unfold previousSibling.
  rewrite siblings_of_insert_before by exact Hnew.
  destruct (siblings_of i n) as [ks|] eqn:E; simpl; [|congruence].
  apply before_in_put_before_same.
  - apply not_in_ids_has_id. exact Hnew.
  - eapply siblings_of_holds. exact E.
Qed.



(** ** Effects that return *)

Lemma forEach_total {A : Type} (f : A -> JS unit) (l : list A) :
  (forall x p, snd (f x p) = Ret tt) ->
  forall p, forEach l f p = (fold_left (fun q x => page_after (f x) q) l p, Ret tt).
Proof.
  intros Hf. induction l as [|x l IH]; intros p; simpl; [reflexivity|].
  unfold bind, page_after. specialize (Hf x p).
  destruct (f x p) as [q r]; simpl in *. subst r. apply IH.
Qed.

Lemma fold_left_invariant {A S : Type} (step : S -> A -> S) (Inv : S -> Prop) l :
  (forall x q, In x l -> Inv q -> Inv (step q x)) ->
  forall q, Inv q -> Inv (fold_left step l q).
Proof.
  induction l as [|x l IH]; intros Hstep q Hq; simpl; [exact Hq|].
  apply IH.
  - intros y q' Hy. apply Hstep. right. exact Hy.
  - apply Hstep; [left; reflexivity | exact Hq].
Qed.

Section Media.

Context {host : Host}.

Lemma alt_of_lazy_attrs src a : alt_of (lazy_attrs src a) = alt_of a.
Proof.
  unfold alt_of, Attr.reflect, lazy_attrs, Attr.class_add.
  rewrite attr_get_set, attr_get_remove, attr_get_set. reflexivity.
Qed.

Lemma attrs_at_update_attrs i j f p :
  attrs_at i (with_root (update_attrs j f) p)
  = if Nat.eqb j i then match find_elem i (root p) with
                        | Some n => f (node_attrs n)
                        | None => []
                        end
    else attrs_at i p.
Proof.
  unfold attrs_at, with_root; simpl. rewrite find_elem_update_attrs.
  destruct (find_elem i (root p)) as [e|] eqn:E; simpl.
  - rewrite node_attrs_update_attrs.
    apply find_elem_has_id in E. destruct (has_id_true _ _ E) as (t & a & ks & ->).
    simpl. reflexivity.
  - destruct (Nat.eqb j i); reflexivity.
Qed.

Lemma optimize_image_returns img p : snd (optimize_image img p) = Ret tt.
Proof.
  unfold optimize_image, bind, attributes, read. simpl.
  destruct (truthy (loading_of (attrs_at img p))); reflexivity.
Qed.

Lemma optimize_step_marked img p :
  truthy (loading_of (attrs_at img p)) = true -> optimize_step p img = p.
Proof.
  intros H. unfold optimize_step, page_after, optimize_image, bind, attributes, read.
  simpl. rewrite H. reflexivity.
Qed.

Lemma optimize_step_unmarked img p :
  truthy (loading_of (attrs_at img p)) = false ->
  optimize_step p img
  = mkPage (insert_before img (fallback (next_id p) (attrs_at img p))
              (update_attrs img (lazy_attrs (src_of (attrs_at img p))) (root p)))
           (title p) (S (S (next_id p))) (listeners p) (beacons p)
           (console p) (calls p).
Proof.
  intros H. unfold optimize_step, page_after, optimize_image, bind, attributes, read.
  simpl. rewrite H. simpl.
  rewrite !update_attrs_compose.
  change (fun a => Attr.class_add "lazyload" (Attr.remove "src"
              (Attr.set "data-src" (src_of (attrs_at img p)) a)))
    with (lazy_attrs (src_of (attrs_at img p))).
  set (src := src_of (attrs_at img p)).
  assert (Halt : alt_of (attrs_at img
             (mkPage (update_attrs img (lazy_attrs src) (root p)) (title p)
                     (S (S (next_id p))) (listeners p) (beacons p) (console p) (calls p)))
          = alt_of (attrs_at img p)).
  { unfold attrs_at at 1. simpl. rewrite find_elem_update_attrs.
    unfold attrs_at. destruct (find_elem img (root p)) as [e|] eqn:E; simpl; [|reflexivity].
    rewrite node_attrs_update_attrs, (find_elem_has_id _ _ _ E).
    apply alt_of_lazy_attrs. }
  unfold fallback, alt_or_default. rewrite Halt. reflexivity.
Qed.

End Media.

(** ** Well-formed pages *)

Lemma distinct_NoDup l : distinct l = true -> NoDup l.
Proof.
  induction l as [|x l IH]; simpl; intros H; [constructor|].
  apply andb_true_iff in H as [Hx Hl]. apply NoDup_cons_2; [|auto].
  rewrite list_elem_of_In. intros Hin.
  apply negb_true_iff in Hx. rewrite <- not_true_iff_false in Hx. apply Hx.
  apply existsb_exists. exists x. split; [exact Hin | apply Nat.eqb_refl].
Qed.

Lemma well_formed_spec p : well_formed p = true -> WellFormed p.
Proof.
  unfold well_formed. rewrite !andb_true_iff. intros [[[[H1 H2] H3] H4] H5].
  constructor.
  - exact H1.
  - destruct (child_with_tag "head" (root p)); [congruence | discriminate].
  - destruct (child_with_tag "body" (root p)); [congruence | discriminate].
  - apply distinct_NoDup. exact H4.
  - intros i Hi. rewrite forallb_forall in H5. apply Nat.ltb_lt. apply H5. exact Hi.
Qed.

Lemma has_tag_true t n : has_tag t n = true -> exists i a ks, n = Elem i t a ks.
Proof.
  destruct n as [i t' a ks| |]; unfold has_tag; try discriminate.
  intros H. apply String.eqb_eq in H. subst. eauto.
Qed.

Lemma find_elem_In i n e : find_elem i n = Some e -> In i (ids n).
Proof.
  intros H. destruct (in_dec Nat.eq_dec i (ids n)) as [Hin|Hout]; [exact Hin|].
  rewrite (find_elem_absent _ _ Hout) in H. discriminate.
Qed.

Lemma first_some_found {A B : Type} (f : A -> option B) l y :
  first_some f l = Some y -> exists x, In x l /\ f x = Some y.
Proof.
  induction l as [|x l IH]; simpl; [discriminate|].
  destruct (f x) eqn:E.
  - intros [= <-]. exists x. auto.
  - intros H. destruct (IH H) as (x' & Hin & Hx'). exists x'. auto.
Qed.

Lemma first_some_is_some {A B : Type} (f : A -> option B) l x :
  In x l -> f x <> None -> first_some f l <> None.
Proof.
  induction l as [|x' l IH]; simpl; [tauto|].
  intros [->|Hin] Hx.
  - destruct (f x); congruence.
  - destruct (f x'); [congruence | auto].
Qed.

Lemma query_Elem s i t a ks :
  query s (Elem i t a ks)
  = (if matches s (Elem i t a ks) then [i] else []) ++ flat_map (query s) ks.
Proof. reflexivity. Qed.

Lemma query_sublist s n : query s n `sublist_of` ids n.
Proof.
  induction n as [i t a ks IH| |] using Node_ind'; [|constructor..].
  rewrite query_Elem. change (ids (Elem i t a ks)) with (i :: flat_map ids ks).
  assert (Hks : flat_map (query s) ks `sublist_of` flat_map ids ks).
  { induction IH as [|k ks Hk _ IHks]; simpl; [constructor|].
    apply sublist_app; assumption. }
  destruct (matches s (Elem i t a ks)); simpl.
  - apply sublist_skip. exact Hks.
  - apply sublist_cons. exact Hks.
Qed.

Lemma query_In s n i : In i (query s n) -> In i (ids n).
Proof.
  rewrite <- !list_elem_of_In. apply sublist_subseteq, query_sublist.
Qed.

Lemma query_NoDup s n : NoDup (ids n) -> NoDup (query s n).
Proof. intros H. eapply sublist_NoDup; [exact H | apply query_sublist]. Qed.

Lemma find_elem_query s i n e :
  find_elem i n = Some e -> matches s e = true -> In i (query s n).
Proof.
  revert e. induction n as [j t a ks IH| |] using Node_ind';
    try (intros e H; simpl in H; discriminate H).
  intros e. rewrite query_Elem. cbn [find_elem].
  destruct (Nat.eqb_spec i j) as [->|Hne].
  - intros [= <-] Hm. rewrite Hm. left. reflexivity.
  - intros Hf Hm. apply in_or_app. right.
    apply first_some_found in Hf as (k & Hk & Hf).
    apply in_flat_map. exists k. split; [exact Hk|].
    rewrite List.Forall_forall in IH. eapply IH; eauto.
Qed.

Lemma find_elem_has_parent i n e :
  find_elem i n = Some e -> has_id i n = false -> siblings_of i n <> None.
Proof.
  revert e. induction n as [j t a ks IH| |] using Node_ind'; simpl; try discriminate.
  intros e Hf Hid. rewrite Hid in Hf.
  destruct (existsb (has_id i) ks) eqn:Ex; [congruence|].
  apply first_some_found in Hf as (k & Hk & Hf).
  apply (first_some_is_some _ _ k Hk).
  rewrite List.Forall_forall in IH. apply (IH k Hk e Hf).
  apply not_true_is_false. intros Hik.
  rewrite <- not_true_iff_false in Ex. apply Ex.
  apply existsb_exists. exists k. auto.
Qed.

Section MediaSteps.

Context {host : Host}.

Lemma next_id_optimize_step q j : next_id q <= next_id (optimize_step q j).
Proof.
  destruct (truthy (loading_of (attrs_at j q))) eqn:E.
  - rewrite optimize_step_marked by exact E. lia.
  - rewrite optimize_step_unmarked by exact E. simpl. lia.
Qed.

Lemma ids_fallback n0 a : ids (fallback n0 a) = [n0; S n0].
Proof. reflexivity. Qed.

Lemma not_in_fallback i n0 a : i < n0 -> ~ In i (ids (fallback n0 a)).
Proof. rewrite ids_fallback. simpl. lia. Qed.

(** The rewrite of image [j], seen from another element [i]. *)
Lemma element_attrs_step_other q i j :
  i <> j -> i < next_id q ->
  element_attrs i (optimize_step q j) = element_attrs i q.
Proof.
  intros Hne Hlt. destruct (truthy (loading_of (attrs_at j q))) eqn:E.
  - rewrite optimize_step_marked by exact E. reflexivity.
  - rewrite optimize_step_unmarked by exact E. unfold element_attrs. simpl.
    rewrite find_elem_insert_before by (apply not_in_fallback; exact Hlt).
    rewrite find_elem_update_attrs.
    destruct (find_elem i (root q)) as [e|] eqn:Ee; simpl; [|reflexivity].
    rewrite node_attrs_insert_before, node_attrs_update_attrs.
    apply find_elem_has_id in Ee.
    rewrite (has_id_distinct j i e); [reflexivity | congruence | exact Ee].
Qed.

Lemma siblings_step q i j :
  i < next_id q ->
  siblings_of i (root q) <> None -> siblings_of i (root (optimize_step q j)) <> None.
Proof.
  intros Hlt Hs. destruct (truthy (loading_of (attrs_at j q))) eqn:E.
  - rewrite optimize_step_marked by exact E. exact Hs.
  - rewrite optimize_step_unmarked by exact E. simpl.
    rewrite siblings_of_insert_before by (apply not_in_fallback; exact Hlt).
    rewrite siblings_of_update_attrs.
    destruct (siblings_of i (root q)); [discriminate | congruence].
Qed.

Lemma previousSibling_step_other q i j x :
  i <> j -> i < next_id q -> ~ In j (ids x) ->
  previousSibling i (root q) = Some x ->
  previousSibling i (root (optimize_step q j)) = Some x.
Proof.
  intros Hne Hlt Hx Hp. destruct (truthy (loading_of (attrs_at j q))) eqn:E.
  - rewrite optimize_step_marked by exact E. exact Hp.
  - rewrite optimize_step_unmarked by exact E. simpl.
    rewrite previousSibling_insert_before_other
      by (try exact Hne; apply not_in_fallback; exact Hlt).
    rewrite previousSibling_update_attrs, Hp. simpl.
    rewrite update_attrs_absent, insert_before_absent by exact Hx. reflexivity.
Qed.

(** The rewrite of image [i] itself. *)
Lemma optimize_step_self q i a :
  element_attrs i q = Some a ->
  truthy (loading_of a) = false ->
  i < next_id q ->
  siblings_of i (root q) <> None ->
  element_attrs i (optimize_step q i) = Some (lazy_attrs (src_of a) a)
  /\ previousSibling i (root (optimize_step q i)) = Some (fallback (next_id q) a).
Proof.
  unfold element_attrs. intros Ha Hl Hlt Hs.
  destruct (find_elem i (root q)) as [e|] eqn:Ee; [|discriminate].
  injection Ha as Ha.
  assert (Hat : attrs_at i q = a) by (unfold attrs_at; rewrite Ee; exact Ha).
  rewrite optimize_step_unmarked by (rewrite Hat; exact Hl). simpl.
  rewrite Hat. split.
  - rewrite find_elem_insert_before by (apply not_in_fallback; exact Hlt).
    rewrite find_elem_update_attrs, Ee. simpl.
    rewrite node_attrs_insert_before, node_attrs_update_attrs.
    rewrite (find_elem_has_id _ _ _ Ee), Ha. reflexivity.
  - apply previousSibling_insert_before_same.
    + apply not_in_fallback. exact Hlt.
    + rewrite siblings_of_update_attrs.
      destruct (siblings_of i (root q)); [discriminate | congruence].
Qed.

Lemma optimizeMediaLoading_run p :
  optimizeMediaLoading p
  = (fold_left optimize_step (query (ByTag "img") (root p))
               (page_after (enter CallOptimizeMediaLoading) p), Ret tt).
Proof.
  unfold optimizeMediaLoading, bind, querySelectorAll, read. simpl.
  apply (forEach_total optimize_image). apply optimize_image_returns.
Qed.

End MediaSteps.

(** ** Token lists *)




Lemma append_cons c (s1 s2 : string) :
  (String c s1 ++ s2)%string = String c (s1 ++ s2).
Proof. reflexivity. Qed.






Lemma mem_app x l1 l2 : Str.mem x (l1 ++ l2) = Str.mem x l1 || Str.mem x l2.
Proof. unfold Str.mem. apply existsb_app. Qed.








Section MediaClaims.

Context {host : Host}.

Lemma lazy_attrs_src src a : Attr.get "src" (lazy_attrs src a) = None.
Proof.
  unfold lazy_attrs, Attr.class_add. rewrite attr_get_set, attr_get_remove. reflexivity.
Qed.

Lemma lazy_attrs_data_src src a : Attr.get "data-src" (lazy_attrs src a) = Some src.
Proof.
  unfold lazy_attrs, Attr.class_add.
  rewrite attr_get_set, attr_get_remove, attr_get_set. reflexivity.
Qed.


(** An element of a well-formed page that is not the root has a parent. *)
Lemma image_has_parent p i e :
  WellFormed p -> find_elem i (root p) = Some e -> has_tag "img" e = true ->
  siblings_of i (root p) <> None.
Proof.
  intros W He Himg. apply (find_elem_has_parent i (root p) e He).
  destruct (has_id i (root p)) eqn:Hid; [|reflexivity]. exfalso.
  destruct (has_tag_true _ _ (wf_html p W)) as (j & a & ks & Er).
  rewrite Er in He, Hid. cbn [find_elem] in He. cbn [has_id] in Hid.
  rewrite Hid in He. injection He as <-. discriminate Himg.
Qed.


End MediaClaims.

Lemma elements_ids e n i : In e (elements n) -> has_id i e = true -> In i (ids n).
Proof.
  induction n as [j t a ks IH| |] using Node_ind'; simpl; try tauto.
  intros [<-|Hin] Hid.
  - simpl in Hid. apply Nat.eqb_eq in Hid. left. congruence.
  - right. apply in_flat_map in Hin as (k & Hk & He).
    apply in_flat_map. exists k. split; [exact Hk|].
    rewrite List.Forall_forall in IH. apply (IH k Hk He Hid).
Qed.

Lemma NoDup_flat_map_split {A B : Type} (f : A -> list B) l1 x l2 y :
  List.NoDup (flat_map f (l1 ++ x :: l2)) -> In y (f x) ->
  ~ In y (flat_map f l1) /\ List.NoDup (f x).
Proof.
  rewrite flat_map_app. simpl. intros H Hy. split.
  - intros Hy1. induction (flat_map f l1) as [|z l IH]; simpl in *; [tauto|].
    inversion H; subst. destruct Hy1 as [->|Hy1]; [|auto].
    apply H2. apply in_or_app. right. apply in_or_app. left. exact Hy.
  - apply NoDup_app_remove_l in H. apply NoDup_app_remove_r in H. exact H.
Qed.

(** In a tree without shared identities, a reference finds the element
    that carries it. *)
Lemma elements_find e n i :
  List.NoDup (ids n) -> In e (elements n) -> has_id i e = true -> find_elem i n = Some e.
Proof.
  induction n as [j t a ks IH| |] using Node_ind'; simpl; try tauto.
  intros Hnd [<-|Hin] Hid.
  - simpl in Hid. rewrite Hid. reflexivity.
  - inversion Hnd as [|? ? Hj Hks]; subst.
    apply in_flat_map in Hin as (k & Hk & He).
    assert (Hik : In i (ids k)) by (eapply elements_ids; eauto).
    destruct (Nat.eqb_spec i j) as [->|Hne].
    { exfalso. apply Hj. apply in_flat_map. eauto. }
    destruct (in_split _ _ Hk) as (ks1 & ks2 & ->).
    destruct (NoDup_flat_map_split ids ks1 k ks2 i Hks Hik) as [Hout Hndk].
    rewrite first_some_app.
    rewrite (first_some_none (find_elem i) ks1).
    + simpl. rewrite List.Forall_forall in IH.
      rewrite (IH k Hk Hndk He Hid). reflexivity.
    + apply List.Forall_forall. intros k' Hk'. apply find_elem_absent.
      intros Hin'. apply Hout. apply in_flat_map. eauto.
Qed.





Lemma node_key_update_attrs j f n : node_key (update_attrs j f n) = node_key n.
Proof. destruct n; reflexivity. Qed.



Section Marked.

Context {host : Host}.





End Marked.

Section MarkedClaims.

Context {host : Host}.





End MarkedClaims.

(** ** Appending a child *)

Lemma update_kids_absent b f n : ~ In b (ids n) -> update_kids b f n = n.
Proof.
  induction n as [i t a ks IH| |] using Node_ind'; simpl; try reflexivity.
  intros Hb. destruct (Nat.eqb_spec b i) as [->|Hne]; [tauto|].
  f_equal.
  assert (Hks : ~ In b (flat_map ids ks)) by tauto. clear Hb.
  induction IH as [|k ks Hk _ IHks]; simpl in *; [reflexivity|].
  rewrite in_app_iff in Hks. rewrite Hk, IHks by tauto. reflexivity.
Qed.

Lemma map_update_kids_absent b f ks :
  ~ In b (flat_map ids ks) -> map (update_kids b f) ks = ks.
Proof.
  induction ks as [|k ks IH]; simpl; [reflexivity|].
  rewrite in_app_iff. intros H.
  rewrite update_kids_absent, IH by tauto. reflexivity.
Qed.

Lemma find_elem_present i n : In i (ids n) -> find_elem i n <> None.
Proof.
  induction n as [j t a ks IH| |] using Node_ind'; simpl; try tauto.
  destruct (Nat.eqb_spec i j) as [->|Hne]; [discriminate|].
  intros [Heq|Hin]; [congruence|].
  apply in_flat_map in Hin as (k & Hk & Hik).
  apply (first_some_is_some _ _ k Hk).
  rewrite List.Forall_forall in IH. apply (IH k Hk Hik).
Qed.

Lemma first_some_first {A B : Type} (f : A -> option B) l y :
  first_some f l = Some y ->
  exists l1 x l2, l = l1 ++ x :: l2 /\ Forall (fun z => f z = None) l1 /\ f x = Some y.
Proof.
  induction l as [|x l IH]; simpl; [discriminate|].
  destruct (f x) eqn:E.
  - intros [= <-]. exists [], x, l. repeat split; [constructor | exact E].
  - intros H. destruct (IH H) as (l1 & x' & l2 & -> & Hl1 & Hx').
    exists (x :: l1), x', l2. repeat split; [constructor; assumption | exact Hx'].
Qed.

(** The element [b] after its child list is rewritten: the same element
    with the new child list. *)
Lemma find_elem_update_kids b f n e :
  List.NoDup (ids n) -> find_elem b n = Some e ->
  find_elem b (update_kids b f n)
  = Some (match e with Elem i t a ks => Elem i t a (f ks) | _ => e end).
Proof.
  revert e. induction n as [j t a ks IH| |] using Node_ind';
    try (intros e _ H; simpl in H; discriminate H).
  intros e Hnd. inversion Hnd as [|? ? Hj Hks]; subst. simpl.
  destruct (Nat.eqb_spec b j) as [->|Hne].
  - intros [= <-]. rewrite map_update_kids_absent by exact Hj. reflexivity.
  - intros Hf. apply first_some_first in Hf as (ks1 & k & ks2 & -> & H1 & Hk).
    rewrite map_app, first_some_app. simpl.
    rewrite (first_some_none (find_elem b) (map (update_kids b f) ks1)).
    + rewrite List.Forall_forall in IH.
      assert (Hin : In k (ks1 ++ k :: ks2)) by (apply in_or_app; simpl; auto).
      assert (Hik : In b (ids k)) by (eapply find_elem_In; eauto).
      destruct (NoDup_flat_map_split ids ks1 k ks2 b Hks Hik) as [_ Hndk].
      rewrite (IH k Hin e Hndk Hk). reflexivity.
    + apply List.Forall_forall. intros k' Hk'. apply in_map_iff in Hk' as (k0 & <- & Hk0).
      rewrite List.Forall_forall in H1. specialize (H1 k0 Hk0).
      assert (~ In b (ids k0)) by (intros Hb; exact (find_elem_present _ _ Hb H1)).
      rewrite update_kids_absent by assumption. exact H1.
Qed.

Lemma child_with_tag_map t (g : Node -> Node) ks i a0 :
  (forall k, match g k with
             | Elem i t' _ _ => match k with Elem j t'' _ _ => i = j /\ t' = t'' | _ => False end
             | Text _ => match k with Text _ => True | _ => False end
             | Markup _ => match k with Markup _ => True | _ => False end
             end) ->
  child_with_tag t (Elem i "html" a0 (map g ks)) = child_with_tag t (Elem i "html" a0 ks).
Proof.
  intros Hg. unfold child_with_tag. simpl. rewrite first_some_map.
  apply first_some_ext. apply List.Forall_forall. intros k _.
  specialize (Hg k). destruct (g k), k; try tauto. destruct Hg as [-> ->]. reflexivity.
Qed.

Lemma child_with_tag_update_attrs t j f n :
  child_with_tag t (update_attrs j f n) = child_with_tag t n.
Proof.
  destruct n as [i t0 a ks| |]; try reflexivity.
  unfold child_with_tag. simpl. rewrite first_some_map.
  apply first_some_ext. apply List.Forall_forall. intros k _. destruct k; reflexivity.
Qed.

Lemma child_with_tag_append_child t b new n x :
  child_with_tag t n = Some x -> child_with_tag t (append_child b new n) = Some x.
Proof.
  destruct n as [i t0 a ks| |]; try discriminate.
  unfold child_with_tag, append_child. simpl. intros H.
  assert (Hmap : first_some
            (fun k => match k with
                      | Elem i0 t' _ _ => if String.eqb t t' then Some i0 else None
                      | _ => None
                      end) (map (update_kids b (fun ks0 => ks0 ++ [new])) ks) = Some x).
  { rewrite first_some_map. rewrite <- H. apply first_some_ext.
    apply List.Forall_forall. intros k _. destruct k; reflexivity. }
  destruct (Nat.eqb b i); [|exact Hmap].
  rewrite first_some_app, Hmap. reflexivity.
Qed.

Lemma has_tag_append_child t b new n :
  has_tag t (append_child b new n) = has_tag t n.
Proof. destruct n; reflexivity. Qed.

Lemma has_tag_update_attrs t j f n : has_tag t (update_attrs j f n) = has_tag t n.
Proof. destruct n; reflexivity. Qed.

Lemma ids_append_child_In b new n x :
  In x (ids (append_child b new n)) -> In x (ids n) \/ In x (ids new).
Proof.
  unfold append_child.
  induction n as [i t a ks IH| |] using Node_ind'; simpl; try tauto.
  intros [->|Hin]; [auto|].
  assert (Hks : In x (flat_map ids (map (update_kids b (fun ks0 => ks0 ++ [new])) ks)) ->
                In x (flat_map ids ks) \/ In x (ids new)).
  { clear Hin. induction IH as [|k ks Hk _ IHks]; simpl; [tauto|].
    rewrite !in_app_iff. intros [H|H]; [destruct (Hk H) | destruct (IHks H)]; tauto. }
  destruct (Nat.eqb b i); [|destruct (Hks Hin); tauto].
  rewrite flat_map_app, in_app_iff in Hin. simpl in Hin. rewrite app_nil_r in Hin.
  destruct Hin as [Hin|Hin]; [destruct (Hks Hin)|]; tauto.
Qed.

Lemma NoDup_app_disjoint {A : Type} (l1 l2 : list A) :
  List.NoDup l1 -> List.NoDup l2 -> (forall x, In x l1 -> ~ In x l2) ->
  List.NoDup (l1 ++ l2).
Proof.
  intros H1 H2 Hd. induction H1 as [|x l1 Hx _ IH]; simpl; [exact H2|].
  constructor.
  - rewrite in_app_iff. intros [H|H]; [tauto|]. apply (Hd x); simpl; auto.
  - apply IH. intros y Hy. apply Hd. simpl. auto.
Qed.

Lemma NoDup_app_inv {A : Type} (l1 l2 : list A) :
  List.NoDup (l1 ++ l2) ->
  List.NoDup l1 /\ List.NoDup l2 /\ (forall x, In x l1 -> ~ In x l2).
Proof.
  intros H. split; [|split].
  - apply NoDup_app_remove_r in H. exact H.
  - apply NoDup_app_remove_l in H. exact H.
  - induction l1 as [|y l1 IH]; simpl in *; [tauto|].
    inversion H; subst. intros x [->|Hx] Hx2.
    + apply H2. apply in_or_app. auto.
    + exact (IH H3 x Hx Hx2).
Qed.

(** Appending a node made of new objects keeps the objects distinct. *)
Lemma NoDup_ids_append_child b new n :
  List.NoDup (ids n) -> List.NoDup (ids new) ->
  (forall x, In x (ids new) -> ~ In x (ids n)) ->
  List.NoDup (ids (append_child b new n)).
Proof.
  induction n as [i t a ks IH| |] using Node_ind'; try (intros; assumption).
  intros Hnd Hnew Hfresh. inversion Hnd as [|? ? Hi Hks]; subst.
  assert (Hkids : List.NoDup (flat_map ids (map (append_child b new) ks))
                  /\ (~ In b (flat_map ids ks) -> map (append_child b new) ks = ks)).
  { split; [|apply map_update_kids_absent].
    assert (Hf : forall x, In x (ids new) -> ~ In x (flat_map ids ks)).
    { intros x Hx Hin. apply (Hfresh x Hx). simpl. auto. }
    clear Hnd Hi Hfresh.
    induction IH as [|k ks Hk _ IHks]; simpl in *; [constructor|].
    apply NoDup_app_inv in Hks as (Hk1 & Hk2 & Hd).
    assert (Hfk : forall x, In x (ids new) -> ~ In x (ids k)).
    { intros x Hx Hin. apply (Hf x Hx). apply in_or_app. auto. }
    assert (Hfks : forall x, In x (ids new) -> ~ In x (flat_map ids ks)).
    { intros x Hx Hin. apply (Hf x Hx). apply in_or_app. auto. }
    destruct (in_dec Nat.eq_dec b (ids k)) as [Hb|Hb].
    - unfold append_child at 2. rewrite map_update_kids_absent by (apply Hd; exact Hb).
      apply NoDup_app_disjoint; [apply Hk; assumption | assumption |].
      intros x Hx Hx2. apply ids_append_child_In in Hx as [Hx|Hx].
      + exact (Hd x Hx Hx2).
      + exact (Hfks x Hx Hx2).
    - unfold append_child at 1. rewrite update_kids_absent by exact Hb.
      apply NoDup_app_disjoint; [assumption | apply IHks; assumption |].
      intros x Hx Hx2.
      assert (Hor : In x (flat_map ids ks) \/ In x (ids new)).
      { apply in_flat_map in Hx2 as (k' & Hk' & Hx').
        apply in_map_iff in Hk' as (k0 & <- & Hk0).
        apply ids_append_child_In in Hx' as [Hx'|Hx']; [left | right; exact Hx'].
        apply in_flat_map. eauto. }
      destruct Hor as [Hor|Hor]; [exact (Hd x Hx Hor) | exact (Hfk x Hor Hx)]. }
  destruct Hkids as [Hkids Hsame].
  unfold append_child in *. simpl.
  destruct (Nat.eqb_spec b i) as [->|Hne].
  - rewrite map_update_kids_absent by exact Hi. constructor.
    + rewrite flat_map_app, in_app_iff. simpl. rewrite app_nil_r. intros [H|H]; [tauto|].
      apply (Hfresh i H). simpl. auto.
    + rewrite flat_map_app. simpl. rewrite app_nil_r.
      apply NoDup_app_disjoint; [assumption..|].
      intros x Hx Hx2. apply (Hfresh x Hx2). simpl. auto.
  - constructor; [|exact Hkids].
    intros Hin. apply in_flat_map in Hin as (k' & Hk' & Hx').
    apply in_map_iff in Hk' as (k0 & <- & Hk0).
    apply ids_append_child_In in Hx' as [Hx'|Hx'].
    + apply Hi. apply in_flat_map. eauto.
    + apply (Hfresh i Hx'). simpl. auto.
Qed.

(** ** Ordered sets *)

Lemma filter_filter_mem x acc (l : list string) :
  Str.mem x acc = true ->
  List.filter (fun y => negb (Str.mem y acc)) (List.filter (fun y => negb (String.eqb y x)) l)
  = List.filter (fun y => negb (Str.mem y acc)) l.
Proof.
  intros Hx. induction l as [|y l IH]; simpl; [reflexivity|].
  destruct (String.eqb_spec y x) as [->|Hne]; simpl.
  - rewrite Hx. simpl. exact IH.
  - rewrite IH. reflexivity.
Qed.

Lemma filter_mem_snoc x acc (l : list string) :
  List.filter (fun y => negb (Str.mem y (acc ++ [x]))) l
  = List.filter (fun y => negb (Str.mem y acc)) (List.filter (fun y => negb (String.eqb y x)) l).
Proof.
  induction l as [|y l IH]; simpl; [reflexivity|].
  rewrite mem_app. simpl. rewrite orb_false_r.
  destruct (String.eqb y x); simpl.
  - rewrite orb_true_r. simpl. exact IH.
  - rewrite orb_false_r. destruct (Str.mem y acc); simpl; rewrite IH; reflexivity.
Qed.

Lemma fold_set_add l acc :
  fold_left Str.set_add l acc
  = acc ++ List.filter (fun y => negb (Str.mem y acc)) (first_occurrences l).
Proof.
  revert acc. induction l as [|x l IH]; intros acc; simpl.
  - rewrite app_nil_r. reflexivity.
  - rewrite IH. unfold Str.set_add. destruct (Str.mem x acc) eqn:E; simpl.
    + rewrite filter_filter_mem by exact E. reflexivity.
    + rewrite <- app_assoc. simpl. rewrite filter_mem_snoc. reflexivity.
Qed.

Lemma filter_true {A : Type} (l : list A) : List.filter (fun _ => true) l = l.
Proof. induction l as [|x l IH]; simpl; [reflexivity | rewrite IH; reflexivity]. Qed.

(** [new Set(l)] lists the values of [l] in the order of their first
    occurrences. *)
Lemma ordered_set_first_occurrences l : Str.ordered_set l = first_occurrences l.
Proof.
  unfold Str.ordered_set. rewrite fold_set_add. simpl. apply filter_true.
Qed.

Lemma first_occurrences_In x l : In x (first_occurrences l) <-> In x l.
Proof.
  induction l as [|y l IH]; simpl; [tauto|].
  rewrite filter_In, IH. destruct (String.eqb_spec x y) as [->|Hne]; simpl; [tauto|].
  split; [tauto|]. intros [H|H]; [congruence | auto].
Qed.

Lemma first_occurrences_NoDup l : List.NoDup (first_occurrences l).
Proof.
  induction l as [|y l IH]; simpl; constructor.
  - rewrite filter_In. rewrite String.eqb_refl. simpl. intros [_ H]. discriminate.
  - apply List.NoDup_filter. exact IH.
Qed.

Lemma first_occurrences_length l :
  List.length (first_occurrences l) = distinct_count l.
Proof.
  unfold distinct_count. apply Permutation_length. apply Permutation.NoDup_Permutation.
  - apply first_occurrences_NoDup.
  - apply List.NoDup_nodup.
  - intros x. rewrite first_occurrences_In, nodup_In. reflexivity.
Qed.

Lemma distinct_count_le l : distinct_count l <= List.length l.
Proof.
  unfold distinct_count. induction l as [|x l IH]; simpl; [lia|].
  destruct (in_dec string_dec x l); simpl; lia.
Qed.

Lemma child_with_tag_find t n b :
  List.NoDup (ids n) -> child_with_tag t n = Some b ->
  exists a ks, find_elem b n = Some (Elem b t a ks).
Proof.
  intros Hnd H. destruct n as [j t0 a0 ks0| |]; try discriminate.
  unfold child_with_tag in H. simpl in H.
  apply first_some_found in H as (k & Hk & Hb).
  destruct k as [i t' a ks| |]; try discriminate.
  destruct (String.eqb_spec t t') as [<-|]; [|discriminate]. injection Hb as ->.
  exists a, ks. apply elements_find; [exact Hnd| |simpl; apply Nat.eqb_refl].
  simpl. right. apply in_flat_map. exists (Elem b t a ks). split; [exact Hk|].
  simpl. auto.
Qed.

(** A page stays well formed when a node made of new objects is appended
    to one of its elements. *)
Lemma WellFormed_append_child p p' b new :
  WellFormed p ->
  root p' = append_child b new (root p) ->
  List.NoDup (ids new) ->
  (forall x, In x (ids new) -> next_id p <= x < next_id p') ->
  next_id p <= next_id p' ->
  WellFormed p'.
Proof.
  intros W Hr Hnew Hfresh Hle.
  assert (Hout : forall x, In x (ids new) -> ~ In x (ids (root p))).
  { intros x Hx Hin. apply (wf_allocated p W) in Hin. apply Hfresh in Hx. lia. }
  constructor; rewrite Hr.
  - rewrite has_tag_append_child. apply (wf_html p W).
  - pose proof (wf_head p W) as H.
    destruct (child_with_tag "head" (root p)) as [h|] eqn:E; [|congruence].
    rewrite (child_with_tag_append_child _ _ _ _ _ E). discriminate.
  - pose proof (wf_body p W) as H.
    destruct (child_with_tag "body" (root p)) as [h|] eqn:E; [|congruence].
    rewrite (child_with_tag_append_child _ _ _ _ _ E). discriminate.
  - apply NoDup_ListNoDup. apply NoDup_ids_append_child; [|assumption..].
    apply NoDup_ListNoDup. apply (wf_distinct p W).
  - intros i Hi. apply ids_append_child_In in Hi as [Hi|Hi].
    + apply (wf_allocated p W) in Hi. lia.
    + apply Hfresh in Hi. lia.
Qed.

(** The children of an element after one is appended to it. *)
Lemma element_kids_append_child p p' b new e :
  WellFormed p -> find_elem b (root p) = Some e ->
  root p' = append_child b new (root p) ->
  element_kids b p' = element_kids b p ++ [new].
Proof.
  intros W He Hr. unfold element_kids. rewrite Hr, He. unfold append_child.
  pose proof (wf_distinct p W) as Hnd. apply NoDup_ListNoDup in Hnd.
  rewrite (find_elem_update_kids b _ (root p) e Hnd He).
  pose proof (find_elem_has_id _ _ _ He) as Hid.
  destruct (has_id_true _ _ Hid) as (t & a & ks & ->). reflexivity.
Qed.

Section Blocks.

Context {host : Host}.

Lemma addBotOnlyContent_run p b :
  child_with_tag "body" (root p) = Some b ->
  addBotOnlyContent p
  = (mkPage (append_child b (bot_block (next_id p) (title p)) (root p))
            (title p) (S (next_id p)) (listeners p) (beacons p) (console p)
            (calls p ++ [CallAddBotOnlyContent]),
     Ret tt).
Proof.
  intros Hb. unfold addBotOnlyContent, bind, enter, modify, createElement,
    document_title, document_body, read, deref, appendChild, with_root.
  simpl. rewrite Hb. reflexivity.
Qed.

Lemma mapM_hrefs anchors q :
  mapM (fun a => let* at_ := attributes a in ret (href_of at_)) anchors q
  = (q, Ret (map (fun a => href_of (attrs_at a q)) anchors)).
Proof.
  induction anchors as [|a l IH]; simpl; [reflexivity|].
  unfold bind, attributes, read, ret in *. simpl. rewrite IH. reflexivity.
Qed.

Lemma mapM_entries links q :
  mapM (fun link => let* path := new_URL_pathname link in
                    ret (sitemap_entry link path)) links q
  = (q, match render_entries links with
        | Some es => Ret es
        | None => Throw TypeError
        end).
Proof.
  induction links as [|x l IH]; simpl; [reflexivity|].
  unfold bind, new_URL_pathname, deref in *.
  destruct (url_pathname x) as [path|]; simpl; [|reflexivity].
  rewrite IH. destruct (render_entries l); reflexivity.
Qed.

Lemma generateDynamicSitemap_run p :
  generateDynamicSitemap p
  = let q := mkPage (root p) (title p) (S (next_id p)) (listeners p) (beacons p)
                    (console p) (calls p ++ [CallGenerateDynamicSitemap]) in
    match render_entries (Str.ordered_set (anchor_hrefs p)) with
    | None => (q, Throw TypeError)
    | Some es =>
        match child_with_tag "body" (root p) with
        | None => (q, Throw TypeError)
        | Some b =>
            (with_root (append_child b (sitemap_block (next_id p) es)) q, Ret tt)
        end
    end.
Proof.
  unfold generateDynamicSitemap, bind at 1 2 3. simpl.
  rewrite mapM_hrefs. unfold bind at 1 2. simpl. rewrite mapM_entries.
  unfold anchor_hrefs, attrs_at. simpl.
  destruct (render_entries _) as [es|]; [|reflexivity].
  unfold bind, document_body, read, deref, appendChild, modify. simpl.
  destruct (child_with_tag "body" (root p)); reflexivity.
Qed.

Lemma render_entries_some links :
  (exists es, render_entries links = Some es)
  <-> Forall (fun l => url_pathname l <> None) links.
Proof.
  induction links as [|x l IH]; simpl.
  - split; [constructor | eauto].
  - destruct (url_pathname x) eqn:E.
    + split.
      * intros [es H]. constructor; [congruence|]. apply IH.
        destruct (render_entries l); [eauto | discriminate].
      * intros H. inversion H; subst. apply IH in H3 as [es ->]. simpl. eauto.
    + split; [intros [es H]; discriminate|].
      intros H. inversion H; subst. congruence.
Qed.

Lemma render_entries_map links es :
  render_entries links = Some es ->
  Forall2 (fun link entry => exists path, url_pathname link = Some path
                                          /\ entry = sitemap_entry link path)
          links es.
Proof.
  revert es. induction links as [|x l IH]; simpl; intros es.
  - intros [= <-]. constructor.
  - destruct (url_pathname x) as [path|] eqn:E; [|discriminate].
    destruct (render_entries l) as [es'|]; [|discriminate].
    intros [= <-]. constructor; [eauto | apply IH; reflexivity].
Qed.

End Blocks.

Section BlockClaims.

Context {host : Host}.

Lemma body_element p :
  WellFormed p ->
  exists b a ks, child_with_tag "body" (root p) = Some b
                 /\ find_elem b (root p) = Some (Elem b "body" a ks).
Proof.
  intros W. pose proof (wf_body p W) as H.
  destruct (child_with_tag "body" (root p)) as [b|] eqn:E; [|congruence].
  pose proof (wf_distinct p W) as Hnd. apply NoDup_ListNoDup in Hnd.
  destruct (child_with_tag_find _ _ _ Hnd E) as (a & ks & Hf). eauto.
Qed.

Lemma WellFormed_addBotOnlyContent p :
  WellFormed p -> WellFormed (page_after addBotOnlyContent p).
Proof.
  intros W. destruct (body_element p W) as (b & a & ks & Hb & _).
  unfold page_after. rewrite (addBotOnlyContent_run p b Hb). simpl.
  eapply (WellFormed_append_child p _ b (bot_block (next_id p) (title p)) W).
  - reflexivity.
  - repeat constructor. simpl. tauto.
  - simpl. intros x [<-|[]]. lia.
  - simpl. lia.
Qed.

(** C7: run twice, [addBotOnlyContent] leaves two blocks at the end of
    the body, one per run, alike in everything but the object: nothing
    looks for the block of an earlier run. *)
Theorem addBotOnlyContent_twice_appends_two (p : Page) :
  well_formed p = true ->
  exists b n1 n2,
    child_with_tag "body" (root p) = Some b
    /\ returns addBotOnlyContent p = true
    /\ returns addBotOnlyContent (page_after addBotOnlyContent p) = true
    /\ n1 <> n2
    /\ element_kids b (page_after addBotOnlyContent (page_after addBotOnlyContent p))
       = element_kids b p
           ++ [Elem n1 "div"
                 [("class", "bot-only-content"); ("style", botContent_style)]
                 [Markup (botContent_markup (title p))];
               Elem n2 "div"
                 [("class", "bot-only-content"); ("style", botContent_style)]
                 [Markup (botContent_markup (title p))]].
Proof.
  intros Hwf. apply well_formed_spec in Hwf as W.
  destruct (body_element p W) as (b & a & ks & Hb & Hf).
  pose proof (WellFormed_addBotOnlyContent p W) as W1.
  set (p1 := page_after addBotOnlyContent p) in *.
  assert (E1 : addBotOnlyContent p = (p1, Ret tt)).
  { unfold p1, page_after. rewrite (addBotOnlyContent_run p b Hb). reflexivity. }
  assert (Hr1 : root p1 = append_child b (bot_block (next_id p) (title p)) (root p)).
  { unfold p1, page_after. rewrite (addBotOnlyContent_run p b Hb). reflexivity. }
  assert (Ht1 : title p1 = title p /\ next_id p1 = S (next_id p)).
  { unfold p1, page_after. rewrite (addBotOnlyContent_run p b Hb). split; reflexivity. }
  destruct Ht1 as [Ht1 Hn1].
  assert (Hb1 : child_with_tag "body" (root p1) = Some b).
  { rewrite Hr1. apply child_with_tag_append_child. exact Hb. }
  destruct (body_element p1 W1) as (b' & a1 & ks1 & Hb1' & Hf1).
  rewrite Hb1 in Hb1'. injection Hb1' as <-.
  exists b, (next_id p), (next_id p1). split; [exact Hb|]. split; [|split; [|split]].
  - unfold returns. rewrite E1. reflexivity.
  - unfold returns. rewrite (addBotOnlyContent_run p1 b Hb1). reflexivity.
  - lia.
  - set (p2 := page_after addBotOnlyContent p1).
    assert (Hr2 : root p2 = append_child b (bot_block (next_id p1) (title p1)) (root p1)).
    { unfold p2, page_after. rewrite (addBotOnlyContent_run p1 b Hb1). reflexivity. }
    rewrite (element_kids_append_child p1 p2 b _ _ W1 Hf1 Hr2).
    rewrite (element_kids_append_child p p1 b _ _ W Hf Hr1).
    rewrite <- app_assoc, Ht1. reflexivity.
Qed.

Lemma render_entries_none links :
  render_entries links = None <-> exists l, In l links /\ url_pathname l = None.
Proof.
  induction links as [|x l IH]; simpl.
  - split; [discriminate | intros (? & [] & _)].
  - destruct (url_pathname x) eqn:E.
    + destruct (render_entries l) eqn:Er; simpl.
      * split; [discriminate|]. intros (y & [<-|Hy] & Hn); [congruence|].
        exfalso. destruct IH as [_ IH]. discriminate IH. eauto.
      * split; [|reflexivity]. intros _.
        destruct IH as [IH _]. destruct (IH eq_refl) as (y & Hy & Hn). eauto.
    + split; [|reflexivity]. intros _. exists x. auto.
Qed.

Lemma ordered_set_In x l : In x (Str.ordered_set l) <-> In x l.
Proof. rewrite ordered_set_first_occurrences. apply first_occurrences_In. Qed.

(** C3, as the code has it: [generateDynamicSitemap] throws exactly when
    the [href] of some anchor does not parse as a URL, and then it leaves
    the document as it was: no entry is rendered and no block is
    appended. *)
Theorem generateDynamicSitemap_throws_iff_malformed (p : Page) :
  well_formed p = true ->
  (throws generateDynamicSitemap p = true
   <-> exists l, In l (anchor_hrefs p) /\ url_pathname l = None)
  /\ (throws generateDynamicSitemap p = true ->
      root (page_after generateDynamicSitemap p) = root p).
Proof.
  intros Hwf. apply well_formed_spec in Hwf as W.
  destruct (body_element p W) as (b & a & ks & Hb & _).
  unfold throws, returns, page_after. rewrite generateDynamicSitemap_run, Hb.
  cbv zeta.
  destruct (render_entries (Str.ordered_set (anchor_hrefs p))) as [es|] eqn:E; simpl.
  - split; [|discriminate]. split; [discriminate|].
    intros (l & Hl & Hn). exfalso.
    assert (Hnone : render_entries (Str.ordered_set (anchor_hrefs p)) = None).
    { apply render_entries_none. exists l. split; [|exact Hn].
      apply ordered_set_In. exact Hl. }
    congruence.
  - split; [|reflexivity]. split; [|reflexivity]. intros _.
    apply render_entries_none in E as (l & Hl & Hn).
    exists l. split; [|exact Hn]. apply ordered_set_In. exact Hl.
Qed.

(** C4, as the code has it: on a page whose anchors all have an [href]
    that parses as a URL, [generateDynamicSitemap] returns and appends one
    block to the body; the list in it has one entry for each distinct
    [href], in the order in which these first occur among the anchors, so
    as many entries as there are distinct values ([0] of them on a page
    without anchors). *)
Theorem generateDynamicSitemap_lists_distinct_hrefs (p : Page) :
  well_formed p = true ->
  forallb (fun l => is_some (url_pathname l)) (anchor_hrefs p) = true ->
  exists b links entries,
    child_with_tag "body" (root p) = Some b
    /\ returns generateDynamicSitemap p = true
    /\ element_kids b (page_after generateDynamicSitemap p)
       = element_kids b p
           ++ [Elem (next_id p) "div"
                 [("class", "hidden-sitemap"); ("style", sitemap_style)]
                 [Markup (sitemap_markup entries)]]
    /\ links = first_occurrences (anchor_hrefs p)
    /\ List.NoDup links
    /\ (forall x, In x links <-> In x (anchor_hrefs p))
    /\ List.length links = distinct_count (anchor_hrefs p)
    /\ distinct_count (anchor_hrefs p) <= List.length (anchor_hrefs p)
    /\ Forall2 (fun link entry =>
                  exists path, url_pathname link = Some path
                               /\ entry = sitemap_entry link path)
               links entries.
Proof.
  intros Hwf Hparse. apply well_formed_spec in Hwf as W.
  destruct (body_element p W) as (b & a & ks & Hb & Hf).
  assert (Hall : Forall (fun l => url_pathname l <> None)
                        (Str.ordered_set (anchor_hrefs p))).
  { apply List.Forall_forall. intros l Hl.
    apply (proj1 (ordered_set_In _ _)) in Hl.
    rewrite forallb_forall in Hparse. specialize (Hparse l Hl).
    destruct (url_pathname l); [discriminate | discriminate Hparse]. }
  apply render_entries_some in Hall as [es Hes].
  exists b, (first_occurrences (anchor_hrefs p)), es.
  assert (Hrun : generateDynamicSitemap p
                 = (with_root (append_child b (sitemap_block (next_id p) es))
                      (mkPage (root p) (title p) (S (next_id p)) (listeners p)
                              (beacons p) (console p)
                              (calls p ++ [CallGenerateDynamicSitemap])), Ret tt)).
  { rewrite generateDynamicSitemap_run. cbv zeta. rewrite Hes, Hb. reflexivity. }
  split; [exact Hb|]. split; [unfold returns; rewrite Hrun; reflexivity|].
  split.
  { unfold page_after. rewrite Hrun.
    apply (element_kids_append_child p _ b _ _ W Hf). reflexivity. }
  split; [reflexivity|]. split; [apply first_occurrences_NoDup|].
  split; [intros x; apply first_occurrences_In|].
  split; [apply first_occurrences_length|].
  split; [apply distinct_count_le|].
  rewrite <- ordered_set_first_occurrences. apply render_entries_map. exact Hes.
Qed.

End BlockClaims.

(** The reader refuses a text that is no JSON text, and reads the escapes
    [JSON.stringify] writes. *)
Example parse_refuses_bare_word : JSONText.parse "{x}" = None.
Proof. vm_compute. reflexivity. Qed.

Example parse_reads_escapes :
  let v := JSON.Arr [JSON.Str (String (ascii_of_nat 10) (String (ascii_of_nat 1) "a\b"));
                     JSON.Num 120; JSON.Obj []; JSON.Arr []] in
  JSONText.parse (JSON.stringify v) = Some v.
Proof. vm_compute. reflexivity. Qed.

Lemma bind_run {A B : Type} (m : JS A) (k : A -> JS B) p q a :
  m p = (q, Ret a) -> bind m k p = k a q.
Proof. intros H. unfold bind. rewrite H. reflexivity. Qed.

Lemma bind_throw {A B : Type} (m : JS A) (k : A -> JS B) p q e :
  m p = (q, Throw e) -> bind m k p = (q, Throw e).
Proof. intros H. unfold bind. rewrite H. reflexivity. Qed.

Lemma WellFormed_update_attrs p p' j f :
  WellFormed p -> root p' = update_attrs j f (root p) -> next_id p <= next_id p' ->
  WellFormed p'.
Proof.
  intros W Hr Hle. constructor; rewrite Hr.
  - rewrite has_tag_update_attrs. apply (wf_html p W).
  - rewrite child_with_tag_update_attrs. apply (wf_head p W).
  - rewrite child_with_tag_update_attrs. apply (wf_body p W).
  - rewrite ids_update_attrs. apply (wf_distinct p W).
  - rewrite ids_update_attrs. intros i Hi. apply (wf_allocated p W) in Hi. lia.
Qed.

Lemma node_kids_update_attrs j f n :
  node_kids (update_attrs j f n) = map (update_attrs j f) (node_kids n).
Proof. destruct n; reflexivity. Qed.

Lemma element_kids_update_attrs h j f p p' :
  root p' = update_attrs j f (root p) ->
  element_kids h p' = map (update_attrs j f) (element_kids h p).
Proof.
  intros Hr. unfold element_kids. rewrite Hr, find_elem_update_attrs.
  destruct (find_elem h (root p)); simpl; [apply node_kids_update_attrs | reflexivity].
Qed.

Lemma map_node_key_update_attrs j f ks :
  map node_key (map (update_attrs j f) ks) = map node_key ks.
Proof.
  rewrite map_map. apply map_ext. intros k. apply node_key_update_attrs.
Qed.

Section Top.

Context {host : Host}.

Lemma emit_schema_run schema p h :
  child_with_tag "head" (root p) = Some h ->
  emit_schema schema p
  = (mkPage (append_child h (schema_block (next_id p) schema) (root p))
            (title p) (S (next_id p)) (listeners p) (beacons p) (console p)
            (calls p), Ret tt).
Proof.
  intros Hh. unfold emit_schema, bind, createElement, document_head, read, deref,
    appendChild, modify, with_root. simpl. rewrite Hh. reflexivity.
Qed.

Lemma tag_section_returns selector p : snd (tag_section selector p) = Ret tt.
Proof.
  unfold tag_section, bind, querySelector, read. simpl.
  destruct (List.head (query selector (root p))); reflexivity.
Qed.

Lemma tag_step_effect q selector :
  tag_step q selector = q
  \/ exists j, tag_step q selector = with_root (update_attrs j set_priority) q.
Proof.
  unfold tag_step, page_after, tag_section, bind, querySelector, read. simpl.
  destruct (List.head (query selector (root q))) as [j|]; [right | left; reflexivity].
  exists j. unfold setAttribute, modify, with_root. simpl.
  rewrite update_attrs_compose. reflexivity.
Qed.

Lemma Retagged_refl p h :
  WellFormed p -> child_with_tag "head" (root p) = Some h -> Retagged p p h.
Proof. intros W Hh. constructor; auto. Qed.

Lemma Retagged_step p q h selector :
  Retagged p q h -> Retagged p (tag_step q selector) h.
Proof.
  intros R. destruct (tag_step_effect q selector) as [->|[j ->]]; [exact R|].
  destruct R as [r1 r2 r3 r4 r5 r6 r7 r8 r9]. constructor; simpl; try assumption.
  - eapply (WellFormed_update_attrs q); [exact r1 | reflexivity | simpl; lia].
  - rewrite child_with_tag_update_attrs. exact r8.
  - rewrite (element_kids_update_attrs h j set_priority q) by reflexivity.
    rewrite map_node_key_update_attrs. exact r9.
Qed.

Lemma WellFormed_logged p cs : WellFormed p -> WellFormed (logged p cs).
Proof. intros W. destruct W. constructor; assumption. Qed.

Lemma new_ContentPrioritizer_run p h :
  WellFormed p -> child_with_tag "head" (root p) = Some h ->
  exists q this,
    new_ContentPrioritizer p = (q, Ret this)
    /\ Retagged (logged p [CallContentPrioritizer; CallAddPriorityTags]) q h.
Proof.
  intros W Hh.
  set (p1 := logged p [CallContentPrioritizer; CallAddPriorityTags]).
  assert (R1 : Retagged p1 p1 h).
  { apply Retagged_refl; [apply WellFormed_logged|]; assumption. }
  set (sels := [ById "about"; ById "portfolio"; ById "services"; ById "testimonials"]).
  pose proof (fold_left_invariant tag_step (fun q => Retagged p1 q h) sels
                (fun x q _ R => Retagged_step p1 q h x R) p1 R1) as R.
  set (q := fold_left tag_step sels p1) in *.
  exists q, {| importantSections := sels |}. split; [|exact R].
  assert (E : addPriorityTags {| importantSections := sels |}
                (page_after (enter CallContentPrioritizer) p) = (q, Ret tt)).
  { unfold addPriorityTags. erewrite bind_run by reflexivity.
    assert (Ep : page_after (enter CallAddPriorityTags)
                   (page_after (enter CallContentPrioritizer) p) = p1).
    { unfold p1, logged, page_after, enter, modify. simpl.
      rewrite <- app_assoc. reflexivity. }
    change (forEach sels tag_section
              (page_after (enter CallAddPriorityTags)
                 (page_after (enter CallContentPrioritizer) p)) = (q, Ret tt)).
    rewrite Ep.
    exact (forEach_total tag_section sels tag_section_returns p1). }
  unfold new_ContentPrioritizer. fold sels.
  erewrite bind_run by reflexivity.
  erewrite bind_run by exact E.
  reflexivity.
Qed.

End Top.

Section ScriptRun.

Context {host : Host}.

Lemma analyzeKeywordDensity_run p b :
  child_with_tag "body" (root p) = Some b ->
  analyzeKeywordDensity p
  = (logged p [CallAnalyzeKeywordDensity],
     Ret (density_of (Str.toLowerCase (text_at b p)))).
Proof.
  intros Hb. unfold analyzeKeywordDensity, bind, enter, modify, document_body,
    read, deref, textContent, ret. simpl. rewrite Hb. reflexivity.
Qed.

Lemma head_element p :
  WellFormed p ->
  exists h a ks, child_with_tag "head" (root p) = Some h
                 /\ find_elem h (root p) = Some (Elem h "head" a ks).
Proof.
  intros W. pose proof (wf_head p W) as H.
  destruct (child_with_tag "head" (root p)) as [h|] eqn:E; [|congruence].
  pose proof (wf_distinct p W) as Hnd. apply NoDup_ListNoDup in Hnd.
  destruct (child_with_tag_find _ _ _ Hnd E) as (a & ks & Hf). eauto.
Qed.

(** One generator, on a well-formed page: the page stays well formed and
    the head has one more child, the script element. *)
Lemma emit_schema_head schema p h :
  WellFormed p -> child_with_tag "head" (root p) = Some h ->
  exists q,
    emit_schema schema p = (q, Ret tt)
    /\ WellFormed q
    /\ child_with_tag "head" (root q) = Some h
    /\ element_kids h q = element_kids h p ++ [schema_block (next_id p) schema]
    /\ next_id q = S (next_id p)
    /\ title q = title p /\ listeners q = listeners p /\ beacons q = beacons p
    /\ console q = console p /\ calls q = calls p.
Proof.
  intros W Hh. eexists. split; [apply (emit_schema_run schema p h Hh)|].
  set (q := mkPage _ _ _ _ _ _ _).
  destruct (head_element p W) as (h' & a & ks & Hh' & Hf).
  rewrite Hh in Hh'. injection Hh' as <-.
  split; [|split; [|split]].
  - apply (WellFormed_append_child p q h (schema_block (next_id p) schema) W).
    + reflexivity.
    + repeat constructor. simpl. tauto.
    + simpl. intros x [<-|[]]. lia.
    + simpl. lia.
  - simpl. apply child_with_tag_append_child. exact Hh.
  - apply (element_kids_append_child p q h _ _ W Hf). reflexivity.
  - repeat split; reflexivity.
Qed.

Lemma logged_emit schema c p q :
  emit_schema schema (logged p [c]) = (q, Ret tt) ->
  (enter c ;; emit_schema schema) p = (q, Ret tt).
Proof. intros H. erewrite bind_run by reflexivity. exact H. Qed.

(** The statements of the script on a well-formed page: the listener is
    registered, the sections are tagged, the report is logged, and the
    three script elements go last in the head. *)
Lemma script_run p :
  WellFormed p ->
  exists q h fin,
    child_with_tag "head" (root p) = Some h
    /\ Retagged (logged (page_after (addEventListener "DOMContentLoaded" ReadyCallback) p)
                        [CallContentPrioritizer; CallAddPriorityTags]) q h
    /\ script p = (fin, Ret tt)
    /\ WellFormed fin
    /\ child_with_tag "head" (root fin) = Some h
    /\ element_kids h fin
       = element_kids h q
           ++ [schema_block (next_id q) person_schema;
               schema_block (S (next_id q)) breadcrumb_schema;
               schema_block (S (S (next_id q))) faq_schema]
    /\ calls fin = calls q ++ [CallAnalyzeKeywordDensity; CallGeneratePersonSchema;
                               CallGenerateBreadcrumbSchema; CallGenerateFAQSchema]
    /\ listeners fin = listeners q
    /\ beacons fin = beacons q
    /\ exists b, child_with_tag "body" (root q) = Some b
                 /\ console fin
                    = console q ++ [("Keyword Density Report:",
                                     density_of (Str.toLowerCase (text_at b q)))].
Proof.
  intros W.
  set (p0 := page_after (addEventListener "DOMContentLoaded" ReadyCallback) p).
  assert (W0 : WellFormed p0) by (destruct W; constructor; assumption).
  destruct (head_element p0 W0) as (h & _ & _ & Hh & _).
  destruct (new_ContentPrioritizer_run p0 h W0 Hh) as (q & this & Eq & R).
  pose proof (rt_wf _ _ _ R) as Wq. pose proof (rt_head _ _ _ R) as Hhq.
  destruct (body_element q Wq) as (b & _ & _ & Hb & _).
  set (qa := logged q [CallAnalyzeKeywordDensity]).
  set (report := density_of (Str.toLowerCase (text_at b q))).
  set (qb := page_after (console_log "Keyword Density Report:" report) qa).
  assert (Wb : WellFormed (logged qb [CallGeneratePersonSchema])).
  { destruct Wq. constructor; assumption. }
  destruct (emit_schema_head person_schema _ h Wb Hhq)
    as (q1 & E1 & W1 & H1 & K1 & N1 & T1 & L1 & B1 & C1 & A1).
  assert (W1' : WellFormed (logged q1 [CallGenerateBreadcrumbSchema])).
  { destruct W1. constructor; assumption. }
  destruct (emit_schema_head breadcrumb_schema _ h W1' H1)
    as (q2 & E2 & W2 & H2 & K2 & N2 & T2 & L2 & B2 & C2 & A2).
  assert (W2' : WellFormed (logged q2 [CallGenerateFAQSchema])).
  { destruct W2. constructor; assumption. }
  destruct (emit_schema_head faq_schema _ h W2' H2)
    as (q3 & E3 & W3 & H3 & K3 & N3 & T3 & L3 & B3 & C3 & A3).
  exists q, h, q3. split; [exact Hh|]. split; [exact R|]. split.
  { unfold script. erewrite bind_run by reflexivity. fold p0.
    erewrite bind_run by exact Eq.
    erewrite bind_run by (apply (analyzeKeywordDensity_run q b Hb)).
    erewrite bind_run by reflexivity. fold report qa qb.
    unfold generatePersonSchema, generateBreadcrumbSchema, generateFAQSchema.
    erewrite bind_run by (apply logged_emit; exact E1).
    erewrite bind_run by (apply logged_emit; exact E2).
    apply logged_emit. exact E3. }
  split; [exact W3|]. split; [exact H3|]. split.
  { unfold element_kids in *. simpl in *. rewrite K3, K2, K1, N2, N1.
    rewrite <- !app_assoc. reflexivity. }
  split. { rewrite A3. simpl. rewrite A2. simpl. rewrite A1. simpl.
           rewrite <- !app_assoc. reflexivity. }
  split. { rewrite L3. simpl. rewrite L2. simpl. rewrite L1. reflexivity. }
  split. { rewrite B3. simpl. rewrite B2. simpl. rewrite B1. reflexivity. }
  exists b. split; [exact Hb|].
  rewrite C3. simpl. rewrite C2. simpl. rewrite C1. reflexivity.
Qed.

End ScriptRun.

(** ** The call log *)

Lemma keeps_ret {A : Type} (a : A) : keeps_calls (ret a).
Proof. intros p. reflexivity. Qed.

Lemma keeps_throw {A : Type} e : keeps_calls (@throw A e).
Proof. intros p. reflexivity. Qed.

Lemma keeps_read {A : Type} (f : Page -> A) : keeps_calls (read f).
Proof. intros p. reflexivity. Qed.

Lemma keeps_deref {A : Type} (o : option A) : keeps_calls (deref o).
Proof. intros p. destruct o; reflexivity. Qed.

Lemma keeps_with_root g : keeps_calls (modify (with_root g)).
Proof. intros p. reflexivity. Qed.

Lemma keeps_createElement t : keeps_calls (createElement t).
Proof. intros p. reflexivity. Qed.

Lemma keeps_bind {A B : Type} (m : JS A) (k : A -> JS B) :
  keeps_calls m -> (forall a, keeps_calls (k a)) -> keeps_calls (bind m k).
Proof.
  intros Hm Hk p. unfold bind. specialize (Hm p).
  destruct (m p) as [q [a|e]]; simpl in *; [|exact Hm].
  rewrite Hk. exact Hm.
Qed.

Lemma keeps_forEach {A : Type} (f : A -> JS unit) l :
  (forall x, keeps_calls (f x)) -> keeps_calls (forEach l f).
Proof.
  intros Hf. induction l as [|x l IH]; simpl; [apply keeps_ret|].
  apply keeps_bind; [apply Hf | intros _; exact IH].
Qed.

Lemma keeps_mapM {A B : Type} (f : A -> JS B) l :
  (forall x, keeps_calls (f x)) -> keeps_calls (mapM f l).
Proof.
  intros Hf. induction l as [|x l IH]; simpl; [apply keeps_ret|].
  apply keeps_bind; [apply Hf | intros y].
  apply keeps_bind; [exact IH | intros ys; apply keeps_ret].
Qed.

Lemma logs_enter {A : Type} c (m : JS unit) :
  keeps_calls m -> logs c (enter c ;; m).
Proof.
  intros Hm p. unfold bind, enter, modify. simpl. rewrite Hm. reflexivity.
Qed.

Create HintDb keeps discriminated.
#[local] Hint Resolve keeps_ret keeps_throw keeps_read keeps_deref keeps_with_root
  keeps_createElement : keeps.

Ltac keeps :=
  repeat first
    [ apply keeps_bind; [|intros ?]
    | apply keeps_forEach; intros ?
    | apply keeps_mapM; intros ?
    | match goal with
      | |- keeps_calls (if ?b then _ else _) => destruct b
      | |- keeps_calls (match ?o with Some _ => _ | None => _ end) => destruct o
      end
    | solve [auto with keeps]
    | intros ?; reflexivity ].

Section Calls.

Context {host : Host}.

Lemma logs_enhanceSemanticStructure :
  logs CallEnhanceSemanticStructure enhanceSemanticStructure.
Proof.
  apply (@logs_enter unit). unfold annotate_item, querySelector, querySelectorAll,
    querySelectorIn, setAttribute, textContent. keeps.
Qed.

Lemma logs_addBotOnlyContent : logs CallAddBotOnlyContent addBotOnlyContent.
Proof.
  apply (@logs_enter unit). unfold document_title, document_body, appendChild. keeps.
Qed.

Lemma logs_optimizeMediaLoading :
  logs CallOptimizeMediaLoading optimizeMediaLoading.
Proof.
  apply (@logs_enter unit). unfold optimize_image, querySelectorAll, attributes,
    setAttribute, removeAttribute, classList_add, insertBefore_sibling. keeps.
Qed.

Lemma logs_generateDynamicSitemap :
  logs CallGenerateDynamicSitemap generateDynamicSitemap.
Proof.
  apply (@logs_enter unit). unfold querySelectorAll, attributes, new_URL_pathname,
    document_body, appendChild. keeps.
Qed.

Lemma logs_sendIndexingSignals : logs CallSendIndexingSignals sendIndexingSignals.
Proof.
  apply (@logs_enter unit). unfold sendBeacon, document_documentElement,
    setAttribute. keeps.
Qed.

Lemma seq_calls (f rest : JS unit) c p :
  logs c f ->
  (returns f p = true
   /\ calls (fst ((f ;; rest) p)) = calls (fst (rest (fst (f p))))
   /\ calls (fst (f p)) = calls p ++ [c]
   /\ returns (f ;; rest) p = returns rest (fst (f p)))
  \/ (returns f p = false
      /\ calls (fst ((f ;; rest) p)) = calls p ++ [c]
      /\ returns (f ;; rest) p = false).
Proof.
  intros Hf. specialize (Hf p). unfold returns, bind.
  destruct (f p) as [q [[]|e]]; simpl in *; [left | right]; auto.
Qed.

Lemma ready_callback_calls p :
  exists k, 1 <= k <= 5
    /\ calls (page_after ready_callback p) = calls p ++ firstn k ready_calls
    /\ (returns ready_callback p = true -> k = 5).
Proof.
  unfold page_after, ready_callback.
  destruct (seq_calls enhanceSemanticStructure
              (addBotOnlyContent ;; optimizeMediaLoading ;;
               generateDynamicSitemap ;; sendIndexingSignals)
              _ p logs_enhanceSemanticStructure) as [(_ & -> & C1 & ->)|(_ & -> & ->)];
    [|exists 1; repeat split; [lia | lia | discriminate]].
  set (p1 := fst (enhanceSemanticStructure p)) in *.
  destruct (seq_calls addBotOnlyContent
              (optimizeMediaLoading ;; generateDynamicSitemap ;; sendIndexingSignals)
              _ p1 logs_addBotOnlyContent) as [(_ & -> & C2 & ->)|(_ & -> & ->)];
    [|exists 2; repeat split; [lia | lia | rewrite C1, <- app_assoc; reflexivity
                              | discriminate]].
  set (p2 := fst (addBotOnlyContent p1)) in *.
  destruct (seq_calls optimizeMediaLoading
              (generateDynamicSitemap ;; sendIndexingSignals)
              _ p2 logs_optimizeMediaLoading) as [(_ & -> & C3 & ->)|(_ & -> & ->)];
    [|exists 3; repeat split; [lia | lia | rewrite C2, C1, <- !app_assoc; reflexivity
                              | discriminate]].
  set (p3 := fst (optimizeMediaLoading p2)) in *.
  destruct (seq_calls generateDynamicSitemap sendIndexingSignals
              _ p3 logs_generateDynamicSitemap) as [(_ & -> & C4 & ->)|(_ & -> & ->)];
    [|exists 4; repeat split; [lia | lia | rewrite C3, C2, C1, <- !app_assoc; reflexivity
                              | discriminate]].
  exists 5. repeat split; [lia | lia |].
  rewrite logs_sendIndexingSignals, C4, C3, C2, C1, <- !app_assoc. reflexivity.
Qed.

End Calls.

(** ** Occurrences of a keyword *)












Section Density.

Context {host : Host}.







End Density.

(** [decodeURIComponent] reads back what [encodeURIComponent] writes. *)
Lemma decode_encode_char c rest :
  URI.decodeURIComponent
    ((if URI.unreserved c then String c EmptyString else URI.escape c) ++ rest)
  = option_map (String c) (URI.decodeURIComponent rest).
Proof. destruct c as [[] [] [] [] [] [] [] []]; reflexivity. Qed.

Lemma decode_encode s :
  URI.decodeURIComponent (URI.encodeURIComponent s) = Some s.
Proof.
  induction s as [|c s IH]; [reflexivity|].
  cbn [URI.encodeURIComponent]. rewrite decode_encode_char, IH. reflexivity.
Qed.

Section TopClaims.

Context {host : Host}.

(** C8: [sendIndexingSignals] returns; it hands the ping URL, which
    carries the encoded location of the sitemap under the origin of the
    page, to [sendBeacon] when the host has [sendBeacon], and sends
    nothing when it has not; either way the root element comes out with
    [data-seo-enhanced] set to [true].  The query of the ping URL decodes
    to the sitemap location. *)
Theorem sendIndexingSignals_pings_and_flags (p : Page) :
  well_formed p = true ->
  returns sendIndexingSignals p = true
  /\ beacons (page_after sendIndexingSignals p)
     = beacons p ++ (if sendBeacon_available then [ping_url] else [])
  /\ Attr.get "data-seo-enhanced"
              (node_attrs (root (page_after sendIndexingSignals p)))
     = Some "true"
  /\ exists query,
      ping_url = ("https://www.google.com/ping?sitemap=" ++ query)%string
      /\ URI.decodeURIComponent query = Some (location_origin ++ "/sitemap.xml")%string.
Proof.
  intros Hwf. apply well_formed_spec in Hwf as W.
  destruct (has_tag_true _ _ (wf_html p W)) as (i & a & ks & Er).
  unfold returns, page_after, sendIndexingSignals, bind, enter, modify,
    document_documentElement, read, deref, setAttribute, sendBeacon, with_root, ping_url.
  assert (Hq : exists query,
             ("https://www.google.com/ping?sitemap="
                ++ URI.encodeURIComponent (location_origin ++ "/sitemap.xml")
              = "https://www.google.com/ping?sitemap=" ++ query)%string
             /\ URI.decodeURIComponent query
                = Some (location_origin ++ "/sitemap.xml")%string).
  { eexists. split; [reflexivity | apply decode_encode]. }
  destruct sendBeacon_available; simpl; rewrite Er; simpl;
    rewrite Nat.eqb_refl, attr_get_set, ?app_nil_r; auto.
Qed.

(** The order of the calls, as the code has it (C2): the statements of
    the file tag the sections, take the keyword report and emit the three
    records, in this order, and register the ready callback; the ready
    signal then runs the callback, which enters the five core functions
    in their order, each one after the ones before it have returned, and
    all five when it returns. *)
Theorem script_runs_before_ready_callback (p : Page) :
  well_formed p = true ->
  listeners p = [] ->
  returns script p = true
  /\ calls (page_after script p) = calls p ++ top_level_calls
  /\ listeners (page_after script p) = [("DOMContentLoaded", ReadyCallback)]
  /\ exists k,
      1 <= k <= 5
      /\ calls (page_load p) = calls p ++ top_level_calls ++ firstn k ready_calls
      /\ (returns ready_callback (page_after script p) = true -> k = 5).
Proof.
  intros Hwf Hl. apply well_formed_spec in Hwf as W.
  destruct (script_run p W)
    as (q & h & fin & _ & R & E & _ & _ & _ & Hc & Hli & _).
  assert (Hfin : page_after script p = fin) by (unfold page_after; rewrite E; reflexivity).
  assert (Hcalls : calls fin = calls p ++ top_level_calls).
  { rewrite Hc, (rt_calls _ _ _ R). simpl. rewrite <- app_assoc. reflexivity. }
  assert (Hlist : listeners fin = [("DOMContentLoaded", ReadyCallback)]).
  { rewrite Hli, (rt_listeners _ _ _ R). simpl. rewrite Hl. reflexivity. }
  split; [unfold returns; rewrite E; reflexivity|].
  rewrite Hfin. split; [exact Hcalls|]. split; [exact Hlist|].
  destruct (ready_callback_calls fin) as (k & Hk & Hck & Hret).
  exists k. split; [exact Hk|]. split; [|exact Hret].
  unfold page_load, dispatch. rewrite Hfin, Hlist. simpl.
  rewrite Hck, Hcalls, <- app_assoc. reflexivity.
Qed.

End TopClaims.

(** ** A host and pages to run the script on *)

(** ** Inserting a sibling *)

Lemma insert_before_kids_absent j new n :
  ~ In j (flat_map ids (node_kids n)) -> insert_before j new n = n.
Proof.
  destruct n as [i t a ks| |]; try reflexivity. simpl. intros Hj. f_equal.
  induction ks as [|k ks IH]; [reflexivity|].
  simpl in Hj. rewrite in_app_iff in Hj. rewrite put_before_cons.
  rewrite (not_in_ids_has_id j k) by tauto.
  rewrite insert_before_absent by tauto. simpl. rewrite IH by tauto. reflexivity.
Qed.

Lemma put_before_absent j new ks :
  ~ In j (flat_map ids ks) ->
  put_before (has_id j) new (insert_before j new) ks = ks.
Proof.
  intros Hj.
  pose proof (insert_before_kids_absent j new (Elem 0 EmptyString [] ks) Hj) as H.
  simpl in H. injection H as H. exact H.
Qed.

Lemma ids_insert_before_In j new n x :
  In x (ids (insert_before j new n)) -> In x (ids n) \/ In x (ids new).
Proof.
  induction n as [i t a ks IH| |] using Node_ind'; simpl; try tauto.
  intros [->|Hin]; [auto|].
  induction IH as [|k ks Hk _ IHks]; [simpl in Hin; tauto|].
  rewrite put_before_cons, flat_map_app, in_app_iff in Hin. simpl.
  rewrite in_app_iff.
  destruct Hin as [Hin|Hin]; [|destruct (IHks Hin); tauto].
  destruct (has_id j k); simpl in Hin; rewrite ?app_nil_r, ?in_app_iff in Hin.
  - destruct Hin as [Hin|Hin]; [tauto | destruct (Hk Hin); tauto].
  - destruct (Hk Hin); tauto.
Qed.

Lemma ids_put_before_In j new ks x :
  In x (flat_map ids (put_before (has_id j) new (insert_before j new) ks)) ->
  In x (flat_map ids ks) \/ In x (ids new).
Proof.
  intros Hin.
  pose proof (ids_insert_before_In j new (Elem 0 EmptyString [] ks) x) as H.
  cbn [insert_before ids] in H.
  destruct (Nat.eq_dec 0 x) as [<-|Hne].
  - (* through the list itself, the auxiliary root apart *)
    clear H. induction ks as [|k ks IH]; [simpl in Hin; tauto|].
    rewrite put_before_cons, flat_map_app, in_app_iff in Hin. simpl.
    rewrite in_app_iff. destruct Hin as [Hin|Hin]; [|destruct (IH Hin); tauto].
    destruct (has_id j k); simpl in Hin; rewrite ?app_nil_r, ?in_app_iff in Hin.
    + destruct Hin as [Hin|Hin]; [tauto|].
      destruct (ids_insert_before_In _ _ _ _ Hin); tauto.
    + destruct (ids_insert_before_In _ _ _ _ Hin); tauto.
  - destruct H as [[H|H]|H]; [right; exact Hin | congruence | auto | auto].
Qed.

Lemma has_id_In j k : has_id j k = true -> In j (ids k).
Proof.
  intros H. destruct (has_id_true _ _ H) as (t & a & ks & ->). simpl. auto.
Qed.

Lemma NoDup_ids_put_before j new ks :
  Forall (fun n => List.NoDup (ids n) -> List.NoDup (ids (insert_before j new n))) ks ->
  List.NoDup (flat_map ids ks) -> List.NoDup (ids new) ->
  (forall x, In x (ids new) -> ~ In x (flat_map ids ks)) ->
  List.NoDup (flat_map ids (put_before (has_id j) new (insert_before j new) ks)).
Proof.
  intros IH. induction IH as [|k ks Hk _ IHks]; intros Hnd Hnew Hfresh; [constructor|].
  simpl in Hnd. apply NoDup_app_inv in Hnd as (Hk1 & Hk2 & Hd).
  assert (Hfk : forall x, In x (ids new) -> ~ In x (ids k)).
  { intros x Hx Hin. apply (Hfresh x Hx). simpl. apply in_or_app. auto. }
  assert (Hfks : forall x, In x (ids new) -> ~ In x (flat_map ids ks)).
  { intros x Hx Hin. apply (Hfresh x Hx). simpl. apply in_or_app. auto. }
  rewrite put_before_cons, flat_map_app.
  destruct (in_dec Nat.eq_dec j (ids k)) as [Hjk|Hjk].
  - (* the insertion is inside [k] or just before it: the rest is as it was *)
    rewrite (put_before_absent j new ks) by (apply Hd; exact Hjk).
    destruct (has_id j k) eqn:E.
    + destruct (has_id_true _ _ E) as (t & a & ks' & ->).
      simpl in Hk1. inversion Hk1 as [|? ? Hj' _]; subst.
      rewrite (insert_before_kids_absent j new (Elem j t a ks')) by exact Hj'.
      cbn [flat_map]. rewrite app_nil_r.
      apply NoDup_app_disjoint; [|exact Hk2|].
      * apply NoDup_app_disjoint; [exact Hnew | exact Hk1 |].
        intros x Hx Hin. exact (Hfk x Hx Hin).
      * intros x Hx Hin. apply in_app_or in Hx as [Hx|Hx].
        -- exact (Hfks x Hx Hin).
        -- exact (Hd x Hx Hin).
    + cbn [flat_map]. rewrite app_nil_r.
      apply NoDup_app_disjoint; [auto | exact Hk2 |].
      intros x Hx Hin. apply ids_insert_before_In in Hx as [Hx|Hx].
      * exact (Hd x Hx Hin).
      * exact (Hfks x Hx Hin).
  - rewrite (not_in_ids_has_id j k Hjk), insert_before_absent by exact Hjk.
    simpl. rewrite app_nil_r.
    apply NoDup_app_disjoint; [exact Hk1 | apply IHks; assumption |].
    intros x Hx Hin.
    assert (Hor : In x (flat_map ids ks) \/ In x (ids new)).
    { clear - Hin. induction ks as [|k' ks IH]; [simpl in Hin; tauto|].
      rewrite put_before_cons, flat_map_app, in_app_iff in Hin. simpl.
      rewrite in_app_iff. destruct Hin as [Hin|Hin]; [|destruct (IH Hin); tauto].
      destruct (has_id j k'); simpl in Hin; rewrite ?app_nil_r, ?in_app_iff in Hin.
      - destruct Hin as [Hin|Hin]; [tauto|].
        destruct (ids_insert_before_In _ _ _ _ Hin); tauto.
      - destruct (ids_insert_before_In _ _ _ _ Hin); tauto. }
    destruct Hor as [Hor|Hor]; [exact (Hd x Hx Hor) | exact (Hfk x Hor Hx)].
Qed.

(** Inserting a node made of new objects keeps the objects distinct. *)
Lemma NoDup_ids_insert_before j new n :
  List.NoDup (ids n) -> List.NoDup (ids new) ->
  (forall x, In x (ids new) -> ~ In x (ids n)) ->
  List.NoDup (ids (insert_before j new n)).
Proof.
  induction n as [i t a ks IH| |] using Node_ind'; try (intros; assumption).
  intros Hnd Hnew Hfresh. inversion Hnd as [|? ? Hi Hks]; subst.
  assert (Hf : forall x, In x (ids new) -> ~ In x (flat_map ids ks)).
  { intros x Hx Hin. apply (Hfresh x Hx). simpl. auto. }
  cbn [insert_before ids]. constructor.
  - intros Hin. apply ids_put_before_In in Hin as [Hin|Hin]; [exact (Hi Hin)|].
    apply (Hfresh i Hin). simpl. auto.
  - apply NoDup_ids_put_before; try assumption.
    rewrite List.Forall_forall in *. intros k Hk Hndk.
    apply (IH k Hk Hndk Hnew). intros x Hx Hin.
    apply (Hf x Hx). apply in_flat_map. eauto.
Qed.

Lemma has_tag_insert_before t j new n :
  has_tag t (insert_before j new n) = has_tag t n.
Proof. destruct n; reflexivity. Qed.

Lemma child_with_tag_insert_before t j new n :
  has_tag t new = false ->
  child_with_tag t (insert_before j new n) = child_with_tag t n.
Proof.
  intros Hnew. destruct n as [i t0 a ks| |]; try reflexivity.
  unfold child_with_tag. cbn [insert_before node_kids].
  rewrite first_some_put_before.
  - apply first_some_ext. apply List.Forall_forall. intros k _. destruct k; reflexivity.
  - destruct new as [i' t' ? ?| |]; try reflexivity.
    unfold has_tag in Hnew. rewrite Hnew. reflexivity.
Qed.

(** A page stays well formed when a node made of new objects, which is
    neither a head nor a body, is inserted before one of its elements. *)
Lemma WellFormed_insert_before p p' j new :
  WellFormed p ->
  root p' = insert_before j new (root p) ->
  has_tag "head" new = false -> has_tag "body" new = false ->
  List.NoDup (ids new) ->
  (forall x, In x (ids new) -> next_id p <= x < next_id p') ->
  next_id p <= next_id p' ->
  WellFormed p'.
Proof.
  intros W Hr Hh Hb Hnew Hfresh Hle.
  assert (Hout : forall x, In x (ids new) -> ~ In x (ids (root p))).
  { intros x Hx Hin. apply (wf_allocated p W) in Hin. apply Hfresh in Hx. lia. }
  constructor; rewrite Hr.
  - rewrite has_tag_insert_before. apply (wf_html p W).
  - rewrite child_with_tag_insert_before by exact Hh. apply (wf_head p W).
  - rewrite child_with_tag_insert_before by exact Hb. apply (wf_body p W).
  - apply NoDup_ListNoDup. apply NoDup_ids_insert_before; [|assumption..].
    apply NoDup_ListNoDup. apply (wf_distinct p W).
  - intros i Hi. apply ids_insert_before_In in Hi as [Hi|Hi].
    + apply (wf_allocated p W) in Hi. lia.
    + apply Hfresh in Hi. lia.
Qed.

Lemma find_elem_append_child_other h b new n :
  h <> b -> ~ In h (ids new) ->
  find_elem h (append_child b new n) = option_map (append_child b new) (find_elem h n).
Proof.
  intros Hne Hnew. unfold append_child.
  induction n as [i t a ks IH| |] using Node_ind'; simpl; try reflexivity.
  destruct (Nat.eqb_spec h i) as [->|Hhi]; [reflexivity|].
  assert (Hmap : first_some (find_elem h)
                   (map (update_kids b (fun ks0 => ks0 ++ [new])) ks)
                 = option_map (update_kids b (fun ks0 => ks0 ++ [new]))
                              (first_some (find_elem h) ks)).
  { rewrite first_some_map, <- first_some_option_map.
    apply first_some_ext. exact IH. }
  destruct (Nat.eqb b i); [|exact Hmap].
  rewrite first_some_app, Hmap.
  destruct (first_some (find_elem h) ks); simpl; [reflexivity|].
  rewrite (find_elem_absent h new Hnew). reflexivity.
Qed.

Lemma find_elem_elements i n e : find_elem i n = Some e -> In e (elements n).
Proof.
  revert e. induction n as [j t a ks IH| |] using Node_ind';
    try (intros e H; simpl in H; discriminate H).
  intros e. cbn [find_elem elements]. destruct (Nat.eqb i j).
  - intros [= <-]. left. reflexivity.
  - intros H. right. apply first_some_found in H as (k & Hk & Hf).
    apply in_flat_map. exists k. split; [exact Hk|].
    rewrite List.Forall_forall in IH. apply (IH k Hk e Hf).
Qed.

Lemma elements_sub e n x : In e (elements n) -> In x (elements e) -> In x (elements n).
Proof.
  induction n as [j t a ks IH| |] using Node_ind'; simpl; try tauto.
  intros [<-|Hin] Hx; [exact Hx|].
  right. apply in_flat_map in Hin as (k & Hk & He).
  apply in_flat_map. exists k. split; [exact Hk|].
  rewrite List.Forall_forall in IH. apply (IH k Hk He Hx).
Qed.

Lemma In_put_before here new (g : Node -> Node) ks x :
  In x ks -> In (g x) (put_before here new g ks).
Proof.
  induction ks as [|k ks IH]; [tauto|].
  rewrite put_before_cons. intros [<-|Hin]; apply in_or_app.
  - left. destruct (here k); simpl; auto.
  - right. apply IH. exact Hin.
Qed.

Lemma node_kids_insert_before j new n :
  node_kids (insert_before j new n)
  = put_before (has_id j) new (insert_before j new) (node_kids n).
Proof. destruct n; reflexivity. Qed.

Section Preserved.

Context {host : Host}.

Lemma schema_update_attrs json h j f q q' :
  root q' = update_attrs j f (root q) ->
  (forall a, Attr.get "type" (f a) = Attr.get "type" a) ->
  schema_in_head json h q -> schema_in_head json h q'.
Proof.
  intros Hr Hf (n & a & Hin & Ht). unfold schema_in_head.
  rewrite (element_kids_update_attrs h j f q q' Hr).
  exists n, (if Nat.eqb j n then f a else a). split.
  - apply (in_map (update_attrs j f)) in Hin. exact Hin.
  - destruct (Nat.eqb j n); [rewrite Hf|]; exact Ht.
Qed.

Lemma schema_insert_before json h j new q q' :
  root q' = insert_before j new (root q) -> ~ In h (ids new) ->
  schema_in_head json h q -> schema_in_head json h q'.
Proof.
  intros Hr Hnew (n & a & Hin & Ht). exists n, a. split; [|exact Ht].
  unfold element_kids in *. rewrite Hr, find_elem_insert_before by exact Hnew.
  destruct (find_elem h (root q)) as [e|]; [|destruct Hin]. simpl.
  rewrite node_kids_insert_before.
  apply (In_put_before (has_id j) new (insert_before j new)) in Hin. exact Hin.
Qed.

Lemma Emitted_same h jsons q q' :
  root q' = root q -> next_id q <= next_id q' ->
  Emitted h jsons q -> Emitted h jsons q'.
Proof.
  intros Hr Hn [W Hh Hb]. constructor.
  - destruct W as [w1 w2 w3 w4 w5]. constructor; rewrite ?Hr; try assumption.
    intros i Hi. specialize (w5 i Hi). lia.
  - rewrite Hr. exact Hh.
  - eapply List.Forall_impl; [|exact Hb]. intros json (n & a & Hin & Ht).
    exists n, a. unfold element_kids in *. rewrite Hr. auto.
Qed.

Lemma Emitted_update_attrs h jsons j f q q' :
  root q' = update_attrs j f (root q) -> next_id q <= next_id q' ->
  (forall a, Attr.get "type" (f a) = Attr.get "type" a) ->
  Emitted h jsons q -> Emitted h jsons q'.
Proof.
  intros Hr Hn Hf [W Hh Hb]. constructor.
  - exact (WellFormed_update_attrs q q' j f W Hr Hn).
  - rewrite Hr, child_with_tag_update_attrs. exact Hh.
  - eapply List.Forall_impl; [|exact Hb]. intros json.
    apply (schema_update_attrs json h j f q q' Hr Hf).
Qed.

Lemma Emitted_insert_before h jsons j n0 a q q' :
  root q' = insert_before j (fallback n0 a) (root q) ->
  n0 = next_id q -> next_id q' = S (S (next_id q)) ->
  Emitted h jsons q -> Emitted h jsons q'.
Proof.
  intros Hr -> Hn [W Hh Hb].
  assert (Hhn : ~ In h (ids (fallback (next_id q) a))).
  { apply not_in_fallback. apply (wf_allocated q W).
    pose proof (wf_distinct q W) as Hnd. apply NoDup_ListNoDup in Hnd.
    destruct (child_with_tag_find _ _ _ Hnd Hh) as (ah & ks & Hf).
    apply (find_elem_In _ _ _ Hf). }
  constructor.
  - apply (WellFormed_insert_before q q' j (fallback (next_id q) a) W Hr);
      try reflexivity.
    + repeat constructor; simpl; intuition lia.
    + rewrite ids_fallback. simpl. intros x [<-|[<-|[]]]; lia.
    + lia.
  - rewrite Hr, child_with_tag_insert_before by reflexivity. exact Hh.
  - eapply List.Forall_impl; [|exact Hb]. intros json.
    apply (schema_insert_before json h j _ q q' Hr Hhn).
Qed.

Lemma Emitted_append_to_body h jsons b new q q' :
  root q' = append_child b new (root q) ->
  child_with_tag "body" (root q) = Some b ->
  ids new = [next_id q] -> next_id q' = S (next_id q) ->
  Emitted h jsons q -> Emitted h jsons q'.
Proof.
  intros Hr Hbody Hnew Hn [W Hh Hb].
  pose proof (wf_distinct q W) as Hnd. apply NoDup_ListNoDup in Hnd.
  destruct (child_with_tag_find _ _ _ Hnd Hh) as (ah & ksh & Hfh).
  destruct (child_with_tag_find _ _ _ Hnd Hbody) as (ab & ksb & Hfb).
  assert (Hhb : h <> b).
  { intros ->. rewrite Hfh in Hfb. discriminate Hfb. }
  assert (Hhn : ~ In h (ids new)).
  { rewrite Hnew. simpl. intros [Heq|[]].
    pose proof (wf_allocated q W h (find_elem_In _ _ _ Hfh)). lia. }
  constructor.
  - apply (WellFormed_append_child q q' b new W Hr).
    + rewrite Hnew. repeat constructor. simpl. tauto.
    + rewrite Hnew. simpl. intros x [<-|[]]. lia.
    + lia.
  - rewrite Hr. apply child_with_tag_append_child. exact Hh.
  - eapply List.Forall_impl; [|exact Hb]. intros json (n & a & Hin & Ht).
    exists n, a. split; [|exact Ht].
    unfold element_kids in *. rewrite Hr.
    rewrite find_elem_append_child_other by assumption.
    rewrite Hfh in *. simpl in *.
    destruct (Nat.eqb_spec b h) as [->|_]; [congruence|].
    assert (Hbn : b <> n).
    { intros ->.
      assert (Hx : In (Elem n "script" a [Text json]) (elements (root q))).
      { apply (elements_sub (Elem h "head" ah ksh)).
        - apply (find_elem_elements _ _ _ Hfh).
        - simpl. right. apply in_flat_map. eexists. split; [exact Hin|].
          simpl. auto. }
      pose proof (elements_find _ _ n Hnd Hx (Nat.eqb_refl n)) as Hfn.
      rewrite Hfn in Hfb. discriminate Hfb. }
    apply (in_map (update_kids b (fun ks0 => ks0 ++ [new]))) in Hin.
    simpl in Hin. apply Nat.eqb_neq in Hbn. rewrite Hbn in Hin. exact Hin.
Qed.

End Preserved.

Lemma preserves_ret {A : Type} (I : Page -> Prop) (a : A) : preserves I (ret a).
Proof. intros p H. exact H. Qed.

Lemma preserves_throw {A : Type} (I : Page -> Prop) e : preserves I (@throw A e).
Proof. intros p H. exact H. Qed.

Lemma preserves_read {A : Type} (I : Page -> Prop) (f : Page -> A) :
  preserves I (read f).
Proof. intros p H. exact H. Qed.

Lemma preserves_deref {A : Type} (I : Page -> Prop) (o : option A) :
  preserves I (deref o).
Proof. intros p H. destruct o; exact H. Qed.

Lemma preserves_bind {A B : Type} (I : Page -> Prop) (m : JS A) (k : A -> JS B) :
  preserves I m -> (forall a, preserves I (k a)) -> preserves I (bind m k).
Proof.
  intros Hm Hk p H. unfold bind. specialize (Hm p H).
  destruct (m p) as [q [a|e]]; simpl in *; [|exact Hm].
  apply Hk. exact Hm.
Qed.

Lemma preserves_forEach {A : Type} (I : Page -> Prop) (f : A -> JS unit) l :
  (forall x, preserves I (f x)) -> preserves I (forEach l f).
Proof.
  intros Hf. induction l as [|x l IH]; simpl; [apply preserves_ret|].
  apply preserves_bind; [apply Hf | intros _; exact IH].
Qed.

Section Callback.

Context {host : Host}.
Variables (h : Ref) (jsons : list string).

Lemma preserves_enter c : preserves (Emitted h jsons) (enter c).
Proof. intros p H. apply (Emitted_same h jsons p); [reflexivity | simpl; lia | exact H]. Qed.

Lemma preserves_sendBeacon url : preserves (Emitted h jsons) (sendBeacon url).
Proof. intros p H. apply (Emitted_same h jsons p); [reflexivity | simpl; lia | exact H]. Qed.

Lemma preserves_setAttribute e k v :
  String.eqb "type" k = false -> preserves (Emitted h jsons) (setAttribute e k v).
Proof.
  intros Hk p H.
  apply (Emitted_update_attrs h jsons e (Attr.set k v) p); [reflexivity | simpl; lia | | exact H].
  intros a. rewrite attr_get_set, Hk. reflexivity.
Qed.

Lemma preserves_enhanceSemanticStructure :
  preserves (Emitted h jsons) enhanceSemanticStructure.
Proof.
  unfold enhanceSemanticStructure, annotate_item, querySelector, querySelectorAll,
    querySelectorIn, textContent.
  repeat first
    [ apply preserves_bind; [|intros ?]
    | apply preserves_forEach; intros ?
    | apply preserves_enter
    | apply preserves_read
    | apply preserves_deref
    | apply preserves_setAttribute; reflexivity ].
Qed.

Lemma preserves_sendIndexingSignals :
  preserves (Emitted h jsons) sendIndexingSignals.
Proof.
  unfold sendIndexingSignals, document_documentElement.
  repeat first
    [ apply preserves_bind; [|intros ?]
    | apply preserves_enter
    | apply preserves_read
    | apply preserves_deref
    | apply preserves_ret
    | apply preserves_sendBeacon
    | apply preserves_setAttribute; reflexivity
    | match goal with |- preserves _ (if ?b then _ else _) => destruct b end ].
Qed.

Lemma preserves_addBotOnlyContent :
  preserves (Emitted h jsons) addBotOnlyContent.
Proof.
  intros p H. destruct (body_element p (em_wf _ _ _ H)) as (b & _ & _ & Hb & _).
  rewrite (addBotOnlyContent_run p b Hb). simpl.
  apply (Emitted_append_to_body h jsons b (bot_block (next_id p) (title p)) p);
    try reflexivity; assumption.
Qed.

Lemma lazy_attrs_type src a :
  Attr.get "type" (lazy_attrs src a) = Attr.get "type" a.
Proof.
  unfold lazy_attrs, Attr.class_add.
  rewrite attr_get_set, attr_get_remove, attr_get_set. reflexivity.
Qed.

Lemma Emitted_optimize_step q img :
  Emitted h jsons q -> Emitted h jsons (optimize_step q img).
Proof.
  intros H. destruct (truthy (loading_of (attrs_at img q))) eqn:E.
  - rewrite optimize_step_marked by exact E. exact H.
  - rewrite optimize_step_unmarked by exact E.
    set (src := src_of (attrs_at img q)).
    set (qm := with_root (update_attrs img (lazy_attrs src)) q).
    assert (Hm : Emitted h jsons qm).
    { apply (Emitted_update_attrs h jsons img (lazy_attrs src) q);
        [reflexivity | simpl; lia | apply lazy_attrs_type | exact H]. }
    apply (Emitted_insert_before h jsons img (next_id q) (attrs_at img q) qm);
      [reflexivity | reflexivity | reflexivity | exact Hm].
Qed.

Lemma preserves_optimizeMediaLoading :
  preserves (Emitted h jsons) optimizeMediaLoading.
Proof.
  intros p H. rewrite optimizeMediaLoading_run. simpl.
  apply fold_left_invariant.
  - intros x q _ Hq. apply Emitted_optimize_step. exact Hq.
  - apply (preserves_enter CallOptimizeMediaLoading p H).
Qed.

Lemma preserves_generateDynamicSitemap :
  preserves (Emitted h jsons) generateDynamicSitemap.
Proof.
  intros p H. rewrite generateDynamicSitemap_run. cbv zeta.
  destruct (body_element p (em_wf _ _ _ H)) as (b & _ & _ & Hb & _).
  rewrite Hb.
  destruct (render_entries (Str.ordered_set (anchor_hrefs p))) as [es|]; simpl.
  - apply (Emitted_append_to_body h jsons b (sitemap_block (next_id p) es) p);
      try reflexivity; assumption.
  - apply (Emitted_same h jsons p); [reflexivity | simpl; lia | exact H].
Qed.

Lemma preserves_ready_callback : preserves (Emitted h jsons) ready_callback.
Proof.
  unfold ready_callback.
  apply preserves_bind; [apply preserves_enhanceSemanticStructure | intros _].
  apply preserves_bind; [apply preserves_addBotOnlyContent | intros _].
  apply preserves_bind; [apply preserves_optimizeMediaLoading | intros _].
  apply preserves_bind; [apply preserves_generateDynamicSitemap | intros _].
  apply preserves_sendIndexingSignals.
Qed.

Lemma Emitted_dispatch ev p : Emitted h jsons p -> Emitted h jsons (dispatch ev p).
Proof.
  intros H. unfold dispatch.
  generalize (listeners p). intros ls. revert p H.
  induction ls as [|[ev' l] ls IH]; intros p H; simpl; [exact H|].
  apply IH. destruct (String.eqb ev ev'); [|exact H].
  destruct l. apply preserves_ready_callback. exact H.
Qed.

End Callback.

Section Loaded.

Context {host : Host}.

(** The three script elements are in the head when the ready callback
    has run, whether it returned or threw. *)
Lemma page_load_emitted p :
  WellFormed p ->
  exists h,
    child_with_tag "head" (root p) = Some h
    /\ Emitted h [JSON.stringify person_schema; JSON.stringify breadcrumb_schema;
                  JSON.stringify faq_schema] (page_load p).
Proof.
  intros W.
  destruct (script_run p W) as (q & h & fin & Hp & R & E & Wf & Hh & Hk & _).
  exists h. split; [exact Hp|].
  unfold page_load. apply Emitted_dispatch.
  unfold page_after. rewrite E. simpl. constructor; [exact Wf | exact Hh |].
  unfold schema_block in Hk.
  repeat constructor; eexists _, _; (split; [rewrite Hk; apply in_or_app; right; simpl; eauto | reflexivity]).
Qed.

(** C9: when the statements of the script have run, the head ends with
    three script elements of type [application/ld+json], one per
    generator and each a new object; the text of each is a well-formed
    JSON text that reads back as the record it was made from, whose
    [@type] is [Person], [BreadcrumbList] and [FAQPage] in this order.
    The three are still in the head when the ready callback has run,
    whether it returned or threw. *)
Theorem script_emits_structured_data (p : Page) :
  well_formed p = true ->
  exists h earlier n1 n2 n3,
    child_with_tag "head" (root p) = Some h
    /\ returns script p = true
    /\ element_kids h (page_after script p)
       = earlier
           ++ [Elem n1 "script" [("type", "application/ld+json")]
                 [Text (JSON.stringify person_schema)];
               Elem n2 "script" [("type", "application/ld+json")]
                 [Text (JSON.stringify breadcrumb_schema)];
               Elem n3 "script" [("type", "application/ld+json")]
                 [Text (JSON.stringify faq_schema)]]
    /\ map node_key earlier = map node_key (element_kids h p)
    /\ n1 <> n2 /\ n2 <> n3 /\ n1 <> n3
    /\ JSONText.parse (JSON.stringify person_schema) = Some person_schema
    /\ JSONText.parse (JSON.stringify breadcrumb_schema) = Some breadcrumb_schema
    /\ JSONText.parse (JSON.stringify faq_schema) = Some faq_schema
    /\ JSON.field "@type" person_schema = Some (JSON.Str "Person")
    /\ JSON.field "@type" breadcrumb_schema = Some (JSON.Str "BreadcrumbList")
    /\ JSON.field "@type" faq_schema = Some (JSON.Str "FAQPage")
    /\ (forall json,
          In json [JSON.stringify person_schema; JSON.stringify breadcrumb_schema;
                   JSON.stringify faq_schema] ->
          schema_in_head json h (page_load p)).
Proof.
  intros Hwf. apply well_formed_spec in Hwf as W.
  destruct (script_run p W) as (q & h & fin & Hp & R & E & Wf & Hh & Hk & _).
  exists h, (element_kids h q), (next_id q), (S (next_id q)), (S (S (next_id q))).
  split; [exact Hp|].
  split; [unfold returns; rewrite E; reflexivity|].
  split; [unfold page_after; rewrite E; exact Hk|].
  split; [exact (rt_kids _ _ _ R)|].
  assert (Hload : forall json,
             In json [JSON.stringify person_schema; JSON.stringify breadcrumb_schema;
                      JSON.stringify faq_schema] ->
             schema_in_head json h (page_load p)).
  { destruct (page_load_emitted p W) as (h' & Hp' & Hem).
    rewrite Hp in Hp'. injection Hp' as <-.
    intros json Hin. pose proof (em_blocks _ _ _ Hem) as Hb.
    rewrite List.Forall_forall in Hb. exact (Hb json Hin). }
  repeat split; try lia; try exact Hload; vm_compute; reflexivity.
Qed.

End Loaded.

(** ** The claims on the demonstration pages *)

Section OnDemo.

#[local] Existing Instance Demo.host.

(** C1: [enhanceSemanticStructure] throws on a page without a [main]
    element, and on a page with a portfolio entry without a heading, which
    it leaves without a label. *)
Theorem enhanceSemanticStructure_throws_on_missing_elements :
  enhanceSemanticStructure Demo.without_main
  = (logged Demo.without_main [CallEnhanceSemanticStructure], Throw TypeError)
  /\ throws enhanceSemanticStructure Demo.without_heading = true
  /\ Attr.get "aria-label"
              (attrs_at 6 (page_after enhanceSemanticStructure Demo.without_heading))
     = None.
Proof. repeat split; vm_compute; reflexivity. Qed.

(** The same loop over the sections in [addPriorityTags] skips what it
    does not find. *)
Example addPriorityTags_skips_missing_sections :
  returns new_ContentPrioritizer Demo.without_main = true
  /\ root (page_after new_ContentPrioritizer Demo.without_main)
     = root Demo.without_main.
Proof. split; vm_compute; reflexivity. Qed.

(** Against C2 as stated: the ready signal runs five functions; the
    priority tagging and the keyword report have run before it, with the
    statements of the file. *)
Lemma ready_signal_runs_five_steps :
  calls (page_after script Demo.portfolio) = top_level_calls
  /\ calls (page_load Demo.portfolio) = top_level_calls ++ ready_calls
  /\ ~ In CallAddPriorityTags ready_calls
  /\ ~ In CallAnalyzeKeywordDensity ready_calls.
Proof.
  split; [vm_compute; reflexivity|]. split; [vm_compute; reflexivity|].
  split; simpl; intuition discriminate.
Qed.

Lemma script_runs_before_ready_callback_witness :
  well_formed Demo.portfolio = true
  /\ listeners Demo.portfolio = []
  /\ returns script Demo.portfolio = true
  /\ calls (page_after script Demo.portfolio) = calls Demo.portfolio ++ top_level_calls
  /\ listeners (page_after script Demo.portfolio) = [("DOMContentLoaded", ReadyCallback)]
  /\ exists k,
      1 <= k <= 5
      /\ calls (page_load Demo.portfolio)
         = calls Demo.portfolio ++ top_level_calls ++ firstn k ready_calls
      /\ (returns ready_callback (page_after script Demo.portfolio) = true -> k = 5).
Proof.
  split; [reflexivity|]. split; [reflexivity|].
  apply (script_runs_before_ready_callback Demo.portfolio); reflexivity.
Defined.

(** Against C3 as stated: with one [href] that is no URL the pass throws,
    and the anchor after it is not rendered either: the body is as it
    was. *)
Lemma malformed_href_aborts_sitemap :
  anchor_hrefs Demo.broken_link = ["http://"; "https://example.com/work"]
  /\ url_pathname "http://" = None
  /\ throws generateDynamicSitemap Demo.broken_link = true
  /\ element_kids 3 (page_after generateDynamicSitemap Demo.broken_link)
     = element_kids 3 Demo.broken_link.
Proof. repeat split; vm_compute; reflexivity. Qed.

Lemma generateDynamicSitemap_throws_iff_malformed_witness :
  well_formed Demo.broken_link = true
  /\ (throws generateDynamicSitemap Demo.broken_link = true
      <-> exists l, In l (anchor_hrefs Demo.broken_link) /\ url_pathname l = None)
  /\ (throws generateDynamicSitemap Demo.broken_link = true ->
      root (page_after generateDynamicSitemap Demo.broken_link)
      = root Demo.broken_link).
Proof.
  split; [reflexivity|].
  apply (generateDynamicSitemap_throws_iff_malformed Demo.broken_link). reflexivity.
Defined.

(** Against C4 as stated: a page with one anchor and one distinct [href],
    which is no URL, gets no block, and an error is raised. *)
Lemma sitemap_not_appended_for_malformed_href :
  List.length (anchor_hrefs Demo.only_broken_link) = 1
  /\ distinct_count (anchor_hrefs Demo.only_broken_link) = 1
  /\ returns generateDynamicSitemap Demo.only_broken_link = false
  /\ root (page_after generateDynamicSitemap Demo.only_broken_link)
     = root Demo.only_broken_link.
Proof. repeat split; vm_compute; reflexivity. Qed.

Lemma generateDynamicSitemap_lists_distinct_hrefs_witness :
  well_formed Demo.portfolio = true
  /\ forallb (fun l => is_some (url_pathname l)) (anchor_hrefs Demo.portfolio) = true
  /\ exists b links entries,
      child_with_tag "body" (root Demo.portfolio) = Some b
      /\ returns generateDynamicSitemap Demo.portfolio = true
      /\ element_kids b (page_after generateDynamicSitemap Demo.portfolio)
         = element_kids b Demo.portfolio
             ++ [Elem (next_id Demo.portfolio) "div"
                   [("class", "hidden-sitemap"); ("style", sitemap_style)]
                   [Markup (sitemap_markup entries)]]
      /\ links = first_occurrences (anchor_hrefs Demo.portfolio)
      /\ List.NoDup links
      /\ (forall x, In x links <-> In x (anchor_hrefs Demo.portfolio))
      /\ List.length links = distinct_count (anchor_hrefs Demo.portfolio)
      /\ distinct_count (anchor_hrefs Demo.portfolio)
         <= List.length (anchor_hrefs Demo.portfolio)
      /\ Forall2 (fun link entry =>
                    exists path, url_pathname link = Some path
                                 /\ entry = sitemap_entry link path)
                 links entries.
Proof.
  split; [reflexivity|]. split; [reflexivity|].
  apply (generateDynamicSitemap_lists_distinct_hrefs Demo.portfolio); reflexivity.
Defined.

(** The three anchors of the page, two of them with one [href]. *)
Example sitemap_of_portfolio :
  anchor_hrefs Demo.portfolio
  = ["https://example.com/"; "https://example.com/work"; "https://example.com/"]
  /\ render_entries (Str.ordered_set (anchor_hrefs Demo.portfolio))
     = Some [sitemap_entry "https://example.com/" "/";
             sitemap_entry "https://example.com/work" "/work"].
Proof. split; vm_compute; reflexivity. Qed.





(** The keyword in three letter cases, and next to another keyword. *)
Example density_of_portfolio :
  text_at 3 Demo.portfolio
  = "HomeWorkTopTechnical SEO Specialist auditPortfolio of an seo specialist. SEO SPECIALIST."
  /\ occurrences "seo specialist" (text_at 3 Demo.portfolio) = 3
  /\ occurrences "technical seo" (text_at 3 Demo.portfolio) = 1
  /\ occurrences "portfolio" (text_at 3 Demo.portfolio) = 1
  /\ occurrences "mansoor ahmad" (text_at 3 Demo.portfolio) = 0.
Proof. repeat split; vm_compute; reflexivity. Qed.

Lemma addBotOnlyContent_twice_appends_two_witness :
  well_formed Demo.portfolio = true
  /\ exists b n1 n2,
      child_with_tag "body" (root Demo.portfolio) = Some b
      /\ returns addBotOnlyContent Demo.portfolio = true
      /\ returns addBotOnlyContent (page_after addBotOnlyContent Demo.portfolio) = true
      /\ n1 <> n2
      /\ element_kids b (page_after addBotOnlyContent
                           (page_after addBotOnlyContent Demo.portfolio))
         = element_kids b Demo.portfolio
             ++ [Elem n1 "div"
                   [("class", "bot-only-content"); ("style", botContent_style)]
                   [Markup (botContent_markup (title Demo.portfolio))];
                 Elem n2 "div"
                   [("class", "bot-only-content"); ("style", botContent_style)]
                   [Markup (botContent_markup (title Demo.portfolio))]].
Proof.
  split; [reflexivity|].
  apply (addBotOnlyContent_twice_appends_two Demo.portfolio). reflexivity.
Defined.

Lemma script_emits_structured_data_witness :
  well_formed Demo.portfolio = true
  /\ exists h earlier n1 n2 n3,
      child_with_tag "head" (root Demo.portfolio) = Some h
      /\ returns script Demo.portfolio = true
      /\ element_kids h (page_after script Demo.portfolio)
         = earlier
             ++ [Elem n1 "script" [("type", "application/ld+json")]
                   [Text (JSON.stringify person_schema)];
                 Elem n2 "script" [("type", "application/ld+json")]
                   [Text (JSON.stringify breadcrumb_schema)];
                 Elem n3 "script" [("type", "application/ld+json")]
                   [Text (JSON.stringify faq_schema)]]
      /\ map node_key earlier = map node_key (element_kids h Demo.portfolio)
      /\ n1 <> n2 /\ n2 <> n3 /\ n1 <> n3
      /\ JSONText.parse (JSON.stringify person_schema) = Some person_schema
      /\ JSONText.parse (JSON.stringify breadcrumb_schema) = Some breadcrumb_schema
      /\ JSONText.parse (JSON.stringify faq_schema) = Some faq_schema
      /\ JSON.field "@type" person_schema = Some (JSON.Str "Person")
      /\ JSON.field "@type" breadcrumb_schema = Some (JSON.Str "BreadcrumbList")
      /\ JSON.field "@type" faq_schema = Some (JSON.Str "FAQPage")
      /\ (forall json,
            In json [JSON.stringify person_schema; JSON.stringify breadcrumb_schema;
                     JSON.stringify faq_schema] ->
            schema_in_head json h (page_load Demo.portfolio)).
Proof.
  split; [reflexivity|].
  apply (script_emits_structured_data Demo.portfolio). reflexivity.
Defined.

End OnDemo.

(** The ping with and without the capability. *)
Lemma sendIndexingSignals_pings_and_flags_witness :
  @well_formed Demo.portfolio = true
  /\ (returns (@sendIndexingSignals Demo.host) Demo.portfolio = true
      /\ beacons (page_after (@sendIndexingSignals Demo.host) Demo.portfolio)
         = ["https://www.google.com/ping?sitemap=https%3A%2F%2Fexample.com%2Fsitemap.xml"]
      /\ Attr.get "data-seo-enhanced"
                  (node_attrs (root (page_after (@sendIndexingSignals Demo.host)
                                                Demo.portfolio)))
         = Some "true")
  /\ (returns (@sendIndexingSignals Demo.old_host) Demo.portfolio = true
      /\ beacons (page_after (@sendIndexingSignals Demo.old_host) Demo.portfolio) = []
      /\ Attr.get "data-seo-enhanced"
                  (node_attrs (root (page_after (@sendIndexingSignals Demo.old_host)
                                                Demo.portfolio)))
         = Some "true").
Proof.
  split; [reflexivity|].
  destruct (@sendIndexingSignals_pings_and_flags Demo.host Demo.portfolio eq_refl)
    as (H1 & H2 & H3 & _).
  destruct (@sendIndexingSignals_pings_and_flags Demo.old_host Demo.portfolio eq_refl)
    as (H4 & H5 & H6 & _).
  repeat split; assumption.
Defined.

(** ** What a rewrite of attributes leaves alone *)

Lemma shape_update_attrs j f n : shape (update_attrs j f n) = shape n.
Proof.
  induction n as [i t a ks IH| |] using Node_ind'; simpl; try reflexivity.
  f_equal. rewrite map_map. apply map_ext_Forall. exact IH.
Qed.

Lemma update_attrs_ext j f g n :
  (forall a, f a = g a) -> update_attrs j f n = update_attrs j g n.
Proof.
  intros E. induction n as [i t a ks IH| |] using Node_ind'; simpl; try reflexivity.
  rewrite E. f_equal. apply map_ext_Forall. exact IH.
Qed.

Lemma update_attrs_comm j k f n :
  update_attrs j f (update_attrs k f n) = update_attrs k f (update_attrs j f n).
Proof.
  induction n as [i t a ks IH| |] using Node_ind'; simpl; try reflexivity.
  f_equal.
  - destruct (Nat.eqb j i), (Nat.eqb k i); reflexivity.
  - rewrite !map_map. apply map_ext_Forall. exact IH.
Qed.

Lemma update_attrs_idem j f n :
  (forall a, f (f a) = f a) ->
  update_attrs j f (update_attrs j f n) = update_attrs j f n.
Proof.
  intros E. rewrite update_attrs_compose. apply update_attrs_ext. exact E.
Qed.

Section Texts.

Context {host : Host}.

Lemma text_content_update_attrs j f n :
  text_content (update_attrs j f n) = text_content n.
Proof.
  induction n as [i t a ks IH| |] using Node_ind'; simpl; try reflexivity.
  f_equal. rewrite map_map. apply map_ext_Forall. exact IH.
Qed.

Lemma text_at_update_attrs e j f p :
  text_at e (with_root (update_attrs j f) p) = text_at e p.
Proof.
  unfold text_at, with_root; simpl. rewrite find_elem_update_attrs.
  destruct (find_elem e (root p)); simpl; [apply text_content_update_attrs | reflexivity].
Qed.

End Texts.

Lemma forallb_eq {A : Type} (f g : A -> bool) l :
  (forall x, f x = g x) -> forallb f l = forallb g l.
Proof.
  intros E. induction l as [|x l IH]; [reflexivity|]. simpl. rewrite E, IH. reflexivity.
Qed.

(** *** Attribute lists *)

Lemma attr_set_same k v a : Attr.get k a = Some v -> Attr.set k v a = a.
Proof.
  induction a as [|[k' v'] a IH]; simpl; [discriminate|].
  destruct (String.eqb k k') eqn:E.
  - intros [= ->]. apply String.eqb_eq in E. subst. reflexivity.
  - intros H. rewrite IH by exact H. reflexivity.
Qed.

Lemma attr_has_set k k' v a :
  Attr.has k (Attr.set k' v a) = String.eqb k k' || Attr.has k a.
Proof.
  unfold Attr.has. rewrite attr_get_set. destruct (String.eqb k k'); reflexivity.
Qed.

Lemma classes_set k v a :
  String.eqb "class" k = false -> Attr.classes (Attr.set k v a) = Attr.classes a.
Proof.
  intros E. unfold Attr.classes, Attr.reflect. rewrite attr_get_set, E. reflexivity.
Qed.

(** *** Selectors *)

Lemma matches_set s k v i t a ks ks' :
  sel_reads s k = false ->
  matches s (Elem i t (Attr.set k v a) ks) = matches s (Elem i t a ks').
Proof.
  destruct s as [t'|c|x|t' x]; unfold sel_reads, matches; intros E.
  - reflexivity.
  - rewrite classes_set by exact E. reflexivity.
  - rewrite attr_get_set, E. reflexivity.
  - rewrite attr_has_set, E. reflexivity.
Qed.

Lemma query_update_attrs s j f n :
  (forall i t a ks ks', matches s (Elem i t (f a) ks) = matches s (Elem i t a ks')) ->
  query s (update_attrs j f n) = query s n.
Proof.
  intros E. induction n as [i t a ks IH| |] using Node_ind'; try reflexivity.
  cbn [update_attrs]. rewrite !query_Elem. f_equal.
  - destruct (Nat.eqb j i); [rewrite (E i t a _ ks) | ]; reflexivity.
  - induction IH as [|k ks Hk _ IHks]; [reflexivity|]. simpl. rewrite Hk, IHks. reflexivity.
Qed.

Lemma query_set s j k v n :
  sel_reads s k = false -> query s (update_attrs j (Attr.set k v) n) = query s n.
Proof.
  intros E. apply query_update_attrs. intros. apply matches_set. exact E.
Qed.

Lemma query_ByTag_update_attrs t j f n :
  query (ByTag t) (update_attrs j f n) = query (ByTag t) n.
Proof. apply query_update_attrs. reflexivity. Qed.

Lemma heading_of_update_attrs item j f p :
  heading_of item (with_root (update_attrs j f) p) = heading_of item p.
Proof.
  unfold heading_of, with_root; simpl. rewrite find_elem_update_attrs.
  destruct (find_elem item (root p)) as [e|]; simpl; [|reflexivity].
  rewrite node_kids_update_attrs. f_equal.
  induction (node_kids e) as [|k ks IH]; [reflexivity|].
  simpl. rewrite query_ByTag_update_attrs, IH. reflexivity.
Qed.

(** ** The structural annotation *)

Section Annotation.

Context {host : Host}.

Lemma item_label_update_attrs item j f p :
  item_label item (with_root (update_attrs j f) p) = item_label item p.
Proof.
  unfold item_label. rewrite heading_of_update_attrs.
  destruct (heading_of item p); [rewrite text_at_update_attrs|]; reflexivity.
Qed.

Lemma annotate_item_run item q :
  annotate_item item q
  = match heading_of item q with
    | Some _ => (annotate_step q q item, Ret tt)
    | None => (with_root (update_attrs item scoped_attrs) q, Throw TypeError)
    end.
Proof.
  unfold annotate_item, bind, setAttribute, modify, querySelectorIn, textContent, read.
  cbn [fst snd].
  change (match find_elem item (root (with_root (update_attrs item (Attr.set "itemtype" "https://schema.org/CreativeWork"))
                   (with_root (update_attrs item (Attr.set "itemscope" EmptyString)) q))) with
          | Some n => List.head (flat_map (query (ByTag "h3")) (node_kids n))
          | None => None
          end)
    with (heading_of item (with_root (update_attrs item (Attr.set "itemtype" "https://schema.org/CreativeWork"))
                   (with_root (update_attrs item (Attr.set "itemscope" EmptyString)) q))).
  rewrite !heading_of_update_attrs.
  unfold annotate_step, item_label.
  destruct (heading_of item q) as [h|]; cbn [deref ret throw].
  - change (match find_elem h (root (with_root (update_attrs item (Attr.set "itemtype" "https://schema.org/CreativeWork"))
                   (with_root (update_attrs item (Attr.set "itemscope" EmptyString)) q))) with
            | Some n => text_content n
            | None => EmptyString
            end)
      with (text_at h (with_root (update_attrs item (Attr.set "itemtype" "https://schema.org/CreativeWork"))
                   (with_root (update_attrs item (Attr.set "itemscope" EmptyString)) q))).
    rewrite !text_at_update_attrs.
    unfold with_root; cbn [root title next_id listeners beacons console calls].
    rewrite !update_attrs_compose. reflexivity.
  - unfold with_root; cbn [root title next_id listeners beacons console calls].
    rewrite !update_attrs_compose. reflexivity.
Qed.

Lemma heading_of_annotate_step p q item x :
  heading_of x (annotate_step p q item) = heading_of x q.
Proof. apply heading_of_update_attrs. Qed.

Lemma item_label_annotate_step p q item x :
  item_label x (annotate_step p q item) = item_label x q.
Proof. apply item_label_update_attrs. Qed.

(** The loop over entries that all have a heading. *)
Lemma forEach_annotate p l : forall q,
  (forall x, In x l -> heading_of x q <> None /\ item_label x q = item_label x p) ->
  forEach l annotate_item q = (fold_left (annotate_step p) l q, Ret tt).
Proof.
  induction l as [|y l IH]; intros q H; [reflexivity|].
  cbn [forEach fold_left]. unfold bind. rewrite annotate_item_run.
  destruct (H y (or_introl eq_refl)) as [Hh Hl].
  destruct (heading_of y q) as [h|] eqn:E; [|congruence].
  assert (Es : annotate_step q q y = annotate_step p q y).
  { unfold annotate_step. rewrite Hl. reflexivity. }
  rewrite Es. apply IH. intros x Hx.
  rewrite heading_of_annotate_step, item_label_annotate_step.
  apply H. right. exact Hx.
Qed.

Lemma forEach_app {A : Type} (f : A -> JS unit) l1 l2 q :
  forEach (l1 ++ l2) f q
  = match forEach l1 f q with
    | (q', Ret _) => forEach l2 f q'
    | (q', Throw e) => (q', Throw e)
    end.
Proof.
  revert q. induction l1 as [|x l1 IH]; intros q; [reflexivity|].
  cbn [forEach app]. unfold bind. destruct (f x q) as [q' [u|e]]; [apply IH | reflexivity].
Qed.

Lemma forEach_annotate_returns l : forall q,
  returns (forEach l annotate_item) q
  = forallb (fun item => is_some (heading_of item q)) l.
Proof.
  induction l as [|y l IH]; intros q; [reflexivity|].
  unfold returns in *. cbn [forEach forallb]. unfold bind. rewrite annotate_item_run.
  destruct (heading_of y q) as [h|]; [|reflexivity].
  cbn [is_some andb]. rewrite IH. apply forallb_eq. intros x.
  rewrite heading_of_annotate_step. reflexivity.
Qed.

Lemma enhanceSemanticStructure_run p :
  enhanceSemanticStructure p
  = match List.head (query (ByTag "main") (root p)) with
    | None => (logged p [CallEnhanceSemanticStructure], Throw TypeError)
    | Some m =>
        match List.head (query (ByTag "nav") (root p)) with
        | None => (with_root (update_attrs m (Attr.set "role" "main"))
                     (logged p [CallEnhanceSemanticStructure]), Throw TypeError)
        | Some n =>
            forEach (query (ByClass "portfolio-item") (root p)) annotate_item
                    (annotated_landmarks p m n)
        end
    end.
Proof.
  unfold enhanceSemanticStructure, bind, enter, querySelector, querySelectorAll,
    setAttribute, modify, read.
  cbn [fst snd root with_root].
  change (mkPage (root p) (title p) (next_id p) (listeners p) (beacons p) (console p)
                 (calls p ++ [CallEnhanceSemanticStructure]))
    with (logged p [CallEnhanceSemanticStructure]).
  destruct (List.head (query (ByTag "main") (root p))) as [m|]; cbn [deref ret throw];
    [|reflexivity].
  cbn [root with_root logged].
  rewrite !query_ByTag_update_attrs.
  destruct (List.head (query (ByTag "nav") (root p))) as [n|] eqn:En; cbn [deref ret throw];
    [|reflexivity].
  cbn [root with_root logged].
  rewrite !query_ByTag_update_attrs, En. cbn [deref ret throw].
  cbn [root with_root logged].
  rewrite (query_set (ByClass "portfolio-item") n "itemtype") by reflexivity.
  rewrite (query_set (ByClass "portfolio-item") n "itemscope") by reflexivity.
  rewrite (query_set (ByClass "portfolio-item") m "role") by reflexivity.
  unfold annotated_landmarks, with_root, logged, nav_attrs.
  cbn [root title next_id listeners beacons console calls].
  rewrite !update_attrs_compose. reflexivity.
Qed.

Lemma heading_of_annotated_landmarks p m n x :
  heading_of x (annotated_landmarks p m n) = heading_of x p.
Proof.
  unfold annotated_landmarks. rewrite !heading_of_update_attrs. reflexivity.
Qed.

Lemma item_label_annotated_landmarks p m n x :
  item_label x (annotated_landmarks p m n) = item_label x p.
Proof.
  unfold annotated_landmarks. rewrite !item_label_update_attrs. reflexivity.
Qed.

Lemma returns_enhanceSemanticStructure p :
  returns enhanceSemanticStructure p = annotatable p.
Proof.
  unfold annotatable, returns. rewrite enhanceSemanticStructure_run.
  destruct (List.head (query (ByTag "main") (root p))) as [m|]; [|reflexivity].
  destruct (List.head (query (ByTag "nav") (root p))) as [n|]; [|reflexivity].
  cbn [is_some andb].
  pose proof (forEach_annotate_returns (query (ByClass "portfolio-item") (root p))
                (annotated_landmarks p m n)) as H.
  unfold returns in H. rewrite H. apply forallb_eq. intros x.
  rewrite heading_of_annotated_landmarks. reflexivity.
Qed.

(** *** The attributes it leaves *)

Lemma attrs_at_update_found i j f p :
  find_elem i (root p) <> None ->
  attrs_at i (with_root (update_attrs j f) p)
  = if Nat.eqb j i then f (attrs_at i p) else attrs_at i p.
Proof.
  intros H. rewrite attrs_at_update_attrs. unfold attrs_at.
  destruct (find_elem i (root p)); [reflexivity | congruence].
Qed.

Lemma found_update_attrs i j f p :
  find_elem i (root p) <> None ->
  find_elem i (root (with_root (update_attrs j f) p)) <> None.
Proof.
  intros H. cbn [with_root root]. rewrite find_elem_update_attrs.
  destruct (find_elem i (root p)); [discriminate | congruence].
Qed.

Lemma attrs_at_fold_annotate p l : List.NoDup l -> forall q x,
  find_elem x (root q) <> None ->
  attrs_at x (fold_left (annotate_step p) l q)
  = if existsb (Nat.eqb x) l
    then item_attrs (item_label x p) (attrs_at x q)
    else attrs_at x q.
Proof.
  induction 1 as [|y l Hy Hnd IH]; intros q x Hx; [reflexivity|].
  cbn [fold_left existsb].
  rewrite IH by (apply found_update_attrs; exact Hx).
  unfold annotate_step. rewrite !attrs_at_update_found by exact Hx.
  destruct (Nat.eqb x y) eqn:E.
  - apply Nat.eqb_eq in E. subst y. rewrite Nat.eqb_refl. cbn [orb].
    destruct (existsb (Nat.eqb x) l) eqn:El; [|reflexivity].
    exfalso. apply Hy. apply existsb_exists in El. destruct El as (z & Hz & Ez).
    apply Nat.eqb_eq in Ez. subst z. exact Hz.
  - rewrite Nat.eqb_sym, E. reflexivity.
Qed.

Lemma found_fold_annotate p l y : forall q,
  find_elem y (root q) <> None ->
  find_elem y (root (fold_left (annotate_step p) l q)) <> None.
Proof.
  induction l as [|z l IH]; intros q Hq; [exact Hq|].
  cbn [fold_left]. apply IH. unfold annotate_step. apply found_update_attrs. exact Hq.
Qed.

Lemma query_found s n i : In i (query s n) -> find_elem i n <> None.
Proof. intros H. apply find_elem_present. apply (query_In _ _ _ H). Qed.

Lemma head_In {A : Type} (l : list A) x : List.head l = Some x -> In x l.
Proof. destruct l; [discriminate|]. intros [= ->]. left. reflexivity. Qed.

Lemma attrs_at_annotated_landmarks p m n x :
  find_elem x (root p) <> None ->
  attrs_at x (annotated_landmarks p m n)
  = (if Nat.eqb n x then nav_attrs else fun a => a)
      ((if Nat.eqb m x then Attr.set "role" "main" else fun a => a) (attrs_at x p)).
Proof.
  intros Hx. unfold annotated_landmarks.
  rewrite attrs_at_update_found by (apply found_update_attrs; exact Hx).
  rewrite attrs_at_update_found by exact Hx.
  destruct (Nat.eqb n x), (Nat.eqb m x); reflexivity.
Qed.

Lemma annotatable_spec p :
  annotatable p = true ->
  exists m n,
    List.head (query (ByTag "main") (root p)) = Some m
    /\ List.head (query (ByTag "nav") (root p)) = Some n
    /\ forall x, In x (query (ByClass "portfolio-item") (root p)) ->
                 heading_of x p <> None.
Proof.
  unfold annotatable. rewrite !andb_true_iff. intros [[Hm Hn] Hi].
  destruct (List.head (query (ByTag "main") (root p))) as [m|]; [|discriminate].
  destruct (List.head (query (ByTag "nav") (root p))) as [n|]; [|discriminate].
  exists m, n. split; [reflexivity|]. split; [reflexivity|].
  intros x Hx. rewrite forallb_forall in Hi. specialize (Hi x Hx).
  destruct (heading_of x p); [discriminate | discriminate].
Qed.

(** X1: [enhanceSemanticStructure] returns exactly on the pages that have
    a [main] element, a [nav] element and an [h3] inside every element of
    class [portfolio-item]; on every other page it throws a TypeError. *)
Theorem enhanceSemanticStructure_returns_iff (p : Page) :
  returns enhanceSemanticStructure p = true
  <-> (exists m, List.head (query (ByTag "main") (root p)) = Some m)
      /\ (exists n, List.head (query (ByTag "nav") (root p)) = Some n)
      /\ (forall item,
            In item (query (ByClass "portfolio-item") (root p)) ->
            exists h, heading_of item p = Some h).
Proof.
  rewrite returns_enhanceSemanticStructure. split.
  - intros H. destruct (annotatable_spec p H) as (m & n & Hm & Hn & Hi).
    split; [exists m; exact Hm|]. split; [exists n; exact Hn|].
    intros item Hitem. specialize (Hi item Hitem).
    destruct (heading_of item p) as [h|]; [exists h; reflexivity | congruence].
  - intros ((m & Hm) & (n & Hn) & Hi). unfold annotatable. rewrite Hm, Hn. cbn [is_some andb].
    apply forallb_forall. intros item Hitem. destruct (Hi item Hitem) as (h & ->).
    reflexivity.
Qed.

(** The page a run that returns leaves. *)
Lemma enhanceSemanticStructure_done p m n :
  List.head (query (ByTag "main") (root p)) = Some m ->
  List.head (query (ByTag "nav") (root p)) = Some n ->
  (forall x, In x (query (ByClass "portfolio-item") (root p)) -> heading_of x p <> None) ->
  enhanceSemanticStructure p
  = (fold_left (annotate_step p) (query (ByClass "portfolio-item") (root p))
               (annotated_landmarks p m n), Ret tt).
Proof.
  intros Hm Hn Hi. rewrite enhanceSemanticStructure_run, Hm, Hn.
  apply forEach_annotate. intros x Hx.
  rewrite heading_of_annotated_landmarks, item_label_annotated_landmarks.
  split; [apply Hi; exact Hx | reflexivity].
Qed.

(** X2: when [enhanceSemanticStructure] returns, the first [main] has the
    role [main]; the first [nav] has [itemscope] and, unless it is itself a
    portfolio entry, the navigation item type; every portfolio entry has
    [itemscope], the creative-work item type, and a label made of the fixed
    prefix and the text of the first [h3] inside it. *)
Theorem enhanceSemanticStructure_annotates (p : Page) (m n : Ref) :
  well_formed p = true ->
  List.head (query (ByTag "main") (root p)) = Some m ->
  List.head (query (ByTag "nav") (root p)) = Some n ->
  returns enhanceSemanticStructure p = true ->
  Attr.get "role" (attrs_at m (page_after enhanceSemanticStructure p)) = Some "main"
  /\ Attr.get "itemscope" (attrs_at n (page_after enhanceSemanticStructure p))
     = Some EmptyString
  /\ Attr.get "itemtype" (attrs_at n (page_after enhanceSemanticStructure p))
     = Some (if existsb (Nat.eqb n) (query (ByClass "portfolio-item") (root p))
             then "https://schema.org/CreativeWork"
             else "https://schema.org/SiteNavigationElement")
  /\ forall item,
      In item (query (ByClass "portfolio-item") (root p)) ->
      Attr.get "itemscope" (attrs_at item (page_after enhanceSemanticStructure p))
      = Some EmptyString
      /\ Attr.get "itemtype" (attrs_at item (page_after enhanceSemanticStructure p))
         = Some "https://schema.org/CreativeWork"
      /\ exists h,
          heading_of item p = Some h
          /\ Attr.get "aria-label"
                      (attrs_at item (page_after enhanceSemanticStructure p))
             = Some ("Portfolio project: " ++ text_at h p)%string.
Proof.
  intros Hwf Hm Hn Hret. apply well_formed_spec in Hwf as W.
  rewrite returns_enhanceSemanticStructure in Hret.
  destruct (annotatable_spec p Hret) as (m' & n' & Hm' & Hn' & Hi).
  rewrite Hm in Hm'. rewrite Hn in Hn'. injection Hm' as <-. injection Hn' as <-.
  set (items := query (ByClass "portfolio-item") (root p)) in *.
  assert (Hnd : List.NoDup items)
    by (apply NoDup_ListNoDup, query_NoDup, (wf_distinct p W)).
  assert (Hfm : find_elem m (root p) <> None)
    by (apply (query_found (ByTag "main")), head_In, Hm).
  assert (Hfn : find_elem n (root p) <> None)
    by (apply (query_found (ByTag "nav")), head_In, Hn).
  assert (Hfound : forall x, find_elem x (root p) <> None ->
                             find_elem x (root (annotated_landmarks p m n)) <> None).
  { intros x Hx. unfold annotated_landmarks. apply found_update_attrs, found_update_attrs.
    exact Hx. }
  unfold page_after. rewrite (enhanceSemanticStructure_done p m n Hm Hn Hi). cbn [fst].
  fold items.
  assert (Hat : forall x, find_elem x (root p) <> None ->
            attrs_at x (fold_left (annotate_step p) items (annotated_landmarks p m n))
            = (if existsb (Nat.eqb x) items then item_attrs (item_label x p)
               else fun a => a)
                ((if Nat.eqb n x then nav_attrs else fun a => a)
                   ((if Nat.eqb m x then Attr.set "role" "main" else fun a => a)
                      (attrs_at x p)))).
  { intros x Hx. rewrite (attrs_at_fold_annotate p items Hnd) by (apply Hfound; exact Hx).
    rewrite attrs_at_annotated_landmarks by exact Hx.
    destruct (existsb (Nat.eqb x) items); reflexivity. }
  split; [|split; [|split]].
  - rewrite Hat by exact Hfm. rewrite Nat.eqb_refl.
    unfold item_attrs, scoped_attrs, nav_attrs.
    destruct (existsb (Nat.eqb m) items), (Nat.eqb n m);
      rewrite ?attr_get_set; reflexivity.
  - rewrite Hat by exact Hfn. rewrite Nat.eqb_refl.
    unfold item_attrs, scoped_attrs, nav_attrs.
    destruct (existsb (Nat.eqb n) items), (Nat.eqb m n);
      rewrite ?attr_get_set; reflexivity.
  - rewrite Hat by exact Hfn. rewrite Nat.eqb_refl.
    unfold item_attrs, scoped_attrs, nav_attrs.
    destruct (existsb (Nat.eqb n) items), (Nat.eqb m n);
      rewrite ?attr_get_set; reflexivity.
  - intros item Hitem.
    assert (Hfi : find_elem item (root p) <> None)
      by (apply (query_found (ByClass "portfolio-item")), Hitem).
    assert (Hex : existsb (Nat.eqb item) items = true).
    { apply existsb_exists. exists item. split; [exact Hitem | apply Nat.eqb_refl]. }
    rewrite Hat by exact Hfi. rewrite Hex.
    unfold item_attrs, scoped_attrs.
    split; [rewrite !attr_get_set; reflexivity|].
    split; [rewrite !attr_get_set; reflexivity|].
    specialize (Hi item Hitem).
    destruct (heading_of item p) as [h|] eqn:Eh; [|congruence].
    exists h. split; [reflexivity|].
    rewrite attr_get_set. cbn [String.eqb Ascii.eqb Bool.eqb].
    unfold item_label. rewrite Eh. reflexivity.
Qed.

(** *** What it never touches *)

Lemma frame_setAttribute p e k v :
  Str.mem k annotation_names = true ->
  preserves (annotation_frame p) (setAttribute e k v).
Proof.
  intros Hk q [Hs Ha]. split.
  - cbn. rewrite shape_update_attrs. exact Hs.
  - intros x k' Hk'. rewrite <- (Ha x k' Hk').
    change (fst (setAttribute e k v q)) with (with_root (update_attrs e (Attr.set k v)) q).
    rewrite attrs_at_update_attrs.
    destruct (Nat.eqb e x); [|reflexivity].
    unfold attrs_at. destruct (find_elem x (root q)) as [nd|]; [|reflexivity].
    rewrite attr_get_set.
    destruct (String.eqb k' k) eqn:E; [|reflexivity].
    apply String.eqb_eq in E. subst k'. congruence.
Qed.

Lemma frame_enter p c : preserves (annotation_frame p) (enter c).
Proof. intros q H. exact H. Qed.

(** X3: whether it returns or throws, [enhanceSemanticStructure] adds,
    removes and moves no node, and writes no attribute other than [role],
    [itemscope], [itemtype] and [aria-label]. *)
Theorem enhanceSemanticStructure_writes_four_attributes (p : Page) :
  shape (root (page_after enhanceSemanticStructure p)) = shape (root p)
  /\ forall x k,
      Str.mem k annotation_names = false ->
      Attr.get k (attrs_at x (page_after enhanceSemanticStructure p))
      = Attr.get k (attrs_at x p).
Proof.
  assert (H : preserves (annotation_frame p) enhanceSemanticStructure).
  { unfold enhanceSemanticStructure, annotate_item, querySelector, querySelectorAll,
      querySelectorIn, textContent.
    repeat first
      [ apply preserves_bind; [|intros ?]
      | apply preserves_forEach; intros ?
      | apply frame_enter
      | apply preserves_read
      | apply preserves_deref
      | apply frame_setAttribute; reflexivity ]. }
  apply (H p). split; [reflexivity | intros; reflexivity].
Qed.

(** *** A run that throws in the loop *)

(** X4: when the entries up to one have a heading and that one has none,
    [enhanceSemanticStructure] throws having labelled the entries before
    it; the entry without a heading has its item type but no new label, and
    the entries after it have no new label. *)
Theorem enhanceSemanticStructure_stops_at_missing_heading
        (p : Page) (m n : Ref) (l1 l2 : list Ref) (x : Ref) :
  well_formed p = true ->
  List.head (query (ByTag "main") (root p)) = Some m ->
  List.head (query (ByTag "nav") (root p)) = Some n ->
  query (ByClass "portfolio-item") (root p) = l1 ++ x :: l2 ->
  forallb (fun item => is_some (heading_of item p)) l1 = true ->
  heading_of x p = None ->
  returns enhanceSemanticStructure p = false
  /\ (forall y, In y l1 ->
                Attr.get "aria-label" (attrs_at y (page_after enhanceSemanticStructure p))
                = Some (item_label y p))
  /\ Attr.get "itemtype" (attrs_at x (page_after enhanceSemanticStructure p))
     = Some "https://schema.org/CreativeWork"
  /\ (forall y, In y (x :: l2) ->
                Attr.get "aria-label" (attrs_at y (page_after enhanceSemanticStructure p))
                = Attr.get "aria-label" (attrs_at y p)).
Proof.
  intros Hwf Hm Hn Hitems Hl1 Hx. apply well_formed_spec in Hwf as W.
  assert (Hnd : List.NoDup (l1 ++ x :: l2)).
  { rewrite <- Hitems. apply NoDup_ListNoDup, query_NoDup, (wf_distinct p W). }
  assert (Hnd1 : List.NoDup l1) by (apply NoDup_app_inv in Hnd; tauto).
  assert (Hout : forall y, In y (x :: l2) -> existsb (Nat.eqb y) l1 = false).
  { intros y Hy. destruct (existsb (Nat.eqb y) l1) eqn:E; [|reflexivity]. exfalso.
    apply existsb_exists in E. destruct E as (z & Hz & Ez). apply Nat.eqb_eq in Ez. subst z.
    apply NoDup_app_inv in Hnd. destruct Hnd as (_ & _ & Hd). exact (Hd y Hz Hy). }
  assert (Hin : forall y, In y (l1 ++ x :: l2) -> find_elem y (root p) <> None).
  { intros y Hy. apply (query_found (ByClass "portfolio-item")). rewrite Hitems. exact Hy. }
  assert (Hfound : forall y, find_elem y (root p) <> None ->
                             find_elem y (root (annotated_landmarks p m n)) <> None).
  { intros y Hy. unfold annotated_landmarks. apply found_update_attrs, found_update_attrs.
    exact Hy. }
  set (q0 := annotated_landmarks p m n).
  set (q1 := fold_left (annotate_step p) l1 q0).
  assert (Hrun : enhanceSemanticStructure p
                 = (with_root (update_attrs x scoped_attrs) q1, Throw TypeError)).
  { rewrite enhanceSemanticStructure_run, Hm, Hn, Hitems, forEach_app.
    rewrite (forEach_annotate p l1).
    - cbn [forEach]. unfold bind. rewrite annotate_item_run.
      assert (Hxq : heading_of x q1 = None).
      { unfold q1. clear -Hx. revert q0.
        assert (G : forall l q, heading_of x q = heading_of x p ->
                                heading_of x (fold_left (annotate_step p) l q) = None).
        { induction l as [|y l IH]; intros q Hq; [cbn; congruence|].
          cbn [fold_left]. apply IH. rewrite heading_of_annotate_step. exact Hq. }
        intros q0. apply G. apply heading_of_annotated_landmarks. }
      fold q0. fold q1. rewrite Hxq. reflexivity.
    - intros y Hy. rewrite heading_of_annotated_landmarks, item_label_annotated_landmarks.
      split; [|reflexivity]. rewrite forallb_forall in Hl1. specialize (Hl1 y Hy).
      destruct (heading_of y p); [discriminate | discriminate]. }
  assert (Hq1 : forall y, find_elem y (root p) <> None ->
                          find_elem y (root q1) <> None).
  { intros y Hy. unfold q1. apply found_fold_annotate, Hfound, Hy. }
  unfold returns, page_after. rewrite Hrun. cbn [fst snd].
  split; [reflexivity|]. split; [|split].
  - intros y Hy.
    assert (Hfy : find_elem y (root p) <> None) by (apply Hin, in_or_app; auto).
    rewrite attrs_at_update_found by (apply Hq1; exact Hfy).
    assert (Hyx : Nat.eqb x y = false).
    { apply Nat.eqb_neq. intros ->.
      assert (E : existsb (Nat.eqb y) l1 = true)
        by (apply existsb_exists; exists y; split; [exact Hy | apply Nat.eqb_refl]).
      rewrite (Hout y (or_introl eq_refl)) in E. discriminate. }
    rewrite Hyx. unfold q1.
    rewrite (attrs_at_fold_annotate p l1 Hnd1) by (apply Hfound; exact Hfy).
    assert (E : existsb (Nat.eqb y) l1 = true)
      by (apply existsb_exists; exists y; split; [exact Hy | apply Nat.eqb_refl]).
    rewrite E. unfold item_attrs. rewrite attr_get_set. reflexivity.
  - assert (Hfx : find_elem x (root p) <> None)
      by (apply Hin, in_or_app; right; left; reflexivity).
    rewrite attrs_at_update_found by (apply Hq1; exact Hfx).
    rewrite Nat.eqb_refl. unfold scoped_attrs. rewrite attr_get_set. reflexivity.
  - intros y Hy.
    assert (Hfy : find_elem y (root p) <> None) by (apply Hin, in_or_app; auto).
    rewrite attrs_at_update_found by (apply Hq1; exact Hfy).
    unfold q1.
    rewrite (attrs_at_fold_annotate p l1 Hnd1) by (apply Hfound; exact Hfy).
    rewrite (Hout y Hy). unfold q0. rewrite attrs_at_annotated_landmarks by exact Hfy.
    unfold scoped_attrs, nav_attrs.
    destruct (Nat.eqb x y), (Nat.eqb n y), (Nat.eqb m y);
      rewrite ?attr_get_set; reflexivity.
Qed.

End Annotation.

(** ** The priority tags *)

Section Priority.

Context {host : Host}.

Lemma set_priority_idem a : set_priority (set_priority a) = set_priority a.
Proof.
  unfold set_priority.
  rewrite (attr_set_same "data-seo-priority" "high")
    by (rewrite !attr_get_set; reflexivity).
  apply attr_set_same. rewrite attr_get_set. reflexivity.
Qed.

Lemma matches_set_priority s i t a ks ks' :
  sel_reads s "data-seo-priority" = false -> sel_reads s "aria-live" = false ->
  matches s (Elem i t (set_priority a) ks) = matches s (Elem i t a ks').
Proof.
  intros H1 H2. unfold set_priority.
  rewrite (matches_set s "aria-live" "polite" i t _ ks ks) by exact H2.
  apply matches_set. exact H1.
Qed.

Lemma query_set_priority s j n :
  sel_reads s "data-seo-priority" = false -> sel_reads s "aria-live" = false ->
  query s (update_attrs j set_priority n) = query s n.
Proof.
  intros H1 H2. apply query_update_attrs. intros. apply matches_set_priority; assumption.
Qed.

Lemma retag_comm l j r :
  retag l (update_attrs j set_priority r) = update_attrs j set_priority (retag l r).
Proof.
  revert r. induction l as [|k l IH]; intros r; [reflexivity|].
  unfold retag in *. cbn [fold_left]. rewrite <- IH. f_equal. apply update_attrs_comm.
Qed.

Lemma retag_idem l r : retag l (retag l r) = retag l r.
Proof.
  revert r. induction l as [|k l IH]; intros r; [reflexivity|].
  unfold retag in *. cbn [fold_left].
  fold (retag l (update_attrs k set_priority r)). fold (retag l).
  change (retag l (update_attrs k set_priority
                     (retag l (update_attrs k set_priority r)))
          = retag l (update_attrs k set_priority r)).
  rewrite (retag_comm l k r), update_attrs_idem by apply set_priority_idem.
  rewrite retag_comm. unfold retag. rewrite IH. reflexivity.
Qed.

Lemma shape_retag l r : shape (retag l r) = shape r.
Proof.
  revert r. induction l as [|k l IH]; intros r; [reflexivity|].
  unfold retag in *. cbn [fold_left]. rewrite IH. apply shape_update_attrs.
Qed.

Lemma first_matches_update sels j r :
  plain_sections sels ->
  first_matches sels (update_attrs j set_priority r) = first_matches sels r.
Proof.
  intros H. unfold first_matches. induction sels as [|s sels IH]; [reflexivity|].
  cbn [flat_map]. destruct (H s (or_introl eq_refl)) as [H1 H2].
  rewrite query_set_priority by assumption.
  rewrite IH by (intros s' Hs'; apply H; right; exact Hs'). reflexivity.
Qed.

Lemma first_matches_retag sels l r :
  plain_sections sels -> first_matches sels (retag l r) = first_matches sels r.
Proof.
  intros H. revert r. induction l as [|k l IH]; intros r; [reflexivity|].
  unfold retag in *. cbn [fold_left]. rewrite IH. apply first_matches_update. exact H.
Qed.

Lemma tag_step_exact q s :
  tag_step q s
  = match List.head (query s (root q)) with
    | Some j => with_root (update_attrs j set_priority) q
    | None => q
    end.
Proof.
  unfold tag_step, page_after, tag_section, bind, querySelector, read. simpl.
  destruct (List.head (query s (root q))) as [j|]; [|reflexivity].
  unfold setAttribute, modify, with_root. simpl.
  rewrite update_attrs_compose. reflexivity.
Qed.

Lemma fold_tag_step sels : plain_sections sels -> forall q,
  fold_left tag_step sels q = with_root (retag (first_matches sels (root q))) q.
Proof.
  induction sels as [|s sels IH]; intros H q.
  - destruct q; reflexivity.
  - cbn [fold_left]. rewrite IH by (intros s' Hs'; apply H; right; exact Hs').
    rewrite tag_step_exact. unfold first_matches at 2. cbn [flat_map].
    fold (first_matches sels (root q)).
    assert (Hs : plain_sections sels) by (intros s' Hs'; apply H; right; exact Hs').
    destruct (List.head (query s (root q))) as [j|].
    + cbn [with_root root title next_id listeners beacons console calls].
      rewrite first_matches_update by exact Hs. unfold with_root. cbn.
      reflexivity.
    + reflexivity.
Qed.

Lemma plain_section_selectors : plain_sections section_selectors.
Proof.
  intros s Hs. unfold section_selectors in Hs. cbn [In] in Hs.
  destruct Hs as [<-|[<-|[<-|[<-|[]]]]]; split; reflexivity.
Qed.

Lemma new_ContentPrioritizer_exact p :
  new_ContentPrioritizer p
  = (with_root (retag (priority_targets p))
               (logged p [CallContentPrioritizer; CallAddPriorityTags]),
     Ret {| importantSections := section_selectors |}).
Proof.
  set (p1 := logged p [CallContentPrioritizer; CallAddPriorityTags]).
  assert (E : addPriorityTags {| importantSections := section_selectors |}
                (page_after (enter CallContentPrioritizer) p)
              = (fold_left tag_step section_selectors p1, Ret tt)).
  { unfold addPriorityTags. erewrite bind_run by reflexivity.
    assert (Ep : page_after (enter CallAddPriorityTags)
                   (page_after (enter CallContentPrioritizer) p) = p1).
    { unfold p1, logged, page_after, enter, modify. simpl.
      rewrite <- app_assoc. reflexivity. }
    change (forEach section_selectors tag_section
              (page_after (enter CallAddPriorityTags)
                 (page_after (enter CallContentPrioritizer) p))
            = (fold_left tag_step section_selectors p1, Ret tt)).
    rewrite Ep.
    exact (forEach_total tag_section section_selectors tag_section_returns p1). }
  unfold new_ContentPrioritizer. fold section_selectors.
  erewrite bind_run by reflexivity.
  erewrite bind_run by exact E.
  rewrite fold_tag_step by apply plain_section_selectors.
  reflexivity.
Qed.

Lemma found_retag l x r :
  find_elem x r <> None -> find_elem x (retag l r) <> None.
Proof.
  revert r. induction l as [|k l IH]; intros r H; [exact H|].
  unfold retag in *. cbn [fold_left]. apply IH. rewrite find_elem_update_attrs.
  destruct (find_elem x r); [discriminate | congruence].
Qed.

Lemma attrs_at_retag l : forall q x,
  (In x l -> find_elem x (root q) <> None) ->
  attrs_at x (with_root (retag l) q)
  = if existsb (Nat.eqb x) l then set_priority (attrs_at x q) else attrs_at x q.
Proof.
  induction l as [|y l IH]; intros q x Hx.
  - destruct q; reflexivity.
  - change (with_root (retag (y :: l)) q)
      with (with_root (retag l) (with_root (update_attrs y set_priority) q)).
    cbn [existsb]. destruct (Nat.eqb x y) eqn:E.
    + apply Nat.eqb_eq in E. subst y.
      assert (Hf : find_elem x (root q) <> None) by (apply Hx; left; reflexivity).
      rewrite IH by (intros _; apply found_update_attrs; exact Hf).
      rewrite attrs_at_update_found by exact Hf. rewrite Nat.eqb_refl. cbn [orb].
      destruct (existsb (Nat.eqb x) l); [apply set_priority_idem | reflexivity].
    + rewrite IH.
      * rewrite attrs_at_update_attrs. rewrite Nat.eqb_sym, E. reflexivity.
      * intros Hl. cbn [with_root root]. rewrite find_elem_update_attrs.
        specialize (Hx (or_intror Hl)).
        destruct (find_elem x (root q)); [discriminate | congruence].
Qed.

Lemma first_matches_found sels r x :
  In x (first_matches sels r) -> find_elem x r <> None.
Proof.
  unfold first_matches. rewrite in_flat_map. intros (s & _ & Hs).
  destruct (List.head (query s r)) as [j|] eqn:E; [|destruct Hs].
  destruct Hs as [<-|[]]. apply (query_found s). apply head_In. exact E.
Qed.

(** X5: [new ContentPrioritizer()] never throws and moves no node; the
    first element with each of the ids [about], [portfolio], [services]
    and [testimonials] ends with [data-seo-priority] set to [high] and
    [aria-live] set to [polite], its other attributes as they were; every
    other element keeps its attributes. *)
Theorem new_ContentPrioritizer_tags_first_sections (p : Page) :
  returns new_ContentPrioritizer p = true
  /\ shape (root (page_after new_ContentPrioritizer p)) = shape (root p)
  /\ (forall x,
        attrs_at x (page_after new_ContentPrioritizer p)
        = if existsb (Nat.eqb x) (priority_targets p)
          then Attr.set "aria-live" "polite"
                 (Attr.set "data-seo-priority" "high" (attrs_at x p))
          else attrs_at x p)
  /\ (forall x,
        In x (priority_targets p) ->
        Attr.get "data-seo-priority" (attrs_at x (page_after new_ContentPrioritizer p))
        = Some "high"
        /\ Attr.get "aria-live" (attrs_at x (page_after new_ContentPrioritizer p))
           = Some "polite").
Proof.
  unfold returns, page_after. rewrite new_ContentPrioritizer_exact. cbn [fst snd].
  assert (Hat : forall x,
            attrs_at x (with_root (retag (priority_targets p))
                          (logged p [CallContentPrioritizer; CallAddPriorityTags]))
            = if existsb (Nat.eqb x) (priority_targets p)
              then set_priority (attrs_at x p) else attrs_at x p).
  { intros x. rewrite attrs_at_retag; [reflexivity|].
    intros Hx. apply (first_matches_found section_selectors). exact Hx. }
  split; [reflexivity|]. split; [apply shape_retag|]. split; [exact Hat|].
  intros x Hx. rewrite Hat.
  assert (E : existsb (Nat.eqb x) (priority_targets p) = true)
    by (apply existsb_exists; exists x; split; [exact Hx | apply Nat.eqb_refl]).
  rewrite E. unfold set_priority. rewrite !attr_get_set. split; reflexivity.
Qed.

(** X6: priority tagging is idempotent: a second [new ContentPrioritizer()]
    leaves the tree the first one left. *)
Theorem new_ContentPrioritizer_idempotent (p : Page) :
  returns new_ContentPrioritizer (page_after new_ContentPrioritizer p) = true
  /\ root (page_after new_ContentPrioritizer (page_after new_ContentPrioritizer p))
     = root (page_after new_ContentPrioritizer p).
Proof.
  unfold returns, page_after. rewrite !new_ContentPrioritizer_exact. cbn [fst snd].
  split; [reflexivity|].
  unfold priority_targets. cbn [with_root root logged].
  rewrite first_matches_retag by apply plain_section_selectors.
  apply retag_idem.
Qed.

End Priority.

(** ** The media pass, run again *)


Section MediaAgain.

Context {host : Host}.





Lemma WellFormed_optimize_step q j : WellFormed q -> WellFormed (optimize_step q j).
Proof.
  intros W. destruct (truthy (loading_of (attrs_at j q))) eqn:E.
  - rewrite optimize_step_marked by exact E. exact W.
  - rewrite optimize_step_unmarked by exact E.
    set (src := src_of (attrs_at j q)).
    set (qm := with_root (update_attrs j (lazy_attrs src)) q).
    assert (Wm : WellFormed qm).
    { apply (WellFormed_update_attrs q qm j (lazy_attrs src)); [exact W | reflexivity |].
      cbn. lia. }
    apply (WellFormed_insert_before qm _ j (fallback (next_id q) (attrs_at j q)));
      [exact Wm | reflexivity | reflexivity | reflexivity | | |].
    + rewrite ids_fallback. repeat constructor; cbn; [lia | tauto].
    + intros x. rewrite ids_fallback. cbn. lia.
    + cbn. lia.
Qed.

Lemma WellFormed_optimizeMediaLoading p :
  WellFormed p -> WellFormed (page_after optimizeMediaLoading p).
Proof.
  intros W. unfold page_after. rewrite optimizeMediaLoading_run. cbn [fst].
  apply fold_left_invariant.
  - intros x q _ Wq. apply WellFormed_optimize_step. exact Wq.
  - destruct W. constructor; assumption.
Qed.

(** The element behind [i] keeps its tag through a turn of the loop. *)
Lemma tag_optimize_step q i j t :
  i < next_id q ->
  (exists e, find_elem i (root q) = Some e /\ has_tag t e = true) ->
  exists e, find_elem i (root (optimize_step q j)) = Some e /\ has_tag t e = true.
Proof.
  intros Hlt (e & He & Ht). destruct (truthy (loading_of (attrs_at j q))) eqn:E.
  - rewrite optimize_step_marked by exact E. exists e. auto.
  - rewrite optimize_step_unmarked by exact E. cbn [root].
    rewrite find_elem_insert_before by (apply not_in_fallback; exact Hlt).
    rewrite find_elem_update_attrs, He. cbn [option_map].
    eexists. split; [reflexivity|].
    rewrite has_tag_insert_before, has_tag_update_attrs. exact Ht.
Qed.

Lemma tag_optimizeMediaLoading p i e t :
  WellFormed p -> find_elem i (root p) = Some e -> has_tag t e = true ->
  exists e', find_elem i (root (page_after optimizeMediaLoading p)) = Some e'
             /\ has_tag t e' = true.
Proof.
  intros W He Ht. unfold page_after. rewrite optimizeMediaLoading_run. cbn [fst].
  assert (Hlt : i < next_id p) by (apply (wf_allocated p W), (find_elem_In i _ e He)).
  apply (fold_left_invariant optimize_step
           (fun q => next_id p <= next_id q
                     /\ exists e', find_elem i (root q) = Some e' /\ has_tag t e' = true)).
  - intros x q _ [Hn Hq]. split.
    + pose proof (next_id_optimize_step q x). lia.
    + apply tag_optimize_step; [lia | exact Hq].
  - split; [cbn; lia|]. exists e. auto.
Qed.

(** What the pass makes of an image without the marker. *)
Lemma optimizeMediaLoading_unmarked p i e :
  WellFormed p ->
  find_elem i (root p) = Some e ->
  has_tag "img" e = true ->
  truthy (loading_of (node_attrs e)) = false ->
  exists n0,
    element_attrs i (page_after optimizeMediaLoading p)
    = Some (lazy_attrs (src_of (node_attrs e)) (node_attrs e))
    /\ previousSibling i (root (page_after optimizeMediaLoading p))
       = Some (fallback n0 (node_attrs e)).
Proof.
  intros W He Himg Hload.
  set (a := node_attrs e) in *.
  set (l := query (ByTag "img") (root p)).
  assert (Hi : In i l).
  { apply (find_elem_query _ _ _ e He). destruct e; [exact Himg | discriminate..]. }
  assert (Hl : forall x, In x l -> x < next_id p).
  { intros x Hx. apply (wf_allocated p W). apply (query_In _ _ _ Hx). }
  assert (Hnd : List.NoDup l).
  { apply NoDup_ListNoDup, query_NoDup, (wf_distinct p W). }
  destruct (in_split _ _ Hi) as (l1 & l2 & El).
  rewrite El in Hnd. apply NoDup_remove_2 in Hnd.
  assert (Hl1 : forall x, In x l1 -> x <> i /\ x < next_id p).
  { intros x Hx. split; [intros -> | apply Hl; rewrite El]; [apply Hnd|];
      apply in_or_app; auto. }
  assert (Hl2 : forall x, In x l2 -> x <> i /\ x < next_id p).
  { intros x Hx. split; [intros -> | apply Hl; rewrite El]; [apply Hnd|];
      apply in_or_app; right; simpl; auto. }
  unfold page_after. rewrite optimizeMediaLoading_run. fold l. cbn [fst].
  rewrite El, fold_left_app. cbn [fold_left].
  set (p0 := page_after (enter CallOptimizeMediaLoading) p).
  set (qA := fold_left optimize_step l1 p0).
  assert (HA : element_attrs i qA = Some a
               /\ siblings_of i (root qA) <> None
               /\ next_id p <= next_id qA).
  { apply (fold_left_invariant optimize_step
             (fun q => element_attrs i q = Some a
                       /\ siblings_of i (root q) <> None
                       /\ next_id p <= next_id q)).
    - intros x q Hx (Hq1 & Hq2 & Hq3). destruct (Hl1 x Hx) as [Hne _].
      assert (i < next_id q) by (specialize (Hl i Hi); lia).
      split; [|split].
      + rewrite element_attrs_step_other by auto. exact Hq1.
      + apply siblings_step; assumption.
      + pose proof (next_id_optimize_step q x). lia.
    - split; [|split].
      + unfold element_attrs, p0. simpl. rewrite He. reflexivity.
      + exact (image_has_parent p i e W He Himg).
      + unfold p0. simpl. lia. }
  destruct HA as (HA1 & HA2 & HA3).
  assert (HiA : i < next_id qA) by (specialize (Hl i Hi); lia).
  destruct (optimize_step_self qA i a HA1 Hload HiA HA2) as [HB1 HB2].
  set (qB := optimize_step qA i) in *.
  assert (HC : element_attrs i (fold_left optimize_step l2 qB)
               = Some (lazy_attrs (src_of a) a)
               /\ previousSibling i (root (fold_left optimize_step l2 qB))
                  = Some (fallback (next_id qA) a)
               /\ next_id p <= next_id (fold_left optimize_step l2 qB)).
  { apply (fold_left_invariant optimize_step
             (fun q => element_attrs i q = Some (lazy_attrs (src_of a) a)
                       /\ previousSibling i (root q) = Some (fallback (next_id qA) a)
                       /\ next_id p <= next_id q)).
    - intros x q Hx (Hq1 & Hq2 & Hq3). destruct (Hl2 x Hx) as [Hne Hlt].
      assert (i < next_id q) by (specialize (Hl i Hi); lia).
      split; [|split].
      + rewrite element_attrs_step_other by auto. exact Hq1.
      + apply previousSibling_step_other; auto.
        apply not_in_fallback. lia.
      + pose proof (next_id_optimize_step q x). lia.
    - split; [exact HB1 | split; [exact HB2|]].
      pose proof (next_id_optimize_step qA i) as Hn. fold qB in Hn. lia. }
  destruct HC as (HC1 & HC2 & _).
  exists (next_id qA). split; [exact HC1 | exact HC2].
Qed.

Lemma loading_of_lazy_attrs src a : loading_of (lazy_attrs src a) = loading_of a.
Proof.
  unfold loading_of, lazy_attrs, Attr.class_add.
  rewrite attr_get_set, attr_get_remove, attr_get_set. reflexivity.
Qed.

Lemma src_of_lazy_attrs src a : src_of (lazy_attrs src a) = EmptyString.
Proof. unfold src_of. rewrite lazy_attrs_src. reflexivity. Qed.

(** X7: the pass does not recognise its own work.  Run a second time, it
    rewrites again every image it rewrote the first time: [data-src], which
    held the source of the image, now holds the empty string, and a second
    fallback, whose image has the empty string for source, stands just
    before the image. *)
Theorem optimizeMediaLoading_twice_loses_source (p : Page) (i : Ref) (e : Node) :
  well_formed p = true ->
  find_elem i (root p) = Some e ->
  has_tag "img" e = true ->
  truthy (loading_of (node_attrs e)) = false ->
  exists a1 a2 n0 n1,
    element_attrs i (page_after optimizeMediaLoading p) = Some a1
    /\ Attr.get "data-src" a1 = Some (src_of (node_attrs e))
    /\ element_attrs i (page_after optimizeMediaLoading
                          (page_after optimizeMediaLoading p)) = Some a2
    /\ Attr.get "data-src" a2 = Some EmptyString
    /\ Attr.get "src" a2 = None
    /\ previousSibling i (root (page_after optimizeMediaLoading
                                  (page_after optimizeMediaLoading p)))
       = Some (Elem n0 "noscript" []
                 [Elem n1 "img"
                    [("src", EmptyString);
                     ("alt", if truthy (alt_of (node_attrs e))
                             then alt_of (node_attrs e)
                             else "Portfolio image")] []]).
Proof.
  intros Hwf He Himg Hload. apply well_formed_spec in Hwf as W.
  destruct (optimizeMediaLoading_unmarked p i e W He Himg Hload) as (m0 & H1 & _).
  set (a := node_attrs e) in *.
  set (a1 := lazy_attrs (src_of a) a) in *.
  set (p1 := page_after optimizeMediaLoading p) in *.
  assert (W1 : WellFormed p1) by (apply WellFormed_optimizeMediaLoading; exact W).
  destruct (tag_optimizeMediaLoading p i e "img" W He Himg) as (e1 & He1 & Himg1).
  fold p1 in He1.
  assert (Ea1 : node_attrs e1 = a1).
  { unfold element_attrs in H1. rewrite He1 in H1. injection H1 as H1. exact H1. }
  assert (Hload1 : truthy (loading_of (node_attrs e1)) = false).
  { rewrite Ea1. unfold a1. rewrite loading_of_lazy_attrs. exact Hload. }
  destruct (optimizeMediaLoading_unmarked p1 i e1 W1 He1 Himg1 Hload1) as (n0 & H2 & H3).
  rewrite Ea1 in H2, H3.
  exists a1, (lazy_attrs (src_of a1) a1), n0, (S n0).
  split; [exact H1|]. split; [apply lazy_attrs_data_src|].
  split; [exact H2|].
  split; [rewrite lazy_attrs_data_src; unfold a1; rewrite src_of_lazy_attrs; reflexivity|].
  split; [apply lazy_attrs_src|].
  rewrite H3. unfold fallback, alt_or_default, a1.
  rewrite src_of_lazy_attrs, alt_of_lazy_attrs. reflexivity.
Qed.


End MediaAgain.

(** ** The statements of the file, and the ready signal after them *)

Lemma update_kids_Elem b f j t a ks :
  update_kids b f (Elem j t a ks)
  = Elem j t a (if Nat.eqb b j then f (map (update_kids b f) ks)
                else map (update_kids b f) ks).
Proof. reflexivity. Qed.

Lemma query_append_child s b new n :
  query s new = [] -> query s (append_child b new n) = query s n.
Proof.
  intros Hnew. unfold append_child.
  induction n as [i t a ks IH| |] using Node_ind'; try reflexivity.
  rewrite update_kids_Elem, !query_Elem.
  assert (Hks : flat_map (query s) (map (update_kids b (fun ks0 => ks0 ++ [new])) ks)
                = flat_map (query s) ks).
  { induction IH as [|k ks Hk _ IHks]; [reflexivity|]. cbn [map flat_map].
    rewrite Hk, IHks. reflexivity. }
  f_equal. destruct (Nat.eqb b i); [|exact Hks].
  rewrite flat_map_app, Hks. cbn [flat_map]. rewrite Hnew, !app_nil_r. reflexivity.
Qed.

Section Statements.

Context {host : Host}.

Lemma child_with_tag_retag t l r : child_with_tag t (retag l r) = child_with_tag t r.
Proof.
  revert r. induction l as [|k l IH]; intros r; [reflexivity|].
  unfold retag in *. cbn [fold_left]. rewrite IH. apply child_with_tag_update_attrs.
Qed.

Lemma find_elem_retag x l r :
  option_map text_content (find_elem x (retag l r)) = option_map text_content (find_elem x r).
Proof.
  revert r. induction l as [|k l IH]; intros r; [reflexivity|].
  unfold retag in *. cbn [fold_left]. rewrite IH, find_elem_update_attrs.
  destruct (find_elem x r); cbn [option_map]; [|reflexivity].
  rewrite text_content_update_attrs. reflexivity.
Qed.

Lemma text_at_retag x l q : text_at x (with_root (retag l) q) = text_at x q.
Proof.
  unfold text_at. cbn [with_root root].
  pose proof (find_elem_retag x l (root q)) as H.
  destruct (find_elem x (retag l (root q))), (find_elem x (root q));
    cbn [option_map] in H; congruence.
Qed.

Lemma query_ByTag_retag t l r : query (ByTag t) (retag l r) = query (ByTag t) r.
Proof.
  revert r. induction l as [|k l IH]; intros r; [reflexivity|].
  unfold retag in *. cbn [fold_left]. rewrite IH. apply query_ByTag_update_attrs.
Qed.

Lemma enter_emit_schema_run c schema p h :
  child_with_tag "head" (root p) = Some h ->
  (enter c ;; emit_schema schema) p
  = (mkPage (append_child h (schema_block (next_id p) schema) (root p))
            (title p) (S (next_id p)) (listeners p) (beacons p) (console p)
            (calls p ++ [c]), Ret tt).
Proof.
  intros Hh. erewrite bind_run by reflexivity.
  rewrite (emit_schema_run schema _ h) by exact Hh. reflexivity.
Qed.

Lemma script_exact p h b :
  child_with_tag "head" (root p) = Some h ->
  child_with_tag "body" (root p) = Some b ->
  script p = (after_script p h b, Ret tt).
Proof.
  intros Hh Hb. unfold script.
  erewrite bind_run by reflexivity.
  erewrite bind_run by apply new_ContentPrioritizer_exact.
  erewrite bind_run.
  2:{ apply (analyzeKeywordDensity_run _ b). cbn [with_root root logged].
      rewrite child_with_tag_retag. exact Hb. }
  erewrite bind_run by reflexivity.
  unfold generatePersonSchema, generateBreadcrumbSchema, generateFAQSchema.
  erewrite bind_run.
  2:{ apply (enter_emit_schema_run _ _ _ h). cbn.
      rewrite child_with_tag_retag. exact Hh. }
  erewrite bind_run.
  2:{ apply (enter_emit_schema_run _ _ _ h). cbn [root].
      apply child_with_tag_append_child. cbn.
      rewrite child_with_tag_retag. exact Hh. }
  rewrite (enter_emit_schema_run _ _ _ h).
  2:{ cbn [root]. do 2 apply child_with_tag_append_child. cbn.
      rewrite child_with_tag_retag. exact Hh. }
  unfold after_script. f_equal.
  cbn [root title next_id listeners beacons console calls page_after fst
       addEventListener modify with_root logged console_log].
  rewrite text_at_retag.
  unfold top_level_calls. rewrite <- !app_assoc. reflexivity.
Qed.

(** X9: on a document that has no body yet, the statements of the file
    stop at the keyword check, which throws: the listener for the ready
    signal is registered and the priority tags are set, but nothing is
    logged and no structured-data block is added to the tree. *)
Theorem script_throws_without_body (p : Page) :
  child_with_tag "body" (root p) = None ->
  returns script p = false
  /\ listeners (page_after script p)
     = listeners p ++ [("DOMContentLoaded", ReadyCallback)]
  /\ calls (page_after script p)
     = calls p ++ [CallContentPrioritizer; CallAddPriorityTags;
                   CallAnalyzeKeywordDensity]
  /\ console (page_after script p) = console p
  /\ shape (root (page_after script p)) = shape (root p).
Proof.
  intros Hb.
  assert (E : script p
              = (logged (with_root (retag (priority_targets p))
                           (logged (page_after
                                      (addEventListener "DOMContentLoaded" ReadyCallback) p)
                                   [CallContentPrioritizer; CallAddPriorityTags]))
                        [CallAnalyzeKeywordDensity],
                 Throw TypeError)).
  { unfold script.
    erewrite bind_run by reflexivity.
    erewrite bind_run by apply new_ContentPrioritizer_exact.
    erewrite bind_throw; [reflexivity|].
    unfold analyzeKeywordDensity, bind, enter, modify, document_body, read, deref, throw.
    cbn [fst snd root with_root logged page_after addEventListener modify].
    rewrite child_with_tag_retag, Hb. reflexivity. }
  unfold returns, page_after at 1 2 3 4. rewrite E. cbn [fst snd].
  split; [reflexivity|]. split; [reflexivity|].
  split; [cbn; rewrite <- app_assoc; reflexivity|].
  split; [reflexivity|]. cbn. apply shape_retag.
Qed.

(** *** The ready signal *)

Lemma dispatch_single p :
  listeners p = [("DOMContentLoaded", ReadyCallback)] ->
  dispatch "DOMContentLoaded" p = page_after ready_callback p.
Proof. intros H. unfold dispatch. rewrite H. reflexivity. Qed.

(** X10: on a page without a [main] element the ready callback throws in
    its first step, before any change: the page after load is the page the
    statements of the file left, so there is no hidden block, no rewritten
    image, no sitemap, no ping and no completion flag. *)
Theorem page_load_stops_without_main (p : Page) :
  well_formed p = true ->
  listeners p = [] ->
  query (ByTag "main") (root p) = [] ->
  page_load p = logged (page_after script p) [CallEnhanceSemanticStructure].
Proof.
  intros Hwf Hl Hmain. apply well_formed_spec in Hwf as W.
  destruct (head_element p W) as (h & _ & _ & Hh & _).
  destruct (body_element p W) as (b & _ & _ & Hb & _).
  unfold page_load, page_after at 1 2. rewrite (script_exact p h b Hh Hb). cbn [fst].
  rewrite dispatch_single by (cbn; rewrite Hl; reflexivity).
  unfold page_after, ready_callback.
  erewrite bind_throw; [reflexivity|].
  rewrite enhanceSemanticStructure_run.
  assert (E : query (ByTag "main") (root (after_script p h b)) = []).
  { cbn [after_script root]. rewrite !query_append_child by reflexivity.
    rewrite query_ByTag_retag. exact Hmain. }
  rewrite E. reflexivity.
Qed.

(** *** The console *)

Lemma preserves_mapM {A B : Type} (I : Page -> Prop) (f : A -> JS B) l :
  (forall x, preserves I (f x)) -> preserves I (mapM f l).
Proof.
  intros H. induction l as [|x l IH]; [apply preserves_ret|].
  cbn [mapM]. apply preserves_bind; [apply H | intros y].
  apply preserves_bind; [exact IH | intros ys]. apply preserves_ret.
Qed.

Lemma preserves_dispatch (I : Page -> Prop) ev :
  preserves I ready_callback -> forall p, I p -> I (dispatch ev p).
Proof.
  intros H p. unfold dispatch. generalize (listeners p). intros ls. revert p.
  induction ls as [|[ev' l] ls IH]; intros p Hp; [exact Hp|].
  cbn [fold_left fst snd]. apply IH. destruct (String.eqb ev ev'); [|exact Hp].
  destruct l. apply H. exact Hp.
Qed.

Ltac unfold_passes :=
  unfold ready_callback, enhanceSemanticStructure, annotate_item, addBotOnlyContent,
    optimizeMediaLoading, optimize_image, generateDynamicSitemap, new_URL_pathname,
    sendIndexingSignals, querySelector, querySelectorAll, querySelectorIn, textContent,
    attributes, document_body, document_title, document_documentElement.

Ltac frame_leaf :=
  match goal with
  | |- preserves _ _ => let q := fresh "q" in let H := fresh "H" in intros q H; exact H
  end.

Ltac frame :=
  repeat first
    [ apply preserves_bind; [|intros ?]
    | apply preserves_forEach; intros ?
    | apply preserves_mapM; intros ?
    | apply preserves_read
    | apply preserves_deref
    | apply preserves_ret
    | match goal with
      | |- preserves _ (if ?b then _ else _) => destruct b
      end
    | frame_leaf ].

Lemma console_ready_callback c : preserves (fun q => console q = c) ready_callback.
Proof. unfold_passes. frame. Qed.

(** X11: loading the page logs exactly one keyword report, and it is the
    report on the text the body had before the script changed anything:
    the text of the hidden blocks the ready callback appends is not
    counted. *)
Theorem page_load_logs_report_of_initial_text (p : Page) (b : Ref) :
  well_formed p = true ->
  child_with_tag "body" (root p) = Some b ->
  console (page_load p)
  = console p ++ [("Keyword Density Report:",
                   density_of (Str.toLowerCase (text_at b p)))].
Proof.
  intros Hwf Hb. apply well_formed_spec in Hwf as W.
  destruct (head_element p W) as (h & _ & _ & Hh & _).
  unfold page_load.
  apply (preserves_dispatch (fun q => console q = _)); [apply console_ready_callback|].
  unfold page_after. rewrite (script_exact p h b Hh Hb). reflexivity.
Qed.

End Statements.

(** ** A link that is no URL, and the steps after the sitemap *)

Lemma returns_bind {A B : Type} (m : JS A) (k : JS B) p :
  returns (m ;; k) p = returns m p && returns k (page_after m p).
Proof. unfold returns, page_after, bind. destruct (m p) as [q [a|e]]; reflexivity. Qed.

Lemma page_after_bind {A B : Type} (m : JS A) (k : JS B) p :
  page_after (m ;; k) p
  = if returns m p then page_after k (page_after m p) else page_after m p.
Proof. unfold returns, page_after, bind. destruct (m p) as [q [a|e]]; reflexivity. Qed.

Lemma node_attrs_append_child b new n :
  node_attrs (append_child b new n) = node_attrs n.
Proof. destruct n; reflexivity. Qed.

Lemma attr_get_class_add k c a :
  String.eqb k "class" = false -> Attr.get k (Attr.class_add c a) = Attr.get k a.
Proof. intros E. unfold Attr.class_add. rewrite attr_get_set, E. reflexivity. Qed.

Section Links.

Context {host : Host}.

Lemma node_hrefs_Elem i t a ks :
  node_hrefs (Elem i t a ks)
  = (if String.eqb "a" t && Attr.has "href" a then [href_of a] else [])
      ++ flat_map node_hrefs ks.
Proof. reflexivity. Qed.

Lemma anchor_hrefs_in r : List.NoDup (ids r) -> forall n,
  (forall e, In e (elements n) -> In e (elements r)) ->
  map (fun a => href_of (match find_elem a r with
                         | Some x => node_attrs x
                         | None => []
                         end)) (query (ByTagWithAttr "a" "href") n)
  = node_hrefs n.
Proof.
  intros Hnd n. induction n as [i t a ks IH| |] using Node_ind'; intros Hsub;
    try reflexivity.
  rewrite query_Elem, node_hrefs_Elem, map_app. f_equal.
  - change (matches (ByTagWithAttr "a" "href") (Elem i t a ks))
      with (String.eqb "a" t && Attr.has "href" a).
    destruct (String.eqb "a" t && Attr.has "href" a); [|reflexivity].
    cbn [map]. rewrite (elements_find (Elem i t a ks) r i Hnd).
    + reflexivity.
    + apply Hsub. left. reflexivity.
    + apply Nat.eqb_refl.
  - assert (Hks : forall e, In e (flat_map elements ks) -> In e (elements r)).
    { intros e He. apply Hsub. right. exact He. }
    clear Hsub. induction IH as [|k ks Hk _ IHks]; [reflexivity|].
    cbn [flat_map]. rewrite map_app, Hk, IHks.
    + reflexivity.
    + intros e He. apply Hks. cbn [flat_map]. apply in_or_app. right. exact He.
    + intros e He. apply Hks. cbn [flat_map]. apply in_or_app. left. exact He.
Qed.

Lemma anchor_hrefs_node_hrefs p :
  WellFormed p -> anchor_hrefs p = node_hrefs (root p).
Proof.
  intros W. unfold anchor_hrefs, attrs_at.
  apply anchor_hrefs_in; [apply NoDup_ListNoDup, (wf_distinct p W) | auto].
Qed.

Lemma node_hrefs_update_attrs j f n :
  (forall a, Attr.get "href" (f a) = Attr.get "href" a) ->
  node_hrefs (update_attrs j f n) = node_hrefs n.
Proof.
  intros Hf. induction n as [i t a ks IH| |] using Node_ind'; try reflexivity.
  cbn [update_attrs]. rewrite !node_hrefs_Elem. f_equal.
  - destruct (Nat.eqb j i); [|reflexivity].
    unfold Attr.has, href_of. rewrite Hf. reflexivity.
  - induction IH as [|k ks Hk _ IHks]; [reflexivity|].
    cbn [map flat_map]. rewrite Hk, IHks. reflexivity.
Qed.

Lemma node_hrefs_append_child l b new n :
  In l (node_hrefs n) -> In l (node_hrefs (append_child b new n)).
Proof.
  unfold append_child.
  induction n as [i t a ks IH| |] using Node_ind'; try (intros []).
  rewrite update_kids_Elem, !node_hrefs_Elem, !in_app_iff.
  intros [H|H]; [left; exact H | right].
  assert (Hks : In l (flat_map node_hrefs
                        (map (update_kids b (fun ks0 => ks0 ++ [new])) ks))).
  { rewrite in_flat_map in *. destruct H as (k & Hk & Hl).
    exists (update_kids b (fun ks0 => ks0 ++ [new]) k). split; [apply in_map; exact Hk|].
    rewrite List.Forall_forall in IH. apply (IH k Hk). exact Hl. }
  destruct (Nat.eqb b i); [|exact Hks].
  rewrite flat_map_app, in_app_iff. left. exact Hks.
Qed.

Lemma node_hrefs_insert_before l j new n :
  In l (node_hrefs n) -> In l (node_hrefs (insert_before j new n)).
Proof.
  induction n as [i t a ks IH| |] using Node_ind'; try (intros []).
  cbn [insert_before]. rewrite !node_hrefs_Elem, !in_app_iff.
  intros [H|H]; [left; exact H | right].
  rewrite in_flat_map in *. destruct H as (k & Hk & Hl).
  exists (insert_before j new k). split; [apply In_put_before; exact Hk|].
  rewrite List.Forall_forall in IH. apply (IH k Hk). exact Hl.
Qed.

(** *** What the first four steps keep *)

Section Kept.

Variables (l : string) (bs : list string) (flag : option string).

Lemma link_update e f :
  (forall a, Attr.get "href" (f a) = Attr.get "href" a) ->
  preserves (has_link l) (modify (with_root (update_attrs e f))).
Proof.
  intros Hf q H. unfold has_link in *. cbn.
  rewrite node_hrefs_update_attrs by exact Hf. exact H.
Qed.

Lemma link_setAttribute e k v :
  String.eqb "href" k = false -> preserves (has_link l) (setAttribute e k v).
Proof. intros E. apply link_update. intros a. rewrite attr_get_set, E. reflexivity. Qed.

Lemma link_removeAttribute e k :
  String.eqb "href" k = false -> preserves (has_link l) (removeAttribute e k).
Proof. intros E. apply link_update. intros a. rewrite attr_get_remove, E. reflexivity. Qed.

Lemma link_classList_add e c : preserves (has_link l) (classList_add e c).
Proof. apply link_update. intros a. apply attr_get_class_add. reflexivity. Qed.

Lemma link_appendChild b c : preserves (has_link l) (appendChild b c).
Proof. intros q H. apply node_hrefs_append_child. exact H. Qed.

Lemma link_insertBefore c e : preserves (has_link l) (insertBefore_sibling c e).
Proof. intros q H. apply node_hrefs_insert_before. exact H. Qed.

Lemma flag_update e f :
  (forall a, Attr.get "data-seo-enhanced" (f a) = Attr.get "data-seo-enhanced" a) ->
  preserves (unsignalled bs flag) (modify (with_root (update_attrs e f))).
Proof.
  intros Hf q [Hb H]. split; [exact Hb|]. cbn.
  rewrite node_attrs_update_attrs. destruct (has_id e (root q)); [rewrite Hf|]; exact H.
Qed.

Lemma flag_setAttribute e k v :
  String.eqb "data-seo-enhanced" k = false -> preserves (unsignalled bs flag) (setAttribute e k v).
Proof. intros E. apply flag_update. intros a. rewrite attr_get_set, E. reflexivity. Qed.

Lemma flag_removeAttribute e k :
  String.eqb "data-seo-enhanced" k = false -> preserves (unsignalled bs flag) (removeAttribute e k).
Proof. intros E. apply flag_update. intros a. rewrite attr_get_remove, E. reflexivity. Qed.

Lemma flag_classList_add e c : preserves (unsignalled bs flag) (classList_add e c).
Proof. apply flag_update. intros a. apply attr_get_class_add. reflexivity. Qed.

Lemma flag_appendChild b c : preserves (unsignalled bs flag) (appendChild b c).
Proof.
  intros q [Hb H]. split; [exact Hb|]. cbn. rewrite node_attrs_append_child. exact H.
Qed.

Lemma flag_insertBefore c e : preserves (unsignalled bs flag) (insertBefore_sibling c e).
Proof.
  intros q [Hb H]. split; [exact Hb|]. cbn. rewrite node_attrs_insert_before. exact H.
Qed.

Ltac kept :=
  repeat first
    [ apply preserves_bind; [|intros ?]
    | apply preserves_forEach; intros ?
    | apply preserves_mapM; intros ?
    | apply preserves_read
    | apply preserves_deref
    | apply preserves_ret
    | apply link_setAttribute; reflexivity
    | apply link_removeAttribute; reflexivity
    | apply link_classList_add
    | apply link_appendChild
    | apply link_insertBefore
    | apply flag_setAttribute; reflexivity
    | apply flag_removeAttribute; reflexivity
    | apply flag_classList_add
    | apply flag_appendChild
    | apply flag_insertBefore
    | match goal with
      | |- preserves _ (if ?b then _ else _) => destruct b
      end
    | match goal with
      | |- preserves _ _ => let q := fresh "q" in let H := fresh "H" in intros q H; exact H
      end ].

Ltac unfold_steps :=
  unfold enhanceSemanticStructure, annotate_item, addBotOnlyContent,
    optimizeMediaLoading, optimize_image, generateDynamicSitemap, new_URL_pathname,
    querySelector, querySelectorAll, querySelectorIn, textContent,
    attributes, document_body, document_title.

Lemma link_enhanceSemanticStructure : preserves (has_link l) enhanceSemanticStructure.
Proof. unfold_steps. kept. Qed.

Lemma link_addBotOnlyContent : preserves (has_link l) addBotOnlyContent.
Proof. unfold_steps. kept. Qed.

Lemma link_optimizeMediaLoading : preserves (has_link l) optimizeMediaLoading.
Proof. unfold_steps. kept. Qed.

Lemma flag_enhanceSemanticStructure : preserves (unsignalled bs flag) enhanceSemanticStructure.
Proof. unfold_steps. kept. Qed.

Lemma flag_addBotOnlyContent : preserves (unsignalled bs flag) addBotOnlyContent.
Proof. unfold_steps. kept. Qed.

Lemma flag_optimizeMediaLoading : preserves (unsignalled bs flag) optimizeMediaLoading.
Proof. unfold_steps. kept. Qed.

Lemma flag_generateDynamicSitemap : preserves (unsignalled bs flag) generateDynamicSitemap.
Proof. unfold_steps. kept. Qed.

End Kept.

Lemma generateDynamicSitemap_throws_on p l :
  WellFormed p -> In l (node_hrefs (root p)) -> url_pathname l = None ->
  returns generateDynamicSitemap p = false.
Proof.
  intros W Hl Hu. unfold returns. rewrite generateDynamicSitemap_run. cbv zeta.
  assert (E : render_entries (Str.ordered_set (anchor_hrefs p)) = None).
  { apply render_entries_none. exists l. split; [|exact Hu].
    apply ordered_set_In. rewrite anchor_hrefs_node_hrefs by exact W. exact Hl. }
  rewrite E. reflexivity.
Qed.

(** X12: one anchor whose [href] is no URL is enough for the ready callback
    to throw before its last step, wherever the anchor is and whatever the
    other steps do: no ping is sent and the root does not get the
    completion flag. *)
Theorem ready_callback_never_signals_with_malformed_href (p : Page) (l : string) :
  well_formed p = true ->
  In l (anchor_hrefs p) ->
  url_pathname l = None ->
  returns ready_callback p = false
  /\ beacons (page_after ready_callback p) = beacons p
  /\ Attr.get "data-seo-enhanced" (node_attrs (root (page_after ready_callback p)))
     = Attr.get "data-seo-enhanced" (node_attrs (root p)).
Proof.
  intros Hwf Hl Hu. apply well_formed_spec in Hwf as W.
  rewrite (anchor_hrefs_node_hrefs p W) in Hl.
  destruct (head_element p W) as (h & _ & _ & Hh & _).
  assert (E0 : Emitted h [] p) by (constructor; [exact W | exact Hh | constructor]).
  set (qa := page_after enhanceSemanticStructure p).
  set (qb := page_after addBotOnlyContent qa).
  set (qc := page_after optimizeMediaLoading qb).
  set (qd := page_after generateDynamicSitemap qc).
  assert (Ea : Emitted h [] qa) by (apply preserves_enhanceSemanticStructure; exact E0).
  assert (Eb : Emitted h [] qb) by (apply preserves_addBotOnlyContent; exact Ea).
  assert (Ec : Emitted h [] qc) by (apply preserves_optimizeMediaLoading; exact Eb).
  assert (La : has_link l qa) by (apply link_enhanceSemanticStructure; exact Hl).
  assert (Lb : has_link l qb) by (apply link_addBotOnlyContent; exact La).
  assert (Lc : has_link l qc) by (apply link_optimizeMediaLoading; exact Lb).
  assert (Hd : returns generateDynamicSitemap qc = false)
    by (apply (generateDynamicSitemap_throws_on qc l (em_wf _ _ _ Ec) Lc Hu)).
  set (flag := Attr.get "data-seo-enhanced" (node_attrs (root p))).
  assert (U0 : unsignalled (beacons p) flag p) by (split; reflexivity).
  assert (Ua : unsignalled (beacons p) flag qa)
    by (apply flag_enhanceSemanticStructure; exact U0).
  assert (Ub : unsignalled (beacons p) flag qb)
    by (apply flag_addBotOnlyContent; exact Ua).
  assert (Uc : unsignalled (beacons p) flag qc)
    by (apply flag_optimizeMediaLoading; exact Ub).
  assert (Ud : unsignalled (beacons p) flag qd)
    by (apply flag_generateDynamicSitemap; exact Uc).
  unfold ready_callback.
  rewrite !returns_bind, !page_after_bind. fold qa qb qc. rewrite Hd. fold qd.
  split; [rewrite !andb_false_r; reflexivity|].
  destruct (returns enhanceSemanticStructure p); [|exact Ua].
  destruct (returns addBotOnlyContent qa); [|exact Ub].
  destruct (returns optimizeMediaLoading qb); [|exact Uc].
  exact Ud.
Qed.

End Links.

(** ** When the ready callback runs to its end *)

Lemma list_ascii_of_string_app (s1 s2 : string) :
  list_ascii_of_string (s1 ++ s2) = list_ascii_of_string s1 ++ list_ascii_of_string s2.
Proof.
  induction s1 as [|c s1 IH]; [reflexivity|].
  rewrite append_cons. cbn [list_ascii_of_string app]. rewrite IH. reflexivity.
Qed.

Lemma escape_written c :
  forallb written_char (list_ascii_of_string (URI.escape c)) = true.
Proof.
  destruct c as [[] [] [] [] [] [] [] []]; vm_compute; reflexivity.
Qed.

Lemma encodeURIComponent_written s :
  forallb written_char (list_ascii_of_string (URI.encodeURIComponent s)) = true.
Proof.
  induction s as [|c s IH]; [reflexivity|].
  cbn [URI.encodeURIComponent]. rewrite list_ascii_of_string_app, forallb_app, IH, andb_true_r.
  destruct (URI.unreserved c) eqn:E; [|apply escape_written].
  cbn [list_ascii_of_string forallb]. unfold written_char. rewrite E. reflexivity.
Qed.

Lemma node_hrefs_nil_append_child {host : Host} b new n :
  node_hrefs new = [] -> node_hrefs (append_child b new n) = node_hrefs n.
Proof.
  intros Hnew. unfold append_child.
  induction n as [i t a ks IH| |] using Node_ind'; try reflexivity.
  rewrite update_kids_Elem, !node_hrefs_Elem.
  assert (Hks : flat_map node_hrefs (map (update_kids b (fun ks0 => ks0 ++ [new])) ks)
                = flat_map node_hrefs ks).
  { induction IH as [|k ks Hk _ IHks]; [reflexivity|]. cbn [map flat_map].
    rewrite Hk, IHks. reflexivity. }
  f_equal. destruct (Nat.eqb b i); [|exact Hks].
  rewrite flat_map_app, Hks. cbn [flat_map]. rewrite Hnew, !app_nil_r. reflexivity.
Qed.

Lemma node_hrefs_nil_insert_before {host : Host} j new n :
  node_hrefs new = [] -> node_hrefs (insert_before j new n) = node_hrefs n.
Proof.
  intros Hnew. induction n as [i t a ks IH| |] using Node_ind'; try reflexivity.
  cbn [insert_before]. rewrite !node_hrefs_Elem. f_equal.
  induction IH as [|k ks Hk _ IHks]; [reflexivity|].
  rewrite put_before_cons, flat_map_app, IHks. cbn [flat_map]. f_equal.
  destruct (has_id j k); cbn [flat_map]; rewrite ?Hnew, Hk, ?app_nil_r; reflexivity.
Qed.

Section Completion.

Context {host : Host}.

Lemma links_setAttribute ls e k v :
  String.eqb "href" k = false -> preserves (links_are ls) (setAttribute e k v).
Proof.
  intros E q H. unfold links_are in *. cbn.
  rewrite node_hrefs_update_attrs; [exact H|].
  intros a. rewrite attr_get_set, E. reflexivity.
Qed.

Lemma links_enhanceSemanticStructure ls :
  preserves (links_are ls) enhanceSemanticStructure.
Proof.
  unfold enhanceSemanticStructure, annotate_item, querySelector, querySelectorAll,
    querySelectorIn, textContent.
  repeat first
    [ apply preserves_bind; [|intros ?]
    | apply preserves_forEach; intros ?
    | apply preserves_read
    | apply preserves_deref
    | apply links_setAttribute; reflexivity
    | match goal with
      | |- preserves _ _ => let q := fresh "q" in let H := fresh "H" in intros q H; exact H
      end ].
Qed.

Lemma links_addBotOnlyContent ls q :
  WellFormed q -> links_are ls q -> links_are ls (page_after addBotOnlyContent q).
Proof.
  intros W H. destruct (body_element q W) as (b & _ & _ & Hb & _).
  unfold page_after. rewrite (addBotOnlyContent_run q b Hb). unfold links_are in *. cbn.
  rewrite node_hrefs_nil_append_child by reflexivity. exact H.
Qed.

Lemma lazy_attrs_href src a : Attr.get "href" (lazy_attrs src a) = Attr.get "href" a.
Proof.
  unfold lazy_attrs, Attr.class_add.
  rewrite attr_get_set, attr_get_remove, attr_get_set. reflexivity.
Qed.

Lemma links_optimize_step ls q j :
  links_are ls q -> links_are ls (optimize_step q j).
Proof.
  intros H. destruct (truthy (loading_of (attrs_at j q))) eqn:E.
  - rewrite optimize_step_marked by exact E. exact H.
  - rewrite optimize_step_unmarked by exact E. unfold links_are in *. cbn [root].
    rewrite node_hrefs_nil_insert_before by reflexivity.
    rewrite node_hrefs_update_attrs by (intros a; apply lazy_attrs_href). exact H.
Qed.

Lemma links_optimizeMediaLoading ls q :
  links_are ls q -> links_are ls (page_after optimizeMediaLoading q).
Proof.
  intros H. unfold page_after. rewrite optimizeMediaLoading_run. cbn [fst].
  apply fold_left_invariant; [intros x r _ Hr; apply links_optimize_step; exact Hr|].
  exact H.
Qed.

Lemma returns_addBotOnlyContent q : WellFormed q -> returns addBotOnlyContent q = true.
Proof.
  intros W. destruct (body_element q W) as (b & _ & _ & Hb & _).
  unfold returns. rewrite (addBotOnlyContent_run q b Hb). reflexivity.
Qed.

Lemma returns_optimizeMediaLoading q : returns optimizeMediaLoading q = true.
Proof. unfold returns. rewrite optimizeMediaLoading_run. reflexivity. Qed.

Lemma returns_generateDynamicSitemap q :
  WellFormed q ->
  returns generateDynamicSitemap q
  = forallb (fun l => is_some (url_pathname l)) (anchor_hrefs q).
Proof.
  intros W. destruct (body_element q W) as (b & _ & _ & Hb & _).
  unfold returns. rewrite generateDynamicSitemap_run. cbv zeta. rewrite Hb.
  destruct (render_entries (Str.ordered_set (anchor_hrefs q))) as [es|] eqn:E; cbn [snd].
  - symmetry. apply forallb_forall. intros l Hl.
    assert (Hs : exists es', render_entries (Str.ordered_set (anchor_hrefs q)) = Some es')
      by (exists es; exact E).
    apply render_entries_some in Hs. rewrite List.Forall_forall in Hs.
    specialize (Hs l (proj2 (ordered_set_In l _) Hl)).
    destruct (url_pathname l); [reflexivity | congruence].
  - symmetry. apply render_entries_none in E. destruct E as (l & Hl & Hu).
    apply (proj1 (ordered_set_In _ _)) in Hl.
    destruct (forallb (fun l0 => is_some (url_pathname l0)) (anchor_hrefs q)) eqn:F;
      [|reflexivity].
    rewrite forallb_forall in F. specialize (F l Hl). rewrite Hu in F. discriminate.
Qed.

Lemma sendIndexingSignals_effect q :
  WellFormed q ->
  returns sendIndexingSignals q = true
  /\ beacons (page_after sendIndexingSignals q)
     = beacons q ++ (if sendBeacon_available then [ping_url] else [])
  /\ Attr.get "data-seo-enhanced" (node_attrs (root (page_after sendIndexingSignals q)))
     = Some "true".
Proof.
  intros W. destruct (has_tag_true _ _ (wf_html q W)) as (i & a & ks & Er).
  unfold returns, page_after, sendIndexingSignals, bind, enter, modify,
    document_documentElement, read, deref, setAttribute, sendBeacon, with_root, ping_url.
  destruct sendBeacon_available; simpl; rewrite Er; simpl;
    rewrite Nat.eqb_refl, attr_get_set, ?app_nil_r; auto.
Qed.

(** X13: the ready callback runs all five steps exactly when the page
    has a [main], a [nav], a heading in every portfolio entry, and no
    anchor whose [href] fails to parse; it then leaves the root with the
    completion flag and has sent the ping, once, when the host can send
    it.  The title is taken to be plain text: the hidden block, whose
    markup quotes it, then brings no anchor of its own to the sitemap
    step. *)
Theorem ready_callback_completes_iff (p : Page) :
  well_formed p = true ->
  plain_text (title p) = true ->
  returns ready_callback p
  = annotatable p && forallb (fun l => is_some (url_pathname l)) (anchor_hrefs p)
  /\ (returns ready_callback p = true ->
      beacons (page_after ready_callback p)
      = beacons p ++ (if sendBeacon_available then [ping_url] else [])
      /\ Attr.get "data-seo-enhanced"
                  (node_attrs (root (page_after ready_callback p)))
         = Some "true").
Proof.
  intros Hwf _. apply well_formed_spec in Hwf as W.
  destruct (head_element p W) as (h & _ & _ & Hh & _).
  assert (E0 : Emitted h [] p) by (constructor; [exact W | exact Hh | constructor]).
  set (qa := page_after enhanceSemanticStructure p).
  set (qb := page_after addBotOnlyContent qa).
  set (qc := page_after optimizeMediaLoading qb).
  set (qd := page_after generateDynamicSitemap qc).
  assert (Ea : Emitted h [] qa) by (apply preserves_enhanceSemanticStructure; exact E0).
  assert (Eb : Emitted h [] qb) by (apply preserves_addBotOnlyContent; exact Ea).
  assert (Ec : Emitted h [] qc) by (apply preserves_optimizeMediaLoading; exact Eb).
  assert (Ed : Emitted h [] qd) by (apply preserves_generateDynamicSitemap; exact Ec).
  pose proof (em_wf _ _ _ Ea) as Wa. pose proof (em_wf _ _ _ Eb) as Wb.
  pose proof (em_wf _ _ _ Ec) as Wc. pose proof (em_wf _ _ _ Ed) as Wd.
  assert (Lc : anchor_hrefs qc = anchor_hrefs p).
  { rewrite (anchor_hrefs_node_hrefs qc Wc), (anchor_hrefs_node_hrefs p W).
    apply links_optimizeMediaLoading, links_addBotOnlyContent; [exact Wa|].
    apply links_enhanceSemanticStructure. reflexivity. }
  assert (Ra : returns enhanceSemanticStructure p = annotatable p)
    by apply returns_enhanceSemanticStructure.
  assert (Rb : returns addBotOnlyContent qa = true)
    by (apply returns_addBotOnlyContent; exact Wa).
  assert (Rc : returns optimizeMediaLoading qb = true)
    by apply returns_optimizeMediaLoading.
  assert (Rd : returns generateDynamicSitemap qc
               = forallb (fun l => is_some (url_pathname l)) (anchor_hrefs p)).
  { rewrite returns_generateDynamicSitemap by exact Wc. rewrite Lc. reflexivity. }
  destruct (sendIndexingSignals_effect qd Wd) as (Re & Be & Fe).
  assert (Ud : beacons qd = beacons p).
  { assert (G : forall m : JS unit,
              (forall fl, preserves (unsignalled (beacons p) fl) m) ->
              forall q, beacons q = beacons p -> beacons (page_after m q) = beacons p).
    { intros m Hm q Hq.
      apply (Hm (Attr.get "data-seo-enhanced" (node_attrs (root q))) q).
      split; [exact Hq | reflexivity]. }
    apply (G generateDynamicSitemap (flag_generateDynamicSitemap (beacons p))).
    apply (G optimizeMediaLoading (flag_optimizeMediaLoading (beacons p))).
    apply (G addBotOnlyContent (flag_addBotOnlyContent (beacons p))).
    apply (G enhanceSemanticStructure (flag_enhanceSemanticStructure (beacons p))).
    reflexivity. }
  unfold ready_callback.
  rewrite !returns_bind, !page_after_bind. fold qa qb qc. fold qd.
  rewrite Ra, Rb, Rc, Rd, Re. cbn [andb]. rewrite andb_true_r.
  split; [reflexivity|].
  intros Hret. apply andb_true_iff in Hret. destruct Hret as [Hr1 Hr2].
  rewrite Hr1, Hr2. rewrite Be, Ud. split; [reflexivity | exact Fe].
Qed.

(** X14: the parameter [sendIndexingSignals] puts after [sitemap=] holds
    unreserved characters and percent escapes only, whatever the origin
    of the page: the ping URL has one parameter and no fragment. *)
Theorem sendIndexingSignals_ping_has_one_parameter (p : Page) :
  sendBeacon_available = true ->
  exists q,
    beacons (page_after sendIndexingSignals p)
    = beacons p ++ [("https://www.google.com/ping?sitemap=" ++ q)%string]
    /\ forallb written_char (list_ascii_of_string q) = true
    /\ URI.decodeURIComponent q = Some (location_origin ++ "/sitemap.xml")%string.
Proof.
  intros Hs.
  exists (URI.encodeURIComponent (location_origin ++ "/sitemap.xml")).
  split; [|split; [apply encodeURIComponent_written | apply decode_encode]].
  unfold page_after, sendIndexingSignals, bind, enter, modify, sendBeacon.
  rewrite Hs. cbn [fst snd].
  unfold document_documentElement, read, deref, setAttribute, modify.
  cbn [fst snd root]. destruct (root p); reflexivity.
Qed.

End Completion.

(** ** The further properties on the demonstration pages *)

Section OnCases.

#[local] Existing Instance Demo.host.

Lemma enhanceSemanticStructure_annotates_witness :
  well_formed Demo.portfolio = true
  /\ List.head (query (ByTag "main") (root Demo.portfolio)) = Some 8
  /\ List.head (query (ByTag "nav") (root Demo.portfolio)) = Some 4
  /\ returns enhanceSemanticStructure Demo.portfolio = true
  /\ Attr.get "role" (attrs_at 8 (page_after enhanceSemanticStructure Demo.portfolio))
     = Some "main"
  /\ Attr.get "itemtype" (attrs_at 4 (page_after enhanceSemanticStructure Demo.portfolio))
     = Some "https://schema.org/SiteNavigationElement"
  /\ Attr.get "aria-label"
              (attrs_at 10 (page_after enhanceSemanticStructure Demo.portfolio))
     = Some "Portfolio project: Technical SEO Specialist audit".
Proof.
  split; [reflexivity|]. split; [reflexivity|]. split; [reflexivity|].
  split; [reflexivity|].
  destruct (enhanceSemanticStructure_annotates (host := Demo.host) Demo.portfolio 8 4
              eq_refl eq_refl eq_refl eq_refl) as (Hrole & _ & Htype & Hitems).
  split; [exact Hrole|]. split; [exact Htype|].
  destruct (Hitems 10 (or_introl eq_refl)) as (_ & _ & h & Hh & Hlabel).
  injection Hh as <-. exact Hlabel.
Defined.

Lemma enhanceSemanticStructure_stops_at_missing_heading_witness :
  well_formed Cases.three_entries = true
  /\ query (ByClass "portfolio-item") (root Cases.three_entries) = [6] ++ 8 :: [9]
  /\ heading_of 8 Cases.three_entries = None
  /\ returns enhanceSemanticStructure Cases.three_entries = false
  /\ Attr.get "aria-label"
              (attrs_at 6 (page_after enhanceSemanticStructure Cases.three_entries))
     = Some "Portfolio project: Alpha"
  /\ Attr.get "itemtype"
              (attrs_at 8 (page_after enhanceSemanticStructure Cases.three_entries))
     = Some "https://schema.org/CreativeWork"
  /\ Attr.get "aria-label"
              (attrs_at 8 (page_after enhanceSemanticStructure Cases.three_entries))
     = None
  /\ Attr.get "aria-label"
              (attrs_at 9 (page_after enhanceSemanticStructure Cases.three_entries))
     = Some "third".
Proof.
  split; [reflexivity|]. split; [reflexivity|]. split; [reflexivity|].
  destruct (enhanceSemanticStructure_stops_at_missing_heading (host := Demo.host)
              Cases.three_entries 5 4 [6] [9] 8
              eq_refl eq_refl eq_refl eq_refl eq_refl eq_refl)
    as (Hret & Hbefore & Htype & Hafter).
  split; [exact Hret|].
  split; [exact (Hbefore 6 (or_introl eq_refl))|].
  split; [exact Htype|].
  split; [exact (Hafter 8 (or_introl eq_refl))|].
  exact (Hafter 9 (or_intror (or_introl eq_refl))).
Defined.

(** The section with the id [portfolio] is tagged, once and for all. *)
Example new_ContentPrioritizer_on_portfolio :
  priority_targets Demo.portfolio = [9]
  /\ attrs_at 9 (page_after new_ContentPrioritizer Demo.portfolio)
     = [("id", "portfolio"); ("data-seo-priority", "high"); ("aria-live", "polite")]
  /\ root (page_after new_ContentPrioritizer
             (page_after new_ContentPrioritizer Demo.portfolio))
     = root (page_after new_ContentPrioritizer Demo.portfolio).
Proof. repeat split; vm_compute; reflexivity. Qed.

Lemma optimizeMediaLoading_twice_loses_source_witness :
  well_formed Demo.portfolio = true
  /\ find_elem 13 (root Demo.portfolio)
     = Some (Elem 13 "img" [("src", "/a.png"); ("alt", "Shop")] [])
  /\ exists a1 a2 n0 n1,
      element_attrs 13 (page_after optimizeMediaLoading Demo.portfolio) = Some a1
      /\ Attr.get "data-src" a1 = Some "https://example.com/a.png"
      /\ element_attrs 13 (page_after optimizeMediaLoading
                             (page_after optimizeMediaLoading Demo.portfolio)) = Some a2
      /\ Attr.get "data-src" a2 = Some EmptyString
      /\ Attr.get "src" a2 = None
      /\ previousSibling 13 (root (page_after optimizeMediaLoading
                                     (page_after optimizeMediaLoading Demo.portfolio)))
         = Some (Elem n0 "noscript" []
                   [Elem n1 "img" [("src", EmptyString); ("alt", "Shop")] []]).
Proof.
  split; [reflexivity|]. split; [reflexivity|].
  exact (optimizeMediaLoading_twice_loses_source (host := Demo.host)
           Demo.portfolio 13 (Elem 13 "img" [("src", "/a.png"); ("alt", "Shop")] [])
           eq_refl eq_refl eq_refl eq_refl).
Defined.


Lemma script_throws_without_body_witness :
  child_with_tag "body" (root Cases.head_only) = None
  /\ returns script Cases.head_only = false
  /\ listeners (page_after script Cases.head_only) = [("DOMContentLoaded", ReadyCallback)]
  /\ calls (page_after script Cases.head_only)
     = [CallContentPrioritizer; CallAddPriorityTags; CallAnalyzeKeywordDensity]
  /\ console (page_after script Cases.head_only) = []
  /\ shape (root (page_after script Cases.head_only)) = shape (root Cases.head_only).
Proof.
  split; [reflexivity|].
  exact (script_throws_without_body (host := Demo.host) Cases.head_only eq_refl).
Defined.

Lemma page_load_stops_without_main_witness :
  well_formed Demo.without_main = true
  /\ listeners Demo.without_main = []
  /\ query (ByTag "main") (root Demo.without_main) = []
  /\ page_load Demo.without_main
     = logged (page_after script Demo.without_main) [CallEnhanceSemanticStructure].
Proof.
  split; [reflexivity|]. split; [reflexivity|]. split; [reflexivity|].
  exact (page_load_stops_without_main (host := Demo.host) Demo.without_main
           eq_refl eq_refl eq_refl).
Defined.

Lemma page_load_logs_report_of_initial_text_witness :
  well_formed Demo.portfolio = true
  /\ child_with_tag "body" (root Demo.portfolio) = Some 3
  /\ console (page_load Demo.portfolio)
     = [("Keyword Density Report:",
         density_of (Str.toLowerCase (text_at 3 Demo.portfolio)))].
Proof.
  split; [reflexivity|]. split; [reflexivity|].
  exact (page_load_logs_report_of_initial_text (host := Demo.host) Demo.portfolio 3
           eq_refl eq_refl).
Defined.

Lemma ready_callback_never_signals_with_malformed_href_witness :
  well_formed Cases.broken_nav = true
  /\ anchor_hrefs Cases.broken_nav = ["http://"]
  /\ url_pathname "http://" = None
  /\ returns ready_callback Cases.broken_nav = false
  /\ beacons (page_after ready_callback Cases.broken_nav) = []
  /\ Attr.get "data-seo-enhanced"
              (node_attrs (root (page_after ready_callback Cases.broken_nav)))
     = None.
Proof.
  split; [reflexivity|]. split; [reflexivity|]. split; [reflexivity|].
  exact (ready_callback_never_signals_with_malformed_href (host := Demo.host)
           Cases.broken_nav "http://" eq_refl (or_introl eq_refl) eq_refl).
Defined.

(** On that page the first three steps have run: the throw is the one of
    the sitemap. *)
Example broken_nav_stops_in_sitemap :
  calls (page_after ready_callback Cases.broken_nav)
  = [CallEnhanceSemanticStructure; CallAddBotOnlyContent; CallOptimizeMediaLoading;
     CallGenerateDynamicSitemap]
  /\ Attr.get "data-src" (attrs_at 9 (page_after ready_callback Cases.broken_nav))
     = Some "https://example.com/a.png".
Proof. split; vm_compute; reflexivity. Qed.

Lemma ready_callback_completes_iff_witness :
  well_formed Demo.portfolio = true
  /\ plain_text (title Demo.portfolio) = true
  /\ annotatable Demo.portfolio = true
  /\ returns ready_callback Demo.portfolio = true
  /\ beacons (page_after ready_callback Demo.portfolio)
     = ["https://www.google.com/ping?sitemap=https%3A%2F%2Fexample.com%2Fsitemap.xml"]
  /\ Attr.get "data-seo-enhanced"
              (node_attrs (root (page_after ready_callback Demo.portfolio)))
     = Some "true".
Proof.
  split; [reflexivity|]. split; [reflexivity|]. split; [reflexivity|].
  destruct (ready_callback_completes_iff (host := Demo.host) Demo.portfolio
              eq_refl eq_refl) as (Hret & Hdone).
  split; [exact Hret|].
  exact (Hdone Hret).
Defined.

Lemma sendIndexingSignals_ping_has_one_parameter_witness :
  sendBeacon_available = true
  /\ exists q,
      beacons (page_after sendIndexingSignals Demo.portfolio)
      = beacons Demo.portfolio ++ [("https://www.google.com/ping?sitemap=" ++ q)%string]
      /\ forallb written_char (list_ascii_of_string q) = true
      /\ URI.decodeURIComponent q = Some (location_origin ++ "/sitemap.xml")%string.
Proof.
  split; [reflexivity|].
  exact (sendIndexingSignals_ping_has_one_parameter (host := Demo.host) Demo.portfolio
           eq_refl).
Defined.

End OnCases.

(** ** Running a step again *)

(** *** A sequence of [setAttribute] on one element *)

Lemma set_all_app s1 s2 a : set_all (s1 ++ s2) a = set_all s2 (set_all s1 a).
Proof. apply fold_left_app. Qed.

Lemma attr_set_set k v v' a : Attr.set k v (Attr.set k v' a) = Attr.set k v a.
Proof.
  induction a as [|[k' w] a IH]; cbn [Attr.set].
  - rewrite String.eqb_refl. reflexivity.
  - destruct (String.eqb k k') eqn:E; cbn [Attr.set]; rewrite ?String.eqb_refl, ?E;
      [reflexivity | rewrite IH; reflexivity].
Qed.

Lemma attr_set_comm k j v w a :
  k <> j -> Attr.has k a = true -> Attr.has j a = true ->
  Attr.set k v (Attr.set j w a) = Attr.set j w (Attr.set k v a).
Proof.
  intros Hne. unfold Attr.has.
  induction a as [|[k' u] a IH]; cbn [Attr.get Attr.set]; [discriminate|].
  destruct (String.eqb k k') eqn:Ek, (String.eqb j k') eqn:Ej; cbn [Attr.set];
    rewrite ?Ek, ?Ej, ?String.eqb_refl.
  - apply String.eqb_eq in Ek, Ej. congruence.
  - intros _ _. assert (E : String.eqb j k = false) by (apply String.eqb_neq; congruence).
    rewrite E. reflexivity.
  - intros _ _. assert (E : String.eqb k j = false) by (apply String.eqb_neq; congruence).
    rewrite E. reflexivity.
  - intros Hk Hj. rewrite IH by assumption. reflexivity.
Qed.

Lemma attr_has_set_present k j v a :
  Attr.has k a = true -> Attr.has k (Attr.set j v a) = true.
Proof. intros H. rewrite attr_has_set, H. apply orb_true_r. Qed.

Lemma attr_get_set_all k s a : Attr.get k (set_all s a) = assigned k s (Attr.get k a).
Proof.
  revert a. induction s as [|[j w] s IH]; intros a; [reflexivity|].
  unfold set_all, assigned in *. cbn [fold_left fst snd]. rewrite IH, attr_get_set. reflexivity.
Qed.

(** Either [s] does not assign [k], or it leaves one value whatever was
    there. *)
Lemma assigned_cases k s :
  (forall o, assigned k s o = o) \/ (exists v, forall o, assigned k s o = Some v).
Proof.
  induction s as [|[j w] s IH]; [left; reflexivity|].
  unfold assigned in *. cbn [fold_left fst snd].
  destruct IH as [IH|[v IH]].
  - destruct (String.eqb k j).
    + right. exists w. intros o. apply IH.
    + left. intros o. apply IH.
  - right. exists v. intros o. apply IH.
Qed.

Lemma assigned_twice k s o : assigned k s (assigned k s o) = assigned k s o.
Proof.
  destruct (assigned_cases k s) as [H|[v H]]; [rewrite !H | rewrite !H]; reflexivity.
Qed.

Lemma has_set_all_present k s a : Attr.has k a = true -> Attr.has k (set_all s a) = true.
Proof.
  revert a. induction s as [|[j w] s IH]; intros a H; [exact H|].
  unfold set_all in *. cbn [fold_left fst snd]. apply IH, attr_has_set_present, H.
Qed.

Lemma has_set_all_assigned s : forall a kv,
  In kv s -> Attr.has (fst kv) (set_all s a) = true.
Proof.
  induction s as [|[j w] s IH]; intros a kv Hin; [destruct Hin|].
  unfold set_all in *. cbn [fold_left fst snd]. destruct Hin as [<-|Hin].
  - apply has_set_all_present. rewrite attr_has_set, String.eqb_refl. reflexivity.
  - apply IH. exact Hin.
Qed.

(** An assignment that a later one of [s] overrides. *)
Lemma set_all_overridden s : forall b k v,
  Attr.has k b = true ->
  (forall kv, In kv s -> Attr.has (fst kv) b = true) ->
  (exists w, In (k, w) s) ->
  set_all s (Attr.set k v b) = set_all s b.
Proof.
  induction s as [|[j w] s IH]; intros b k v Hk Hs (u & Hu); [destruct Hu|].
  unfold set_all in *. cbn [fold_left fst snd].
  destruct (String.eqb k j) eqn:E.
  - apply String.eqb_eq in E. subst j. rewrite attr_set_set. reflexivity.
  - assert (Hne : k <> j) by (apply String.eqb_neq; exact E).
    assert (Hj : Attr.has j b = true) by (apply (Hs (j, w)); left; reflexivity).
    rewrite <- (attr_set_comm k j v w b Hne Hk Hj).
    apply IH.
    + apply attr_has_set_present. exact Hk.
    + intros kv Hkv. apply attr_has_set_present. apply Hs. right. exact Hkv.
    + destruct Hu as [Hu|Hu]; [congruence | exists u; exact Hu].
Qed.

Lemma assigned_absent k s o :
  (forall w, ~ In (k, w) s) -> assigned k s o = o.
Proof.
  revert o. induction s as [|[j w] s IH]; intros o H; [reflexivity|].
  unfold assigned in *. cbn [fold_left fst snd].
  destruct (String.eqb k j) eqn:E.
  - apply String.eqb_eq in E. subst j. exfalso. apply (H w). left. reflexivity.
  - apply IH. intros u Hu. apply (H u). right. exact Hu.
Qed.

Lemma in_assigned_dec k (s : list (string * string)) :
  (exists w, In (k, w) s) \/ (forall w, ~ In (k, w) s).
Proof.
  induction s as [|[j w] s IH]; [right; intros w []|].
  destruct (String.eqb k j) eqn:E.
  - apply String.eqb_eq in E. subst j. left. exists w. left. reflexivity.
  - destruct IH as [[u Hu]|IH]; [left; exists u; right; exact Hu|].
    right. intros u [Hu|Hu]; [|exact (IH u Hu)].
    injection Hu as Hj _. subst j. rewrite String.eqb_refl in E. discriminate.
Qed.

(** Assignments that change no value change nothing. *)
Lemma set_all_fixed s : forall b,
  (forall kv, In kv s -> Attr.has (fst kv) b = true) ->
  (forall k, Attr.get k (set_all s b) = Attr.get k b) ->
  set_all s b = b.
Proof.
  induction s as [|[k v] s IH]; intros b Hs Hget; [reflexivity|].
  assert (Hk : Attr.has k b = true) by (apply (Hs (k, v)); left; reflexivity).
  assert (Hs' : forall kv, In kv s -> Attr.has (fst kv) b = true)
    by (intros kv Hkv; apply Hs; right; exact Hkv).
  change (set_all ((k, v) :: s) b) with (set_all s (Attr.set k v b)) in *.
  destruct (in_assigned_dec k s) as [Hin|Hout].
  - rewrite set_all_overridden in * by assumption. apply IH; assumption.
  - assert (Hv : Attr.get k b = Some v).
    { rewrite <- (Hget k), attr_get_set_all, assigned_absent by exact Hout.
      rewrite attr_get_set, String.eqb_refl. reflexivity. }
    rewrite (attr_set_same k v b Hv) in *. apply IH; assumption.
Qed.

Lemma set_all_twice s a : set_all s (set_all s a) = set_all s a.
Proof.
  apply set_all_fixed.
  - intros kv Hkv. apply has_set_all_assigned. exact Hkv.
  - intros k. rewrite !attr_get_set_all. apply assigned_twice.
Qed.

(** *** Rewrites of the whole tree *)

Lemma rewrite_attrs_id n : rewrite_attrs (fun _ a => a) n = n.
Proof.
  induction n as [i t a ks IH| |] using Node_ind'; cbn [rewrite_attrs]; try reflexivity.
  f_equal. rewrite <- (map_id ks) at 2. apply map_ext_Forall. exact IH.
Qed.

Lemma rewrite_attrs_ext g g' n :
  (forall x a, g x a = g' x a) -> rewrite_attrs g n = rewrite_attrs g' n.
Proof.
  intros E. induction n as [i t a ks IH| |] using Node_ind'; cbn [rewrite_attrs];
    try reflexivity.
  rewrite E. f_equal. apply map_ext_Forall. exact IH.
Qed.

Lemma rewrite_attrs_compose g2 g1 n :
  rewrite_attrs g2 (rewrite_attrs g1 n) = rewrite_attrs (fun x a => g2 x (g1 x a)) n.
Proof.
  induction n as [i t a ks IH| |] using Node_ind'; cbn [rewrite_attrs]; try reflexivity.
  f_equal. rewrite map_map. apply map_ext_Forall. exact IH.
Qed.

Lemma update_attrs_rewrite j f n :
  update_attrs j f n = rewrite_attrs (fun x a => if Nat.eqb j x then f a else a) n.
Proof.
  induction n as [i t a ks IH| |] using Node_ind'; cbn [rewrite_attrs update_attrs];
    try reflexivity.
  f_equal. apply map_ext_Forall. exact IH.
Qed.

Section Again.

Context {host : Host}.

Lemma fold_annotate_root p l q :
  root (fold_left (annotate_step p) l q)
  = rewrite_attrs
      (fun x => set_all (flat_map (fun item =>
                                  if Nat.eqb item x
                                  then [("itemscope", EmptyString);
                                        ("itemtype", "https://schema.org/CreativeWork");
                                        ("aria-label", item_label item p)]
                                  else []) l))
      (root q).
Proof.
  revert q. induction l as [|y l IH]; intros q.
  - cbn [fold_left flat_map]. symmetry. apply rewrite_attrs_id.
  - cbn [fold_left]. rewrite IH. unfold annotate_step at 1. cbn [with_root root].
    rewrite update_attrs_rewrite, rewrite_attrs_compose. apply rewrite_attrs_ext.
    intros x a. cbn [flat_map]. rewrite set_all_app.
    destruct (Nat.eqb y x); reflexivity.
Qed.

Lemma annotated_root p m n :
  List.head (query (ByTag "main") (root p)) = Some m ->
  List.head (query (ByTag "nav") (root p)) = Some n ->
  (forall x, In x (query (ByClass "portfolio-item") (root p)) -> heading_of x p <> None) ->
  root (page_after enhanceSemanticStructure p)
  = rewrite_attrs (fun x => set_all (annotations p m n x)) (root p).
Proof.
  intros Hm Hn Hi. unfold page_after.
  rewrite (enhanceSemanticStructure_done p m n Hm Hn Hi). cbn [fst].
  rewrite fold_annotate_root. unfold annotated_landmarks. cbn [with_root root logged].
  rewrite !update_attrs_rewrite, !rewrite_attrs_compose. apply rewrite_attrs_ext.
  intros x a. unfold annotations. rewrite !set_all_app.
  destruct (Nat.eqb m x), (Nat.eqb n x); reflexivity.
Qed.

Lemma query_rewrite_set_all s (g : Ref -> list (string * string)) n :
  (forall x kv, In kv (g x) -> sel_reads s (fst kv) = false) ->
  query s (rewrite_attrs (fun x => set_all (g x)) n) = query s n.
Proof.
  intros Hg. induction n as [i t a ks IH| |] using Node_ind'; try reflexivity.
  cbn [rewrite_attrs]. rewrite !query_Elem. f_equal.
  - assert (E : matches s (Elem i t (set_all (g i) a) (map (rewrite_attrs (fun x => set_all (g x))) ks))
                = matches s (Elem i t a ks)); [|rewrite E; reflexivity].
    specialize (Hg i). revert a. induction (g i) as [|[k v] l IHl]; intros a.
    + destruct s; reflexivity.
    + change (set_all ((k, v) :: l) a) with (set_all l (Attr.set k v a)).
      rewrite IHl by (intros kv Hkv; apply Hg; right; exact Hkv).
      apply matches_set. apply (Hg (k, v)). left. reflexivity.
  - induction IH as [|k ks Hk _ IHks]; [reflexivity|]. cbn [map flat_map].
    rewrite Hk, IHks. reflexivity.
Qed.

Lemma annotations_names p m n x kv :
  In kv (annotations p m n x) -> Str.mem (fst kv) annotation_names = true.
Proof.
  unfold annotations. rewrite !in_app_iff, in_flat_map.
  intros [H|[H|(y & _ & H)]].
  - destruct (Nat.eqb m x); cbn in H; [destruct H as [<-|[]]; reflexivity | destruct H].
  - destruct (Nat.eqb n x); cbn in H;
      [destruct H as [<-|[<-|[]]]; reflexivity | destruct H].
  - destruct (Nat.eqb y x); cbn in H;
      [destruct H as [<-|[<-|[<-|[]]]]; reflexivity | destruct H].
Qed.

Lemma query_annotated s p m n :
  (forall k, Str.mem k annotation_names = true -> sel_reads s k = false) ->
  query s (rewrite_attrs (fun x => set_all (annotations p m n x)) (root p)) = query s (root p).
Proof.
  intros Hs. apply query_rewrite_set_all. intros x kv Hkv.
  apply Hs, (annotations_names p m n x kv Hkv).
Qed.

Lemma find_elem_rewrite_attrs i g n :
  find_elem i (rewrite_attrs g n) = option_map (rewrite_attrs g) (find_elem i n).
Proof.
  induction n as [j t a ks IH| |] using Node_ind'; cbn [rewrite_attrs find_elem];
    try reflexivity.
  destruct (Nat.eqb i j); [reflexivity|].
  rewrite first_some_map, <- first_some_option_map. apply first_some_ext. exact IH.
Qed.

Lemma text_content_rewrite_attrs g n :
  text_content (rewrite_attrs g n) = text_content n.
Proof.
  induction n as [i t a ks IH| |] using Node_ind'; cbn [rewrite_attrs text_content];
    try reflexivity.
  f_equal. rewrite map_map. apply map_ext_Forall. exact IH.
Qed.

Lemma heading_of_rewrite g p q item :
  root q = rewrite_attrs (fun x => set_all (g x)) (root p) ->
  heading_of item q
  = match find_elem item (root p) with
    | Some e =>
        List.head (flat_map (query (ByTag "h3"))
                            (map (rewrite_attrs (fun x => set_all (g x))) (node_kids e)))
    | None => None
    end.
Proof.
  intros Hq. unfold heading_of. rewrite Hq, find_elem_rewrite_attrs.
  destruct (find_elem item (root p)) as [e|]; [|reflexivity].
  cbn [option_map]. destruct e; reflexivity.
Qed.

Lemma heading_of_same g p q item :
  root q = rewrite_attrs (fun x => set_all (g x)) (root p) ->
  heading_of item q = heading_of item p.
Proof.
  intros Hq. rewrite (heading_of_rewrite g p q item Hq). unfold heading_of.
  destruct (find_elem item (root p)) as [e|]; [|reflexivity]. f_equal.
  induction (node_kids e) as [|k ks IH]; [reflexivity|]. cbn [map flat_map].
  rewrite IH. f_equal. apply query_rewrite_set_all. reflexivity.
Qed.

Lemma text_at_same g p q h :
  root q = rewrite_attrs g (root p) -> text_at h q = text_at h p.
Proof.
  intros Hq. unfold text_at. rewrite Hq, find_elem_rewrite_attrs.
  destruct (find_elem h (root p)); cbn [option_map];
    [apply text_content_rewrite_attrs | reflexivity].
Qed.

Lemma item_label_same g p q item :
  root q = rewrite_attrs (fun x => set_all (g x)) (root p) ->
  item_label item q = item_label item p.
Proof.
  intros Hq. unfold item_label. rewrite (heading_of_same g p q item Hq).
  destruct (heading_of item p) as [h|]; [|reflexivity].
  rewrite (text_at_same _ p q h Hq). reflexivity.
Qed.

(** X15: the structural annotation is idempotent where it completes: when
    [enhanceSemanticStructure] returns, a second run returns too and
    leaves the tree the first one left. *)
Theorem enhanceSemanticStructure_idempotent (p : Page) :
  returns enhanceSemanticStructure p = true ->
  returns enhanceSemanticStructure (page_after enhanceSemanticStructure p) = true
  /\ root (page_after enhanceSemanticStructure (page_after enhanceSemanticStructure p))
     = root (page_after enhanceSemanticStructure p).
Proof.
  intros Hret. rewrite returns_enhanceSemanticStructure in Hret.
  destruct (annotatable_spec p Hret) as (m & n & Hm & Hn & Hi).
  set (q := page_after enhanceSemanticStructure p).
  assert (Hq : root q = rewrite_attrs (fun x => set_all (annotations p m n x)) (root p))
    by (apply annotated_root; assumption).
  assert (Hqm : List.head (query (ByTag "main") (root q)) = Some m).
  { rewrite Hq, query_annotated by reflexivity. exact Hm. }
  assert (Hqn : List.head (query (ByTag "nav") (root q)) = Some n).
  { rewrite Hq, query_annotated by reflexivity. exact Hn. }
  assert (Hqitems : query (ByClass "portfolio-item") (root q)
                    = query (ByClass "portfolio-item") (root p)).
  { rewrite Hq. apply query_annotated. intros k Hk. unfold annotation_names in Hk.
    cbn [Str.mem existsb] in Hk. rewrite !orb_true_iff in Hk.
    destruct Hk as [Hk|[Hk|[Hk|[Hk|Hk]]]]; try discriminate Hk;
      apply String.eqb_eq in Hk; subst k; reflexivity. }
  assert (Hqi : forall x, In x (query (ByClass "portfolio-item") (root q)) ->
                          heading_of x q <> None).
  { intros x Hx. rewrite (heading_of_same _ p q x Hq). apply Hi.
    rewrite <- Hqitems. exact Hx. }
  split.
  - rewrite returns_enhanceSemanticStructure. unfold annotatable.
    rewrite Hqm, Hqn. cbn [is_some andb]. apply forallb_forall. intros x Hx.
    specialize (Hqi x Hx). destruct (heading_of x q); [reflexivity | congruence].
  - rewrite (annotated_root q m n Hqm Hqn Hqi), Hq, rewrite_attrs_compose.
    apply rewrite_attrs_ext. intros x a.
    assert (E : annotations q m n x = annotations p m n x).
    { unfold annotations. rewrite Hqitems. do 2 f_equal.
      apply flat_map_ext. intros y. rewrite (item_label_same _ p q y Hq). reflexivity. }
    rewrite E. apply set_all_twice.
Qed.

(** *** The keyword report *)




(** *** The indexing signal *)

Lemma sendIndexingSignals_run q i t a ks :
  root q = Elem i t a ks ->
  sendIndexingSignals q
  = (mkPage (update_attrs i (Attr.set "data-seo-enhanced" "true") (root q))
            (title q) (next_id q) (listeners q)
            (beacons q ++ (if sendBeacon_available then [ping_url] else []))
            (console q) (calls q ++ [CallSendIndexingSignals]),
     Ret tt).
Proof.
  intros Er.
  unfold sendIndexingSignals, bind, enter, modify, document_documentElement, read,
    deref, setAttribute, sendBeacon, with_root, ping_url.
  destruct sendBeacon_available; cbn; rewrite Er; cbn; rewrite ?app_nil_r; reflexivity.
Qed.

(** X17: [sendIndexingSignals] keeps no record of a ping: called a
    second time it sends the ping again, when the host can send it, and
    leaves the tree, with the completion flag, as the first call left
    it. *)
Theorem sendIndexingSignals_twice_pings_twice (p : Page) :
  well_formed p = true ->
  returns sendIndexingSignals (page_after sendIndexingSignals p) = true
  /\ beacons (page_after sendIndexingSignals (page_after sendIndexingSignals p))
     = beacons p ++ (if sendBeacon_available then [ping_url; ping_url] else [])
  /\ root (page_after sendIndexingSignals (page_after sendIndexingSignals p))
     = root (page_after sendIndexingSignals p).
Proof.
  intros Hwf. apply well_formed_spec in Hwf as W.
  destruct (has_tag_true _ _ (wf_html p W)) as (i & a & ks & Er).
  unfold returns, page_after.
  rewrite (sendIndexingSignals_run p i "html" a ks Er). cbn [fst].
  erewrite sendIndexingSignals_run.
  2:{ cbn [root]. rewrite Er. cbn [update_attrs]. rewrite Nat.eqb_refl. reflexivity. }
  cbn [fst snd root beacons].
  split; [reflexivity|]. split.
  - rewrite <- app_assoc. destruct sendBeacon_available; reflexivity.
  - apply update_attrs_idem. intros a0. apply attr_set_same.
    rewrite attr_get_set. reflexivity.
Qed.

End Again.

Section AgainOnDemo.

#[local] Existing Instance Demo.host.


Lemma enhanceSemanticStructure_idempotent_witness :
  returns enhanceSemanticStructure Demo.portfolio = true
  /\ returns enhanceSemanticStructure
       (page_after enhanceSemanticStructure Demo.portfolio) = true
  /\ root (page_after enhanceSemanticStructure
             (page_after enhanceSemanticStructure Demo.portfolio))
     = root (page_after enhanceSemanticStructure Demo.portfolio).
Proof.
  split; [reflexivity|].
  exact (enhanceSemanticStructure_idempotent (host := Demo.host) Demo.portfolio eq_refl).
Defined.

Lemma sendIndexingSignals_twice_pings_twice_witness :
  well_formed Demo.portfolio = true
  /\ returns sendIndexingSignals (page_after sendIndexingSignals Demo.portfolio) = true
  /\ List.length
       (beacons (page_after sendIndexingSignals
                   (page_after sendIndexingSignals Demo.portfolio))) = 2
  /\ root (page_after sendIndexingSignals (page_after sendIndexingSignals Demo.portfolio))
     = root (page_after sendIndexingSignals Demo.portfolio).
Proof.
  split; [reflexivity|].
  destruct (sendIndexingSignals_twice_pings_twice (host := Demo.host) Demo.portfolio
              eq_refl) as (Hret & Hb & Hroot).
  split; [exact Hret|]. split; [rewrite Hb; reflexivity | exact Hroot].
Defined.

End AgainOnDemo.
